(** * Community feed: comment tree, like ledger, karma leaderboard, like/reply UI

    A shallow embedding of the parts of the repository that carry its
    logic:

    - the React handlers of [Post.jsx] and [Comment.jsx] (like toggle,
      reply control and recursive rendering of comments);
    - the like view and its [UniqueConstraint] (EXPLAINER.md, section 4);
    - the leaderboard view (EXPLAINER.md, section 2);
    - the stored form of [Comment.path] and the path allocator;
    - [PostDetailSerializer.get_comments] (EXPLAINER.md, section 1), with
      the dictionaries it mutates kept in an explicit heap.

    Integers of Python and JavaScript are [Z]; identifiers are [Z];
    timestamps are [Z] microseconds; Python dictionaries whose iteration
    order matters are association lists in insertion order; the
    [comment_dict] lookup table is a [gmap]. *)

From Stdlib Require Import ZArith NArith String Ascii DecimalString Lia.
From stdpp Require Import base option list gmap strings sorting.

Set Warnings "-register-all".
Local Open Scope Z_scope.

(** A logged-in user as the auth context hands it to the components;
    [None] stands for JavaScript's [null]. *)
Record User := { user_id : Z; username : string }.

(** How an awaited API promise settles. *)
Inductive Settled := Fulfilled | Rejected.

(* ================================================================== *)
(** * Frontend: like toggle and reply control                          *)
(* ================================================================== *)

Module Frontend.

(** Requests of [services/api.js] that the handlers below issue. *)
Inductive Request :=
| likePost (postId : Z)
| unlikePost (postId : Z)
| likeComment (commentId : Z)
| unlikeComment (commentId : Z)
| createComment (postId : Z) (content : string) (parentId : option Z).

(** The two [useState] cells a like button reads. *)
Record LikeState := { isLiked : bool; likeCount : Z }.

(** [setLikeCount(c => c - 1)]: a functional update, applied to the
    state current at the time of the update. *)
Definition setLikeCount (f : Z -> Z) (st : LikeState) : LikeState :=
  {| isLiked := isLiked st; likeCount := f (likeCount st) |}.

(** [setIsLiked(v)]. *)
Definition setIsLiked (v : bool) (st : LikeState) : LikeState :=
  {| isLiked := v; likeCount := likeCount st |}.

(** Body shared by [Post.handleLike] and [CommentItem.handleLike]; the
    two differ in the requests only.  [rendered] is the [isLiked] the
    closure captured, [api] is how the server answers, and the result
    is the state after the handler has run on [st].

<<
    if (!user) return;
    try {
      if (isLiked) { await unlike(id); setLikeCount(c => c - 1); }
      else         { await like(id);   setLikeCount(c => c + 1); }
      setIsLiked(!isLiked);
    } catch (err) { console.error(...); }
>> *)
Definition toggle (unlike like : Request) (user : option User)
    (rendered : bool) (api : Request -> Settled) (st : LikeState) : LikeState :=
  match user with
  | None => st
  | Some _ =>
      if rendered then
        match api unlike with
        | Fulfilled => setIsLiked (negb rendered) (setLikeCount (fun c => c - 1) st)
        | Rejected => st
        end
      else
        match api like with
        | Fulfilled => setIsLiked (negb rendered) (setLikeCount (fun c => c + 1) st)
        | Rejected => st
        end
  end.

(** The request a toggle issues for a rendered flag. *)
Definition issued (unlike like : Request) (rendered : bool) : Request :=
  if rendered then unlike else like.

Module Post.
Definition handleLike (post_id : Z) :=
  toggle (unlikePost post_id) (likePost post_id).
End Post.

Module CommentItem.
Definition handleLike (comment_id : Z) :=
  toggle (unlikeComment comment_id) (likeComment comment_id).
End CommentItem.

(** A comment as the post endpoint returns it: its id and its nested
    replies (the fields rendering does not branch on are left out). *)
Inductive CommentData := CommentJSON (id : Z) (replies : list CommentData).

(** What one [CommentItem] puts on the page: the comment, the [depth]
    prop it was rendered with, whether the Reply button is present,
    and the nested items. *)
Inductive Rendered :=
  Item (comment_id : Z) (depth : Z) (reply_button : bool) (nested : list Rendered).

Definition item_depth (r : Rendered) : Z :=
  match r with Item _ d _ _ => d end.
Definition item_reply_button (r : Rendered) : bool :=
  match r with Item _ _ b _ => b end.
Definition item_nested (r : Rendered) : list Rendered :=
  match r with Item _ _ _ l => l end.

(** [{user && depth < 5 && (<button ...>Reply</button>)}] *)
Definition reply_guard (user : option User) (depth : Z) : bool :=
  match user with
  | Some _ => depth <? 5
  | None => false
  end.

(** [CommentItem({ comment, depth = 0 })]: renders the comment and, for
    each reply, a [CommentItem] with [depth={depth + 1}]. *)
Fixpoint renderCommentItem (user : option User) (depth : Z) (comment : CommentData)
    : Rendered :=
  match comment with
  | CommentJSON id replies =>
      Item id depth (reply_guard user depth)
        (map (renderCommentItem user (depth + 1)) replies)
  end.

(** [CommentList]: every top-level comment is rendered with [depth={0}]. *)
Definition CommentList (user : option User) (comments : list CommentData)
    : list Rendered :=
  map (renderCommentItem user 0) comments.

(** The item reached from a list of items by a position: the index of
    a top-level item followed by child indices. *)
Fixpoint item_at (items : list Rendered) (pos : list nat) : option Rendered :=
  match pos with
  | [] => None
  | i :: rest =>
      match items !! i with
      | None => None
      | Some it =>
          match rest with
          | [] => Some it
          | _ => item_at (item_nested it) rest
          end
      end
  end.

(** Number of nesting steps of a position. *)
Definition nesting (pos : list nat) : Z := Z.of_nat (length pos) - 1.

(** What the user can do to the reply form of one [CommentItem]. *)
Inductive Event :=
| ClickReply
| ClickCancel
| SubmitReply (outcome : Settled).

(** An event can only come from a control that is on the page: the
    Reply button is behind [reply_guard], the form (with its submit and
    cancel buttons) behind [isReplying]. *)
Definition enabled (user : option User) (depth : Z) (isReplying : bool) (e : Event)
    : bool :=
  match e with
  | ClickReply => reply_guard user depth
  | ClickCancel => isReplying
  | SubmitReply _ => isReplying
  end.

(** The [isReplying] cell after an event: the Reply button toggles it,
    Cancel and a successful [handleReply] clear it, a failed
    [handleReply] leaves it. *)
Definition on_event (isReplying : bool) (e : Event) : bool :=
  match e with
  | ClickReply => negb isReplying
  | ClickCancel => false
  | SubmitReply Fulfilled => false
  | SubmitReply Rejected => isReplying
  end.

(** Runs a trace of events, each with the user logged in at that
    moment; [None] when an event is not available on the page. *)
Fixpoint run_events (depth : Z) (isReplying : bool)
    (trace : list (option User * Event)) : option bool :=
  match trace with
  | [] => Some isReplying
  | (user, e) :: rest =>
      if enabled user depth isReplying e
      then run_events depth (on_event isReplying e) rest
      else None
  end.

(** Whether a trace that could be run contains a reply submission. *)
Definition submits (trace : list (option User * Event)) : bool :=
  existsb (fun ue => match snd ue with SubmitReply _ => true | _ => false end) trace.

End Frontend.

(* ================================================================== *)
(** * Models (models.py, as EXPLAINER.md declares them)                 *)
(* ================================================================== *)

(** [Post]: its primary key and its author (a user id). *)
Record Post := { post_id : Z; post_author : Z }.

(** [Comment]: primary key, post, optional parent comment ([None] for a
    root comment), author, content, and the materialized path with the
    depth stored next to it. *)
Record Comment := {
  comment_id : Z;
  comment_post : Z;
  parent_id : option Z;
  comment_author : Z;
  content : string;
  path : string;
  depth : Z
}.

(** [PostLike]: the liked post, the liking user, the creation time. *)
Record PostLike := { pl_post : Z; pl_user : Z; pl_created_at : Z }.

(** [CommentLike]: the liked comment, the liking user, the creation time. *)
Record CommentLike := { cl_comment : Z; cl_user : Z; cl_created_at : Z }.

(* ================================================================== *)
(** * Shared helpers: dictionaries in insertion order, stable sorting   *)
(* ================================================================== *)

(** [d.get(k, default)] on a dictionary kept as its items in insertion
    order. *)
Fixpoint dict_get (d : list (Z * Z)) (k : Z) (default : Z) : Z :=
  match d with
  | [] => default
  | (k', v) :: rest => if decide (k' = k) then v else dict_get rest k default
  end.

(** [d[k] = v]: an existing key keeps its place, a new key goes last. *)
Fixpoint dict_set (d : list (Z * Z)) (k : Z) (v : Z) : list (Z * Z) :=
  match d with
  | [] => [(k, v)]
  | (k', v') :: rest =>
      if decide (k' = k) then (k, v) :: rest else (k', v') :: dict_set rest k v
  end.

(** Stable sorting, as Python's [sorted] and a store's [ORDER BY] on
    unique keys: [x] is put in front of the first element that does not
    strictly precede it, so elements that compare equal keep their
    order. *)
Fixpoint insert_by {A} (precedes : A -> A -> bool) (x : A) (l : list A) : list A :=
  match l with
  | [] => [x]
  | y :: rest =>
      if precedes y x then y :: insert_by precedes x rest else x :: y :: rest
  end.

Definition sort_by {A} (precedes : A -> A -> bool) (l : list A) : list A :=
  foldr (insert_by precedes) [] l.

(* ================================================================== *)
(** * Like ledger                                                       *)
(* ================================================================== *)

Module Ledger.

Definition same_pair (p u : Z) (r : PostLike) : bool :=
  bool_decide (pl_post r = p) && bool_decide (pl_user r = u).

(** [UniqueConstraint(fields=['post', 'user'], name='unique_post_like')]
    as a property of the table. *)
Definition unique_post_like (t : list PostLike) : Prop :=
  NoDup (map (fun r => (pl_post r, pl_user r)) t).

(** The store's answer to an insert. *)
Inductive Insert := Inserted (t : list PostLike) | IntegrityError.

(** [PostLike.objects.create(post=post, user=request.user)]: the store
    refuses a row whose (post, user) pair is already there. *)
Definition create (t : list PostLike) (r : PostLike) : Insert :=
  if existsb (same_pair (pl_post r) (pl_user r)) t then IntegrityError
  else Inserted (t ++ [r]).

(** A response of the view: status code and the one entry of its body. *)
Record Response := { status_code : Z; body : string * string }.

Definition liked : Response :=
  {| status_code := 200; body := ("status", "liked")%string |}.
Definition AlreadyLiked : Response :=
  {| status_code := 400; body := ("error", "Already liked")%string |}.

(** The [like] action of the post view set, after [get_object] has
    found the post.  The insert runs in [transaction.atomic()], so a
    refused insert leaves the table as it was. *)
Definition like (t : list PostLike) (p : Z) (request_user : Z) (now : Z)
    : Response * list PostLike :=
  match create t {| pl_post := p; pl_user := request_user; pl_created_at := now |} with
  | Inserted t' => (liked, t')
  | IntegrityError => (AlreadyLiked, t)
  end.

(** Outcome of [unlike]. *)
Inductive UnlikeResult := Unliked | NotLiked.

(** Modelled from the spec: the [unlike] view (views.py) is not among
    the sources; only its caller [unlikePost] in services/api.js is.
    The spec has it delete the matching record and report [NotLiked]
    when there is none. *)
Definition unlike (t : list PostLike) (p : Z) (request_user : Z)
    : UnlikeResult * list PostLike :=
  if existsb (same_pair p request_user) t
  then (Unliked, filter (fun r => negb (same_pair p request_user r)) t)
  else (NotLiked, t).

(** Number of rows of the table for a pair. *)
Definition records (t : list PostLike) (p u : Z) : nat :=
  length (filter (fun r => same_pair p u r = true) t).

End Ledger.

(* ================================================================== *)
(** * Karma leaderboard                                                 *)
(* ================================================================== *)

Module Karma.

(** The tables the view reads. *)
Record Database := {
  posts : list Post;
  comments : list Comment;
  post_likes : list PostLike;
  comment_likes : list CommentLike
}.

(** [timedelta(hours=h)] in microseconds. *)
Definition timedelta_hours (h : Z) : Z := h * 3600 * 1000000.
Definition one_second : Z := 1000000.

(** The join behind [post__author]: the author of the post with this
    id ([None] when the id resolves to no post, in which case the
    inner join drops the like). *)
Definition post__author (db : Database) (pid : Z) : option Z :=
  post_author <$> find (fun p => bool_decide (post_id p = pid)) (posts db).

Definition comment__author (db : Database) (cid : Z) : option Z :=
  comment_author <$> find (fun c => bool_decide (comment_id c = cid)) (comments db).

(** [.values(key).annotate(n=Count('id'))]: one row per distinct key,
    with the number of rows of that key.  Rows come out in the order
    in which their key first appears; the view does not ask for an
    order. *)
Definition group_count (keys : list Z) : list (Z * Z) :=
  foldl (fun groups k => dict_set groups k (dict_get groups k 0 + 1)) [] keys.

(** [PostLike.objects.filter(created_at__gte=cutoff)
      .values('post__author').annotate(karma=Count('id') * 5)] *)
Definition post_karma (db : Database) (cutoff : Z) : list (Z * Z) :=
  map (fun row => (fst row, snd row * 5))
    (group_count
       (omap (fun l => post__author db (pl_post l))
          (filter (fun l => cutoff <= pl_created_at l) (post_likes db)))).

(** [CommentLike.objects.filter(created_at__gte=cutoff)
      .values('comment__author').annotate(karma=Count('id'))] *)
Definition comment_karma (db : Database) (cutoff : Z) : list (Z * Z) :=
  group_count
    (omap (fun l => comment__author db (cl_comment l))
       (filter (fun l => cutoff <= cl_created_at l) (comment_likes db))).

(** One of the two loops
<<
    for item in rows:
        user_id = item[key]
        karma_by_user[user_id] = karma_by_user.get(user_id, 0) + item['karma']
>> *)
Definition accumulate (karma_by_user rows : list (Z * Z)) : list (Z * Z) :=
  foldl (fun d item => dict_set d (fst item) (dict_get d (fst item) 0 + snd item))
    karma_by_user rows.

Definition karma_by_user (post_rows comment_rows : list (Z * Z)) : list (Z * Z) :=
  accumulate (accumulate [] post_rows) comment_rows.

(** [sorted(items, key=lambda x: x[1], reverse=True)]: descending by
    karma, stable. *)
Definition sorted_reverse (items : list (Z * Z)) : list (Z * Z) :=
  sort_by (fun x y => snd y <? snd x) items.

(** [sorted(karma_by_user.items(), ...)[:5]] *)
Definition sorted_users (post_rows comment_rows : list (Z * Z)) : list (Z * Z) :=
  take 5 (sorted_reverse (karma_by_user post_rows comment_rows)).

(** The leaderboard view, called at time [now]. *)
Definition get (db : Database) (now : Z) : list (Z * Z) :=
  let cutoff := now - timedelta_hours 24 in
  sorted_users (post_karma db cutoff) (comment_karma db cutoff).

(** The dictionary the view ranks. *)
Definition karma_table (db : Database) (now : Z) : list (Z * Z) :=
  let cutoff := now - timedelta_hours 24 in
  karma_by_user (post_karma db cutoff) (comment_karma db cutoff).

(** Number of post-like rows in the window whose post is by [u]. *)
Definition post_likes_received (db : Database) (now : Z) (u : Z) : Z :=
  Z.of_nat (length (filter
    (fun l => now - timedelta_hours 24 <= pl_created_at l
              /\ post__author db (pl_post l) = Some u) (post_likes db))).

(** Number of comment-like rows in the window whose comment is by [u]. *)
Definition comment_likes_received (db : Database) (now : Z) (u : Z) : Z :=
  Z.of_nat (length (filter
    (fun l => now - timedelta_hours 24 <= cl_created_at l
              /\ comment__author db (cl_comment l) = Some u) (comment_likes db))).

(** Karma of [u] as the sum of the two weighted counts. *)
Definition karma (db : Database) (now : Z) (u : Z) : Z :=
  post_likes_received db now u * 5 + comment_likes_received db now u * 1.

(** The ranking the contract asks for: strictly descending by karma,
    equal karma in ascending order of user id. *)
Definition ranked_by_karma_then_id (l : list (Z * Z)) : Prop :=
  StronglySorted
    (fun a b => snd b < snd a \/ (snd a = snd b /\ fst a < fst b)) l.

(** Descending by karma, equal karma allowed. *)
Definition descending (l : list (Z * Z)) : Prop :=
  StronglySorted (fun a b => snd b <= snd a) l.

(** The full ranking, before the cut to five. *)
Definition ranking (db : Database) (now : Z) : list (Z * Z) :=
  sorted_reverse (karma_table db now).

(** The database with one more row in a like table. *)
Definition with_post_like (db : Database) (l : PostLike) : Database :=
  {| posts := posts db; comments := comments db;
     post_likes := post_likes db ++ [l]; comment_likes := comment_likes db |}.

Definition with_comment_like (db : Database) (l : CommentLike) : Database :=
  {| posts := posts db; comments := comments db;
     post_likes := post_likes db; comment_likes := comment_likes db ++ [l] |}.

Definition a_comment (cid author : Z) : Comment :=
  {| comment_id := cid; comment_post := 10; parent_id := None;
     comment_author := author; content := ""; path := "0001"; depth := 0 |}.

(** The karma scenario: user 1 wrote post 10 and comment 20; at time
    [scenario_now] the post has three likes and the comment two, all
    within the last 24 hours, and the post has one more like that is
    one second older than the window. *)
Definition scenario_now : Z := 1000 * timedelta_hours 24.

Definition scenario : Database :=
  {| posts := [{| post_id := 10; post_author := 1 |}];
     comments := [a_comment 20 1];
     post_likes :=
       [{| pl_post := 10; pl_user := 5;
           pl_created_at := scenario_now - timedelta_hours 24 - one_second |};
        {| pl_post := 10; pl_user := 2;
           pl_created_at := scenario_now - timedelta_hours 24 |};
        {| pl_post := 10; pl_user := 3;
           pl_created_at := scenario_now - timedelta_hours 1 |};
        {| pl_post := 10; pl_user := 4; pl_created_at := scenario_now |}];
     comment_likes :=
       [{| cl_comment := 20; cl_user := 2;
           cl_created_at := scenario_now - timedelta_hours 2 |};
        {| cl_comment := 20; cl_user := 3;
           cl_created_at := scenario_now - timedelta_hours 3 |}] |}.

(** Two users with equal karma: user 2 has one like on a post, user 1
    has five likes on a comment, all at time 100. *)
Definition tie : Database :=
  {| posts := [{| post_id := 10; post_author := 2 |}];
     comments := [a_comment 20 1];
     post_likes := [{| pl_post := 10; pl_user := 3; pl_created_at := 100 |}];
     comment_likes :=
       map (fun v => {| cl_comment := 20; cl_user := v; cl_created_at := 100 |})
         [2; 3; 4; 5; 6] |}.

End Karma.

(* ================================================================== *)
(** * Materialized paths                                                *)
(* ================================================================== *)

Module Paths.

Local Open Scope string_scope.









(** The largest segment in use, 0 if none. *)
Definition max_segment (used : list N) : N := foldr N.max 0%N used.

(** The last segment of [p] if [p] is a direct child of [parent]. *)
Definition child_segment (parent p : list N) : option N :=
  if bool_decide (take (length parent) p = parent) then
    match drop (length parent) p with
    | [k] => Some k
    | _ => None
    end
  else None.

(** Modelled from the spec: the segments the sibling group of a new
    comment already uses, among the paths of the post's comments: the
    first segments for a root comment, the last segments of the direct
    children of the parent for a reply. *)
Definition sibling_segments (parentPath : option (list N)) (existing : list (list N))
    : list N :=
  match parentPath with
  | None => omap head existing
  | Some parent => omap (child_segment parent) existing
  end.

(** Modelled from the spec: the path allocator (models.py, not among the
    sources), [allocate(parentPath, existingSiblingMaxSegment)]: the
    next segment is one greater than the maximum in use, alone for a
    root comment and appended to the parent's path for a reply. *)
Definition allocate (parentPath : option (list N)) (existingSiblingMaxSegment : N)
    : list N :=
  match parentPath with
  | None => [existingSiblingMaxSegment + 1]%N
  | Some parent => parent ++ [existingSiblingMaxSegment + 1]%N
  end.

(** Modelled from the spec: depth is derived as [len(path) - 1]. *)
Definition derived_depth (p : list N) : Z := Z.of_nat (length p) - 1.

(** Modelled from the spec: what [createComment] stores for a new
    comment given the paths of the post's comments: its path and its
    depth. *)
Definition createComment (parentPath : option (list N)) (existing : list (list N))
    : list N * Z :=
  let p := allocate parentPath (max_segment (sibling_segments parentPath existing)) in
  (p, derived_depth p).

End Paths.

(* ================================================================== *)
(** * Tree reconstruction: PostDetailSerializer.get_comments            *)
(* ================================================================== *)

Module Tree.

(** A [comment_data] dictionary: the serialized comment and its
    ['replies'] list, which holds references to other dictionaries. *)
Record Node := { data : Comment; replies : list nat }.

(** The objects the loop works on: every dictionary made so far (a
    reference is an index into [heap]), the lookup table from comment
    id to dictionary, and the list that is returned. *)
Record State := {
  heap : list Node;
  comment_dict : gmap Z nat;
  root_comments : list nat
}.

(** A Python result: a value or a raised [KeyError]. *)
Inductive Outcome (A : Type) := Return (a : A) | KeyError (key : Z).
Arguments Return {A} a.
Arguments KeyError {A} key.

(** [serialize(comment)]: a fresh dictionary with no replies. *)
Definition serialize (c : Comment) : Node := {| data := c; replies := [] |}.

(** [node['replies'].append(child)] *)
Definition append_reply (child : nat) (n : Node) : Node :=
  {| data := data n; replies := replies n ++ [child] |}.

Definition initial : State :=
  {| heap := []; comment_dict := ∅; root_comments := [] |}.

(** One turn of the loop:
<<
    comment_data = serialize(comment)
    comment_dict[comment.id] = comment_data
    if comment.parent_id is None:
        root_comments.append(comment_data)
    else:
        comment_dict[comment.parent_id]['replies'].append(comment_data)
>> *)
Definition visit (st : State) (comment : Comment) : Outcome State :=
  let comment_data := length (heap st) in
  let heap1 := heap st ++ [serialize comment] in
  let dict1 := <[comment_id comment := comment_data]> (comment_dict st) in
  match parent_id comment with
  | None =>
      Return {| heap := heap1; comment_dict := dict1;
                root_comments := root_comments st ++ [comment_data] |}
  | Some pid =>
      match dict1 !! pid with
      | None => KeyError pid
      | Some parent =>
          Return {| heap := alter (append_reply comment_data) parent heap1;
                    comment_dict := dict1;
                    root_comments := root_comments st |}
      end
  end.

(** [for comment in comments: ...] *)
Fixpoint loop (st : State) (comments : list Comment) : Outcome State :=
  match comments with
  | [] => Return st
  | comment :: rest =>
      match visit st comment with
      | Return st' => loop st' rest
      | KeyError k => KeyError k
      end
  end.

(** [get_comments], from the ordered query result on: the state whose
    [root_comments] is returned. *)
Definition build (comments : list Comment) : Outcome State := loop initial comments.

(** The nested value a reference stands for: the dictionary's identity,
    its comment and its replies, read out in full. *)
Inductive CommentNode :=
  Reified (object : nat) (comment : Comment) (nested : list CommentNode).

(** Reads out the value behind reference [a]; [None] when the fuel runs
    out or a reference dangles. *)
Fixpoint reify (fuel : nat) (h : list Node) (a : nat) : option CommentNode :=
  match fuel with
  | O => None
  | S fuel' =>
      match h !! a with
      | None => None
      | Some n =>
          match mapM (reify fuel' h) (replies n) with
          | None => None
          | Some kids => Some (Reified a (data n) kids)
          end
      end
  end.

(** The forest behind the returned [root_comments]. *)
Definition forest (st : State) : option (list CommentNode) :=
  mapM (reify (S (length (heap st))) (heap st)) (root_comments st).

(** Pre-order traversal. *)
Fixpoint flatten (t : CommentNode) : list Comment :=
  match t with
  | Reified _ c kids => c :: concat (map flatten kids)
  end.

Definition flatten_forest (f : list CommentNode) : list Comment :=
  concat (map flatten f).

(** ** The shape of the rows of one post *)

Definition is_digit (a : ascii) : bool :=
  let n := N_of_ascii a in ((48 <=? n) && (n <=? 57))%N.

Fixpoint all_digits (s : string) : bool :=
  match s with
  | EmptyString => true
  | String a rest => is_digit a && all_digits rest
  end.

(** One segment of a stored path: a non-empty run of digits. *)
Definition is_segment (s : string) : bool :=
  match s with
  | EmptyString => false
  | _ => all_digits s
  end.

Fixpoint strip_prefix (pre s : string) : option string :=
  match pre, s with
  | EmptyString, _ => Some s
  | String a pre', String b s' =>
      if Ascii.eqb a b then strip_prefix pre' s' else None
  | String _ _, EmptyString => None
  end.

(** [child] is [parent], a dot, and one more segment. *)
Definition extends (parent child : string) : bool :=
  match strip_prefix parent child with
  | Some (String "."%char seg) => is_segment seg
  | _ => false
  end.

(** Every root comment has a one-segment path, and every reply has its
    parent among the rows and the parent's path extended by one
    segment as its path. *)
Definition materialized (rows : list Comment) : bool :=
  forallb
    (fun c =>
       match parent_id c with
       | None => is_segment (path c)
       | Some pid =>
           existsb
             (fun p => bool_decide (comment_id p = pid) && extends (path p) (path c))
             rows
       end)
    rows.

(** Primary keys are unique. *)
Definition unique_ids (rows : list Comment) : Prop :=
  NoDup (map comment_id rows).

(** Ascending by [path], as [order_by('path')] returns the rows of a
    post (paths are unique per post, so the order is strict). *)
Definition path_ordered (rows : list Comment) : Prop :=
  StronglySorted (fun a b => String.ltb (path a) (path b) = true) rows.

(** A comment whose parent id resolves to no comment of the sequence. *)
Definition orphan (comments : list Comment) (c : Comment) : Prop :=
  c ∈ comments /\
  exists pid, parent_id c = Some pid /\ pid ∉ map comment_id comments.

(** ** Notions used to reason about the loop *)

(** Pre-order traversal that keeps the identity of each dictionary. *)
Fixpoint entries (t : CommentNode) : list (nat * Comment) :=
  match t with
  | Reified a c kids => (a, c) :: concat (map entries kids)
  end.

Definition entries_forest (f : list CommentNode) : list (nat * Comment) :=
  concat (map entries f).

(** What appending [new] to the replies of the dictionary [parent]
    does to a value that was read out before: every occurrence of
    that dictionary gets [new] as its last reply. *)
Fixpoint attach (parent : nat) (new : CommentNode) (t : CommentNode) : CommentNode :=
  match t with
  | Reified a c kids =>
      Reified a c
        (map (attach parent new) kids ++ (if decide (a = parent) then [new] else []))
  end.

(** The rightmost branch of a forest, from its last root down. *)
Inductive is_spine : list CommentNode -> list (nat * Comment) -> Prop :=
| spine_nil : is_spine [] []
| spine_last f a c kids sp :
    is_spine kids sp -> is_spine (f ++ [Reified a c kids]) ((a, c) :: sp).

(** Characters of a stored path: digits and dots. *)
Fixpoint path_chars (s : string) : bool :=
  match s with
  | EmptyString => true
  | String a rest => (is_digit a || Ascii.eqb a ".") && path_chars rest
  end.

(** [x] is [q] or [q], a dot, and more. *)
Definition dotted (q x : string) : Prop :=
  x = q \/ exists r, x = (q ++ String "." r)%string.

(** Paths of a comment and its ancestors, the comment first: each is
    its successor extended by one segment, and the last has one
    segment. *)
Fixpoint path_chain (l : list string) : Prop :=
  match l with
  | [] => True
  | x :: rest =>
      match rest with
      | [] => is_segment x = true
      | y :: _ => extends y x = true
      end /\ path_chain rest
  end.

(** What holds after the loop has visited the comments [pre]: the
    state [st] stands for the forest [f], whose pre-order is [pre] with
    dictionary [i] holding the [i]-th comment, and whose rightmost
    branch, deepest node first, is [branch]: the last comment visited
    and its ancestors. *)
Record invariant (pre : list Comment) (st : State) (f : list CommentNode)
    (branch : list (nat * Comment)) : Prop := {
  inv_heap : length (heap st) = length pre;
  inv_dict : forall b cb,
    pre !! b = Some cb -> comment_dict st !! comment_id cb = Some b;
  inv_forest : forest st = Some f;
  inv_objects : (entries_forest f).*1 = seq 0 (length pre);
  inv_comments : (entries_forest f).*2 = pre;
  inv_spine : is_spine f (rev branch);
  inv_chain : path_chain ((fun e => path e.2) <$> branch);
  inv_last : snd <$> head branch = last pre;
  inv_chars : Forall (fun c => path_chars (path c) = true) pre
}.

(** A thread of five comments, in the order of their paths. *)
Definition a_comment (cid : Z) (parent : option Z) (p : string) (d : Z) : Comment :=
  {| comment_id := cid; comment_post := 1; parent_id := parent;
     comment_author := 1; content := ""; path := p; depth := d |}.

Definition thread : list Comment :=
  [a_comment 10 None "0001" 0;
   a_comment 11 (Some 10) "0001.0001" 1;
   a_comment 13 (Some 11) "0001.0001.0001" 2;
   a_comment 12 (Some 10) "0001.0002" 1;
   a_comment 14 None "0002" 0].

(** A comment whose parent, 99, is not in the sequence. *)
Definition broken_thread : list Comment :=
  [a_comment 10 None "0001" 0; a_comment 11 (Some 99) "0001.0001" 1].

End Tree.

(* ================================================================== *)
(** * The like view on the whole database                               *)
(* ================================================================== *)

Module Views.

(** The database after the [like] action of the post view set has run
    on its [PostLike] table, with the response of the view. *)
Definition like_post (db : Karma.Database) (p : Z) (request_user : Z) (now : Z)
    : Ledger.Response * Karma.Database :=
  let (response, t) := Ledger.like (Karma.post_likes db) p request_user now in
  (response,
   {| Karma.posts := Karma.posts db; Karma.comments := Karma.comments db;
      Karma.post_likes := t; Karma.comment_likes := Karma.comment_likes db |}).

(** Posts 10 (by user 1) and 11 (by user 2), and one like of user 3 on
    post 10 at time 50. *)
Definition two_posts : Karma.Database :=
  {| Karma.posts := [{| post_id := 10; post_author := 1 |};
                     {| post_id := 11; post_author := 2 |}];
     Karma.comments := [];
     Karma.post_likes := [{| pl_post := 10; pl_user := 3; pl_created_at := 50 |}];
     Karma.comment_likes := [] |}.

End Views.

(* ================================================================== *)
(** * More on get_comments                                              *)
(* ================================================================== *)

Module Threads.

(** Comment [i] of the sequence names a parent that is neither itself
    nor a comment in front of it. *)
Definition unresolved_at (comments : list Comment) (i : nat) : Prop :=
  exists c pid,
    comments !! i = Some c /\ parent_id c = Some pid
    /\ pid <> comment_id c /\ pid ∉ (comment_id <$> take i comments).

(** A comment that names itself as parent. *)
Definition own_parent (c : Comment) : Prop := parent_id c = Some (comment_id c).

(** Every node under [parent] names [parent] as its parent, all the
    way down. *)
Fixpoint well_nested (parent : option Z) (t : Tree.CommentNode) : bool :=
  match t with
  | Tree.Reified _ c kids =>
      bool_decide (parent_id c = parent)
      && forallb (well_nested (Some (comment_id c))) kids
  end.

Definition well_nested_forest (f : list Tree.CommentNode) : bool :=
  forallb (well_nested None) f.

(** What holds of the state [st] the loop returns for the comments
    [pre], with [f] the forest behind it. *)
Record returned (pre : list Comment) (st : Tree.State) (f : list Tree.CommentNode)
    : Prop := {
  ret_heap : length (Tree.heap st) = length pre;
  ret_dict : forall k i,
    Tree.comment_dict st !! k = Some i ->
    exists c, pre !! i = Some c /\ comment_id c = k;
  ret_forest : Tree.forest st = Some f;
  ret_objects : NoDup (Tree.entries_forest f).*1;
  ret_entries : forall a c, (a, c) ∈ Tree.entries_forest f -> pre !! a = Some c;
  ret_nested : well_nested_forest f = true;
  ret_complete :
    Forall (fun c => ~ own_parent c) pre ->
    (Tree.entries_forest f).*1 ≡ₚ seq 0 (length pre)
    /\ (Tree.entries_forest f).*2 ≡ₚ pre
}.

(** The state [build] returns, the initial state when it raises. *)
Definition built (comments : list Comment) : Tree.State :=
  match Tree.build comments with
  | Tree.Return st => st
  | Tree.KeyError _ => Tree.initial
  end.

(** The thread of [Tree.thread] with parents in front of their replies
    but not in the order of the paths. *)
Definition shuffled : list Comment :=
  [Tree.a_comment 10 None "0001" 0;
   Tree.a_comment 14 None "0002" 0;
   Tree.a_comment 12 (Some 10) "0001.0002" 1;
   Tree.a_comment 11 (Some 10) "0001.0001" 1;
   Tree.a_comment 13 (Some 11) "0001.0001.0001" 2].

End Threads.

(* ================================================================== *)
(** * services/api.js                                                   *)
(* ================================================================== *)

Module Api.

Local Open Scope string_scope.

Definition API_BASE : string := "/api".

(** White space as [String.prototype.trim] sees it, for strings of code
    units below 256: tab, line feed, vertical tab, form feed, carriage
    return, space and no-break space. *)
Definition is_whitespace (a : ascii) : bool :=
  let n := N_of_ascii a in
  ((9 <=? n) && (n <=? 13) || (n =? 32) || (n =? 160))%N.

Fixpoint trimStart (s : string) : string :=
  match s with
  | EmptyString => EmptyString
  | String a rest => if is_whitespace a then trimStart rest else s
  end.

Fixpoint trimEnd (s : string) : string :=
  match s with
  | EmptyString => EmptyString
  | String a rest =>
      match trimEnd rest with
      | EmptyString => if is_whitespace a then EmptyString else String a EmptyString
      | kept => String a kept
      end
  end.

(** [s.trim()] *)
Definition trim (s : string) : string := trimEnd (trimStart s).

(** [s.split(sep)] for a separator of one character: the pieces between
    the separators, one piece more than there are separators. *)
Fixpoint split (sep : ascii) (s : string) : list string :=
  match s with
  | EmptyString => [EmptyString]
  | String a rest =>
      if Ascii.eqb a sep then EmptyString :: split sep rest
      else
        match split sep rest with
        | piece :: pieces => String a piece :: pieces
        | [] => [String a EmptyString]
        end
  end.

(** The loop of [getCSRFToken] over the pieces of [document.cookie]:
<<
      for (let cookie of cookies) {
        cookie = cookie.trim();
        if (cookie.startsWith(name + '=')) {
          return cookie.substring(name.length + 1);
        }
      }
      return null;
>> *)
Fixpoint first_cookie (name : string) (cookies : list string) : option string :=
  match cookies with
  | [] => None
  | cookie :: rest =>
      match Tree.strip_prefix (name ++ "=") (trim cookie) with
      | Some value => Some value
      | None => first_cookie name rest
      end
  end.

(** [getCSRFToken()], with [document.cookie] as argument. *)
Definition getCSRFToken (document_cookie : string) : option string :=
  first_cookie "csrftoken" (split ";" document_cookie).

(** How the browser writes a cookie jar into [document.cookie]:
    [name=value] pairs joined by a semicolon and a space. *)
Definition document_cookie (jar : list (string * string)) : string :=
  String.concat "; " (map (fun nv => fst nv ++ "=" ++ snd nv) jar).

(** The value of the first cookie of that name in the jar. *)
Fixpoint jar_lookup (name : string) (jar : list (string * string)) : option string :=
  match jar with
  | [] => None
  | (n, v) :: rest => if String.eqb n name then Some v else jar_lookup name rest
  end.

(** No character of [s] satisfies [bad]. *)
Fixpoint free_of (bad : ascii -> bool) (s : string) : bool :=
  match s with
  | EmptyString => true
  | String a rest => negb (bad a) && free_of bad rest
  end.

(** Names and values a cookie can have: no semicolon and no white space,
    and no equals sign in a name. *)
Definition cookie_name (n : string) : bool :=
  free_of (fun a => Ascii.eqb a ";" || Ascii.eqb a "=" || is_whitespace a) n.
Definition cookie_value (v : string) : bool :=
  free_of (fun a => Ascii.eqb a ";" || is_whitespace a) v.
Definition cookie_jar (jar : list (string * string)) : bool :=
  forallb (fun nv => cookie_name (fst nv) && cookie_value (snd nv)) jar.

(** A value of a request body, before [JSON.stringify]. *)
Inductive Value := VNull | VNum (n : Z) | VStr (s : string).

(** The [options] argument of [fetchAPI]; [None] is [undefined]. *)
Record Options := {
  method : option string;
  headers : gmap string string;
  body : option (list (string * Value))
}.

(** What [fetchAPI] hands to [fetch]. *)
Record FetchInit := {
  url : string;
  init_method : option string;
  init_headers : gmap string string;
  init_body : option (list (string * Value));
  credentials : string
}.

(** [options.method && options.method !== 'GET'] *)
Definition mutating (m : option string) : bool :=
  match m with
  | None => false
  | Some s => negb (String.eqb s "") && negb (String.eqb s "GET")
  end.

(** The request part of [fetchAPI]:
<<
      const headers = { 'Content-Type': 'application/json', ...options.headers };
      if (options.method && options.method !== 'GET') {
        const csrfToken = getCSRFToken();
        if (csrfToken) { headers['X-CSRFToken'] = csrfToken; }
      }
      fetch(url, { ...options, headers, credentials: 'include' })
>> *)
Definition fetch_init (cookie : string) (endpoint : string) (options : Options)
    : FetchInit :=
  let headers0 := headers options ∪ {["Content-Type" := "application/json"]} in
  let headers1 :=
    if mutating (method options) then
      match getCSRFToken cookie with
      | Some csrfToken =>
          if String.eqb csrfToken "" then headers0
          else <["X-CSRFToken" := csrfToken]> headers0
      | None => headers0
      end
    else headers0 in
  {| url := API_BASE ++ endpoint;
     init_method := method options;
     init_headers := headers1;
     init_body := body options;
     credentials := "include" |}.

Definition no_options : Options := {| method := None; headers := ∅; body := None |}.
Definition post (b : option (list (string * Value))) : Options :=
  {| method := Some "POST"; headers := ∅; body := b |}.

(** A number in a template literal. *)
Definition show (n : Z) : string := NilZero.string_of_int (Z.to_int n).

(** The exported functions: each is its endpoint and its options. *)
Inductive Call :=
| initCSRF
| login (username password : string)
| register (username password : string)
| logout
| getCurrentUser
| getPosts (page : Z)
| getPost (id : Z)
| createPost (content : string)
| likePost (postId : Z)
| unlikePost (postId : Z)
| createComment (postId : Z) (content : string) (parentId : option Z)
| likeComment (commentId : Z)
| unlikeComment (commentId : Z)
| getLeaderboard.

Definition arguments (c : Call) : string * Options :=
  match c with
  | initCSRF => ("/csrf/", no_options)
  | login u p => ("/login/", post (Some [("username", VStr u); ("password", VStr p)]))
  | register u p =>
      ("/register/", post (Some [("username", VStr u); ("password", VStr p)]))
  | logout => ("/logout/", post None)
  | getCurrentUser => ("/me/", no_options)
  | getPosts page => ("/posts/?page=" ++ show page, no_options)
  | getPost id => ("/posts/" ++ show id ++ "/", no_options)
  | createPost content => ("/posts/", post (Some [("content", VStr content)]))
  | likePost postId => ("/posts/" ++ show postId ++ "/like/", post None)
  | unlikePost postId => ("/posts/" ++ show postId ++ "/unlike/", post None)
  | createComment postId content parentId =>
      ("/comments/",
       post (Some [("post", VNum postId); ("content", VStr content);
                   ("parent", match parentId with Some p => VNum p | None => VNull end)]))
  | likeComment commentId => ("/comments/" ++ show commentId ++ "/like/", post None)
  | unlikeComment commentId =>
      ("/comments/" ++ show commentId ++ "/unlike/", post None)
  | getLeaderboard => ("/leaderboard/", no_options)
  end.

(** The request a call sends, given [document.cookie]. *)
Definition request (cookie : string) (c : Call) : FetchInit :=
  fetch_init cookie (arguments c).1 (arguments c).2.

(** The calls that change something on the server. *)
Definition changes_state (c : Call) : bool :=
  match c with
  | initCSRF | getCurrentUser | getPosts _ | getPost _ | getLeaderboard => false
  | _ => true
  end.

(** A JSON value as [response.json()] gives it.  A number is kept as
    the text [String] gives for it, and the members of an object are in
    the order of the text. *)
Inductive Json :=
| JNull
| JBool (b : bool)
| JNumber (shown : string)
| JString (s : string)
| JArray (items : list Json)
| JObject (members : list (string * Json)).

(** The value [JSON.parse] keeps for a key: of members with the same
    key the last one. *)
Fixpoint last_member (key : string) (members : list (string * Json)) : option Json :=
  match members with
  | [] => None
  | (k, v) :: rest =>
      match last_member key rest with
      | Some later => Some later
      | None => if String.eqb k key then Some v else None
      end
  end.

(** [v.key] on a value that is not [null], for a key that no prototype
    defines, as [error] and [detail]: the member of an object, and
    [undefined] ([None]) on an object without it, on a boolean, a
    number, a string and an array. *)
Definition property (v : Json) (key : string) : option Json :=
  match v with
  | JObject members => last_member key members
  | _ => None
  end.

(** The message of the [TypeError] for reading a property of [null],
    in the words of V8. *)
Definition TypeError_null (key : string) : string :=
  "Cannot read properties of null (reading '" ++ key ++ "')".

(** Whether a value counts as true: [undefined], [null], [false], zero
    and the empty string do not. *)
Definition truthy (v : option Json) : bool :=
  match v with
  | None | Some JNull => false
  | Some (JBool b) => b
  | Some (JNumber shown) => negb (String.eqb shown "0")
  | Some (JString s) => negb (String.eqb s "")
  | Some (JArray _) | Some (JObject _) => true
  end.

(** [String(v)], which [new Error(v)] applies to its message: an array
    is its items joined by commas, with nothing for a [null] item. *)
Fixpoint to_string (v : Json) : string :=
  match v with
  | JNull => "null"
  | JBool true => "true"
  | JBool false => "false"
  | JNumber shown => shown
  | JString s => s
  | JArray items =>
      String.concat ","
        (map (fun item => match item with JNull => "" | _ => to_string item end) items)
  | JObject _ => "[object Object]"
  end.

(** [a || rest] as the message of an error, [rest] being a message
    already. *)
Definition or_else (a : option Json) (rest : string) : string :=
  match a with
  | Some v => if truthy a then to_string v else rest
  | None => rest
  end.

(** What [fetch] and [response.json()] give: a rejected [fetch], a
    response that is [ok] with its parsed body (or the message of the
    parse error), or a response that is not [ok] with its parsed body
    ([None] when it is not JSON). *)
Inductive Fetched (D : Type) :=
| NetworkError (message : string)
| Ok (parsed : D + string)
| NotOk (status : Z) (parsed : option Json).
Arguments NetworkError {D} message.
Arguments Ok {D} parsed.
Arguments NotOk {D} status parsed.

(** How an awaited call ends: with data, or with a thrown error and its
    message. *)
Inductive Outcome (D : Type) := Resolved (data : D) | Thrown (message : string).
Arguments Resolved {D} data.
Arguments Thrown {D} message.

(** The response part of [fetchAPI]:
<<
      if (!response.ok) {
        const error = await response.json().catch(() => ({ error: 'Request failed' }));
        throw new Error(error.error || error.detail || 'Request failed');
      }
      return response.json();
>>
    Reading [error.error] of a body that is [null] throws the
    [TypeError] in place of the [Error]. *)
Definition fetchAPI {D} (fetched : Fetched D) : Outcome D :=
  match fetched with
  | NetworkError message => Thrown message
  | Ok (inl data) => Resolved data
  | Ok (inr message) => Thrown message
  | NotOk _ parsed =>
      let error := match parsed with
                   | Some body => body
                   | None => JObject [("error", JString "Request failed")]
                   end in
      match error with
      | JNull => Thrown (TypeError_null "error")
      | _ =>
          Thrown (or_else (property error "error")
                    (or_else (property error "detail") "Request failed"))
      end
  end.

(** The response of the [like] view as [fetch] delivers it: [ok] for a
    status from 200 to 299; the body is an object with the one entry. *)
Definition delivered (r : Ledger.Response) : Fetched (string * string) :=
  if (200 <=? Ledger.status_code r)%Z && (Ledger.status_code r <=? 299)%Z
  then Ok (inl (Ledger.body r))
  else NotOk (Ledger.status_code r)
         (Some (JObject [(fst (Ledger.body r), JString (snd (Ledger.body r)))])).

End Api.

(* ================================================================== *)
(** * Components: time labels, the feed, a like click                   *)
(* ================================================================== *)

Module Ui.

Local Open Scope string_scope.

(** What [timeAgo] shows. *)
Inductive Ago := JustNow | Minutes (n : Z) | Hours (n : Z) | Days (n : Z).

(** [timeAgo] of [Post] and of [CommentItem] (the two are the same
    text), on the time values of [new Date(dateString)] and of
    [new Date()], in milliseconds:
<<
      const seconds = Math.floor((now - date) / 1000);
      if (seconds < 60) return 'just now';
      if (seconds < 3600) return `${Math.floor(seconds / 60)}m ago`;
      if (seconds < 86400) return `${Math.floor(seconds / 3600)}h ago`;
      return `${Math.floor(seconds / 86400)}d ago`;
>> *)
Definition ago (date now : Z) : Ago :=
  let seconds := (now - date) / 1000 in
  if (seconds <? 60)%Z then JustNow
  else if (seconds <? 3600)%Z then Minutes (seconds / 60)
  else if (seconds <? 86400)%Z then Hours (seconds / 3600)
  else Days (seconds / 86400).

Definition label (a : Ago) : string :=
  match a with
  | JustNow => "just now"
  | Minutes n => Api.show n ++ "m ago"
  | Hours n => Api.show n ++ "h ago"
  | Days n => Api.show n ++ "d ago"
  end.

Definition timeAgo (date now : Z) : string := label (ago date now).

(** A post as the feed holds it; [None] in [pd_is_liked] is a response
    without that field. *)
Record PostData := {
  pd_id : Z;
  pd_content : string;
  pd_like_count : Z;
  pd_is_liked : option bool
}.

(** A page of the post list: [results] ([None] when the field is
    missing) and [next] ([None] for [null]). *)
Record Page := { results : option (list PostData); next : option string }.

(** [!!data.next] *)
Definition truthy (s : option string) : bool :=
  match s with
  | Some s => negb (String.eqb s "")
  | None => false
  end.

(** The [useState] cells of [Feed]. *)
Record Feed := {
  posts : list PostData;
  loading : bool;
  newPostContent : string;
  isSubmitting : bool;
  error : option string;
  page : Z;
  hasMore : bool
}.

(** The cells when the component is mounted. *)
Definition mounted : Feed :=
  {| posts := []; loading := true; newPostContent := ""; isSubmitting := false;
     error := None; page := 1; hasMore := true |}.

(** [fetchPosts(pageNum, append)], run to its end on the state [st];
    [getPosts] is how the server answers for a page number.  The
    result is [None] when the state update throws: [...data.results]
    with [results] missing.
<<
      try {
        const data = await getPosts(pageNum);
        if (append) { setPosts(prev => [...prev, ...data.results]); }
        else        { setPosts(data.results || []); }
        setHasMore(!!data.next);
      } catch (err) { console.error(...); }
      finally { setLoading(false); }
>> *)
Definition fetchPosts (getPosts : Z -> Api.Outcome Page) (pageNum : Z) (append : bool)
    (st : Feed) : option Feed :=
  match getPosts pageNum with
  | Api.Resolved data =>
      let shown :=
        if append then (fun more => (posts st ++ more)%list) <$> results data
        else Some (default [] (results data)) in
      (fun shown =>
         {| posts := shown; loading := false; newPostContent := newPostContent st;
            isSubmitting := isSubmitting st; error := error st; page := page st;
            hasMore := truthy (next data) |}) <$> shown
  | Api.Thrown _ =>
      Some {| posts := posts st; loading := false; newPostContent := newPostContent st;
              isSubmitting := isSubmitting st; error := error st; page := page st;
              hasMore := hasMore st |}
  end.

(** [setPage(nextPage)] *)
Definition setPage (nextPage : Z) (st : Feed) : Feed :=
  {| posts := posts st; loading := loading st; newPostContent := newPostContent st;
     isSubmitting := isSubmitting st; error := error st; page := nextPage;
     hasMore := hasMore st |}.

(** [setNewPostContent(text)] *)
Definition setNewPostContent (text : string) (st : Feed) : Feed :=
  {| posts := posts st; loading := loading st; newPostContent := text;
     isSubmitting := isSubmitting st; error := error st; page := page st;
     hasMore := hasMore st |}.

(** [loadMore] together with the answer to its request, for a press
    whose answer arrives before the next event.  The handler itself
    does not wait for [fetchPosts]; [press] and [settle] below take the
    press and the answer apart.
<<
      if (hasMore && !loading) {
        const nextPage = page + 1;
        setPage(nextPage);
        fetchPosts(nextPage, true);
      }
>> *)
Definition loadMore (getPosts : Z -> Api.Outcome Page) (st : Feed) : option Feed :=
  if hasMore st && negb (loading st) then
    let nextPage := page st + 1 in
    fetchPosts getPosts nextPage true (setPage nextPage st)
  else Some st.

(** [{ ...newPost, is_liked: false }] *)
Definition not_liked (p : PostData) : PostData :=
  {| pd_id := pd_id p; pd_content := pd_content p; pd_like_count := pd_like_count p;
     pd_is_liked := Some false |}.

(** [handleCreatePost], run to its end; [createPost] is how the server
    answers for a content.
<<
      if (!newPostContent.trim() || isSubmitting) return;
      setIsSubmitting(true);
      setError(null);
      try {
        const newPost = await createPost(newPostContent.trim());
        setPosts(prev => [{ ...newPost, is_liked: false }, ...prev]);
        setNewPostContent('');
      } catch (err) { setError(err.message); }
      finally { setIsSubmitting(false); }
>> *)
Definition handleCreatePost (createPost : string -> Api.Outcome PostData) (st : Feed)
    : Feed :=
  if String.eqb (Api.trim (newPostContent st)) "" || isSubmitting st then st
  else
    match createPost (Api.trim (newPostContent st)) with
    | Api.Resolved newPost =>
        {| posts := not_liked newPost :: posts st; loading := loading st;
           newPostContent := ""; isSubmitting := false; error := None;
           page := page st; hasMore := hasMore st |}
    | Api.Thrown message =>
        {| posts := posts st; loading := loading st;
           newPostContent := newPostContent st; isSubmitting := false;
           error := Some message; page := page st; hasMore := hasMore st |}
    end.

(** What happens to a mounted feed, each handler running to its end
    before the next event: typing into the text area, submitting the
    form, pressing Load More; the last two with the server's answers. *)
Inductive Event :=
| Typed (text : string)
| Submitted (createPost : string -> Api.Outcome PostData)
| LoadMore (getPosts : Z -> Api.Outcome Page).

Definition on_event (st : Feed) (e : Event) : option Feed :=
  match e with
  | Typed text => Some (setNewPostContent text st)
  | Submitted createPost => Some (handleCreatePost createPost st)
  | LoadMore getPosts => loadMore getPosts st
  end.

Fixpoint run (events : list Event) (st : Feed) : option Feed :=
  match events with
  | [] => Some st
  | e :: rest =>
      match on_event st e with
      | Some st' => run rest st'
      | None => None
      end
  end.

(** A feed with requests of [loadMore] in flight: the cells, the page
    numbers asked for and not yet answered, oldest first, and the page
    numbers whose answers have arrived, in the order of arrival. *)
Record Scrolling := { cells : Feed; pending : list Z; answered : list Z }.

(** What [loadMore] does in the press: the guard, [setPage], and the
    call of [fetchPosts], which it does not await.  [loading] is only
    ever set to [false], so a request in flight does not hold back the
    next press. *)
Definition press (s : Scrolling) : Scrolling :=
  if hasMore (cells s) && negb (loading (cells s)) then
    let nextPage := (page (cells s) + 1)%Z in
    {| cells := setPage nextPage (cells s);
       pending := (pending s ++ [nextPage])%list;
       answered := answered s |}
  else s.

(** The request in flight at position [i] settles: the rest of
    [fetchPosts(pageNum, true)] runs on the cells of that moment, as
    its updates are [setPosts(prev => ...)], [setHasMore] and
    [setLoading].  [None] when there is no such request, or when the
    state update throws. *)
Definition settle (getPosts : Z -> Api.Outcome Page) (i : nat) (s : Scrolling)
    : option Scrolling :=
  match pending s !! i with
  | Some pageNum =>
      (fun st => {| cells := st; pending := delete i (pending s);
                    answered := (answered s ++ [pageNum])%list |})
        <$> fetchPosts getPosts pageNum true (cells s)
  | None => None
  end.

(** A press of Load More, or the answer to the request in flight at a
    position. *)
Inductive Step := Press | Settle (i : nat).

Fixpoint steps (getPosts : Z -> Api.Outcome Page) (schedule : list Step) (s : Scrolling)
    : option Scrolling :=
  match schedule with
  | [] => Some s
  | Press :: rest => steps getPosts rest (press s)
  | Settle i :: rest =>
      match settle getPosts i s with
      | Some s' => steps getPosts rest s'
      | None => None
      end
  end.

(** The feed after the fetch of the mount effect ([fetchPosts()], page
    1, not appending; until it settles [loading] holds back every
    press) and then a schedule of presses and answers, against a server
    that answers a request for a page the same way whenever it is
    asked. *)
Definition scroll (getPosts : Z -> Api.Outcome Page) (schedule : list Step)
    : option Scrolling :=
  match fetchPosts getPosts 1 false mounted with
  | Some st => steps getPosts schedule {| cells := st; pending := []; answered := [] |}
  | None => None
  end.

(** The posts the answers for a list of pages bring, in that order;
    a rejected request brings none. *)
Definition received (getPosts : Z -> Api.Outcome Page) (pageNums : list Z)
    : list PostData :=
  concat (map (fun k => match getPosts k with
                        | Api.Resolved data => default [] (results data)
                        | Api.Thrown _ => []
                        end) pageNums).

(** What holds of a feed between the steps of a schedule. *)
Record scrolling (getPosts : Z -> Api.Outcome Page) (s : Scrolling) : Prop := {
  scr_posts : posts (cells s) = received getPosts (1 :: answered s);
  scr_pages : (answered s ++ pending s)%list ≡ₚ seqZ 2 (page (cells s) - 1);
  scr_page : (1 <= page (cells s))%Z;
  scr_loading : loading (cells s) = false;
  scr_more : forall k data,
    last (answered s) = Some k -> getPosts k = Api.Resolved data ->
    hasMore (cells s) = truthy (next data)
}.

(** How the promise of a call to the like view settles. *)
Definition settled (r : Ledger.Response) : Settled :=
  match Api.fetchAPI (Api.delivered r) with
  | Api.Resolved _ => Fulfilled
  | Api.Thrown _ => Rejected
  end.

(** A click on the like button of a post that the page shows as not
    liked, against the like table: [Post.handleLike] with the captured
    [isLiked] false, [likePost] answered by the [like] view at time
    [now].  Without a user the handler returns before any request. *)
Definition like_click (t : list PostLike) (user : option User) (post_id now : Z)
    (st : Frontend.LikeState) : list PostLike * Frontend.LikeState :=
  match user with
  | None => (t, st)
  | Some u =>
      let answer := Ledger.like t post_id (user_id u) now in
      (answer.2,
       Frontend.Post.handleLike post_id user false (fun _ => settled answer.1) st)
  end.

(** A feed with two posts, on page 1 of a server with three pages of
    two posts each. *)
Definition a_post (id : Z) : PostData :=
  {| pd_id := id; pd_content := "post"; pd_like_count := 0; pd_is_liked := None |}.

Definition three_pages (k : Z) : Page :=
  {| results := Some [a_post (2 * k - 1); a_post (2 * k)];
     next := if (k <? 3)%Z then Some "/api/posts/?page=next" else None |}.

End Ui.

(* ================================================================== *)
(** * The leaderboard query in SQL (EXPLAINER.md, for reference)        *)
(* ================================================================== *)

Module Sql.

(** [l JOIN r ON on]: the pairs of rows that match. *)
Definition JOIN {A B} (l : list A) (r : list B) (on : A -> B -> bool) : list (A * B) :=
  flat_map (fun a => map (pair a) (filter (fun b => on a b = true) r)) l.

(** [l LEFT JOIN r ON on]: the pairs that match, and a row of [l]
    without a match once, with NULL on the right. *)
Definition LEFT_JOIN {A B} (l : list A) (r : list B) (on : A -> B -> bool)
    : list (A * option B) :=
  flat_map
    (fun a =>
       match filter (fun b => on a b = true) r with
       | [] => [(a, None)]
       | matches => map (fun b => (a, Some b)) matches
       end) l.

Definition COALESCE (v : option Z) (d : Z) : Z := default d v.

(** [GROUP BY key] with [COUNT(id)], the [id] never NULL: one row per
    key with the number of its rows. *)
Definition GROUP_BY_COUNT (keys : list Z) : list (Z * Z) := Karma.group_count keys.

(** [NOW() - INTERVAL '24 hours'] *)
Definition cutoff (now : Z) : Z := now - Karma.timedelta_hours 24.

(** The CTE [post_karma]: rows of [(user_id, karma)].
<<
    SELECT p.author_id as user_id, COUNT(pl.id) * 5 as karma
    FROM feed_postlike pl JOIN feed_post p ON pl.post_id = p.id
    WHERE pl.created_at >= NOW() - INTERVAL '24 hours'
    GROUP BY p.author_id
>> *)
Definition post_karma (db : Karma.Database) (now : Z) : list (Z * Z) :=
  map (fun g => (fst g, snd g * 5))
    (GROUP_BY_COUNT
       (map (fun row => post_author (snd row))
          (filter (fun row => cutoff now <= pl_created_at (fst row))
             (JOIN (Karma.post_likes db) (Karma.posts db)
                (fun pl p => bool_decide (pl_post pl = post_id p)))))).

(** The CTE [comment_karma], with [COUNT(cl.id) * 1]. *)
Definition comment_karma (db : Karma.Database) (now : Z) : list (Z * Z) :=
  map (fun g => (fst g, snd g * 1))
    (GROUP_BY_COUNT
       (map (fun row => comment_author (snd row))
          (filter (fun row => cutoff now <= cl_created_at (fst row))
             (JOIN (Karma.comment_likes db) (Karma.comments db)
                (fun cl c => bool_decide (cl_comment cl = comment_id c)))))).

(** A row of the result: [u.id, u.username, total_karma]. *)
Record Row := { row_id : Z; row_username : string; total_karma : Z }.

(** [COALESCE(pk.karma, 0) + COALESCE(ck.karma, 0)] on a row of the
    two left joins. *)
Definition total (r : User * option (Z * Z) * option (Z * Z)) : Z :=
  COALESCE (snd <$> snd (fst r)) 0 + COALESCE (snd <$> snd r) 0.

(** The rows the query selects, before [ORDER BY] and [LIMIT]:
<<
    FROM auth_user u
    LEFT JOIN post_karma pk ON u.id = pk.user_id
    LEFT JOIN comment_karma ck ON u.id = ck.user_id
    WHERE COALESCE(pk.karma, 0) + COALESCE(ck.karma, 0) > 0
>> *)
Definition selected (auth_user : list User) (db : Karma.Database) (now : Z) : list Row :=
  map (fun r => {| row_id := user_id (fst (fst r));
                   row_username := username (fst (fst r));
                   total_karma := total r |})
    (filter (fun r => 0 < total r)
       (LEFT_JOIN
          (LEFT_JOIN auth_user (post_karma db now)
             (fun u pk => bool_decide (user_id u = fst pk)))
          (comment_karma db now)
          (fun r ck => bool_decide (user_id (fst r) = fst ck)))).

(** [ORDER BY total_karma DESC LIMIT 5]: the first five of the selected
    rows in an order that is descending by karma; the query does not
    say how rows of equal karma are ordered, so it has one answer for
    each such order. *)
Definition answers (auth_user : list User) (db : Karma.Database) (now : Z)
    (out : list Row) : Prop :=
  exists ordered,
    ordered ≡ₚ selected auth_user db now
    /\ StronglySorted (fun a b => total_karma b <= total_karma a) ordered
    /\ out = take 5 ordered.

(** One of the answers: rows of equal karma in the order of
    [auth_user]. *)
Definition query (auth_user : list User) (db : Karma.Database) (now : Z) : list Row :=
  take 5 (sort_by (fun a b => total_karma b <? total_karma a)
            (selected auth_user db now)).

(** What the schema guarantees: primary keys are unique, and the
    author of a post or of a comment is a user. *)
Definition schema (auth_user : list User) (db : Karma.Database) : Prop :=
  NoDup (user_id <$> auth_user)
  /\ NoDup (post_id <$> Karma.posts db)
  /\ NoDup (comment_id <$> Karma.comments db)
  /\ Forall (fun p => post_author p ∈ user_id <$> auth_user) (Karma.posts db)
  /\ Forall (fun c => comment_author c ∈ user_id <$> auth_user) (Karma.comments db).

(** The users of the karma scenario and of the tie. *)
Definition users : list User :=
  [{| user_id := 1; username := "alice" |}; {| user_id := 2; username := "bob" |};
   {| user_id := 3; username := "charlie" |}; {| user_id := 4; username := "diana" |};
   {| user_id := 5; username := "ethan" |}].

End Sql.

(* ================================================================== *)
(** * Frontend                                                          *)
(* ================================================================== *)

Section FrontendFacts.
Import Frontend.

Lemma toggle_settled (unlike like : Request) (u : User)
    (api : Request -> Settled) (st : LikeState) :
  match api (issued unlike like (isLiked st)) with
  | Rejected => toggle unlike like (Some u) (isLiked st) api st = st
  | Fulfilled =>
      likeCount (toggle unlike like (Some u) (isLiked st) api st)
        = (if isLiked st then likeCount st - 1 else likeCount st + 1)
      /\ isLiked (toggle unlike like (Some u) (isLiked st) api st) = negb (isLiked st)
  end.
Proof.
  unfold toggle, issued.
  destruct (isLiked st) eqn:E.
  - destruct (api unlike); simpl; auto.
  - destruct (api like); simpl; auto.
Qed.

Lemma toggle_logged_out (unlike like : Request) (rendered : bool)
    (api : Request -> Settled) (st : LikeState) :
  toggle unlike like None rendered api st = st.
Proof. reflexivity. Qed.

(** Items of a rendering carry the depth of their position, counted
    from the depth the list was rendered at. *)
Lemma item_at_render (user : option User) (pos : list nat) :
  forall (d : Z) (cs : list CommentData) (it : Rendered),
    item_at (map (renderCommentItem user d) cs) pos = Some it ->
    item_depth it = d + nesting pos
    /\ item_reply_button it = reply_guard user (item_depth it).
Proof.
  unfold nesting.
  induction pos as [|i rest IH]; intros d cs it H; [discriminate|].
  simpl in H. rewrite list_lookup_fmap in H.
  destruct (cs !! i) as [[cid replies]|]; simpl in H; [|discriminate].
  destruct rest as [|j rest'].
  - injection H as <-. simpl. split; [lia|reflexivity].
  - apply IH in H. destruct H as [Hd Hb]. split; [|exact Hb].
    rewrite Hd. simpl length. lia.
Qed.

Lemma reply_guard_spec (user : option User) (d : Z) :
  reply_guard user d = true <-> is_Some user /\ d < 5.
Proof.
  unfold reply_guard. destruct user as [u|].
  - rewrite Z.ltb_lt. split; [intros H; split; [eauto|exact H] | tauto].
  - split; [discriminate|]. intros [[u Hu] _]. discriminate.
Qed.

(** At depth 5 or more no event is ever available while the form is
    closed, so the form stays closed. *)
Lemma form_stays_closed (d : Z) (trace : list (option User * Event)) (final : bool) :
  5 <= d -> run_events d false trace = Some final ->
  trace = [] /\ final = false.
Proof.
  intros Hd H. destruct trace as [|[user e] rest].
  - injection H as <-. auto.
  - simpl in H.
    assert (Hg : reply_guard user d = false).
    { unfold reply_guard. destruct user; [|reflexivity]. apply Z.ltb_ge. exact Hd. }
    destruct e; simpl in H; rewrite ?Hg in H; discriminate.
Qed.

End FrontendFacts.

(** C9: in [handleLike] of a post and of a comment, run by a logged-in
    user on the state it was rendered from: when the request it issues
    is rejected, the like count and the liked flag stay as they were;
    when it is fulfilled, the count moves by exactly one (down for an
    unlike, up for a like) and the flag flips. *)
Theorem handleLike_settled (u : User) (api : Frontend.Request -> Settled)
    (st : Frontend.LikeState) (post_id comment_id : Z) :
  match api (Frontend.issued (Frontend.unlikePost post_id) (Frontend.likePost post_id)
               (Frontend.isLiked st)) with
  | Rejected =>
      Frontend.Post.handleLike post_id (Some u) (Frontend.isLiked st) api st = st
  | Fulfilled =>
      Frontend.likeCount
        (Frontend.Post.handleLike post_id (Some u) (Frontend.isLiked st) api st)
        = (if Frontend.isLiked st then Frontend.likeCount st - 1
           else Frontend.likeCount st + 1)
      /\ Frontend.isLiked
           (Frontend.Post.handleLike post_id (Some u) (Frontend.isLiked st) api st)
         = negb (Frontend.isLiked st)
  end
  /\
  match api (Frontend.issued (Frontend.unlikeComment comment_id)
               (Frontend.likeComment comment_id) (Frontend.isLiked st)) with
  | Rejected =>
      Frontend.CommentItem.handleLike comment_id (Some u) (Frontend.isLiked st) api st = st
  | Fulfilled =>
      Frontend.likeCount
        (Frontend.CommentItem.handleLike comment_id (Some u) (Frontend.isLiked st) api st)
        = (if Frontend.isLiked st then Frontend.likeCount st - 1
           else Frontend.likeCount st + 1)
      /\ Frontend.isLiked
           (Frontend.CommentItem.handleLike comment_id (Some u) (Frontend.isLiked st) api st)
         = negb (Frontend.isLiked st)
  end.
Proof.
  split.
  - apply toggle_settled.
  - apply toggle_settled.
Qed.

(** C10: every item of a rendered comment list has as [depth] the number
    of nesting steps that lead to it (0 at the top, one more per level);
    its Reply button is on the page exactly when a user is logged in and
    that depth is below 5; and at depth 5 or more no sequence of
    available events opens the reply form or submits a reply. *)
Theorem reply_control_depth_cap (user : option User)
    (comments : list Frontend.CommentData) (pos : list nat) (it : Frontend.Rendered) :
  Frontend.item_at (Frontend.CommentList user comments) pos = Some it ->
  Frontend.item_depth it = Frontend.nesting pos
  /\ (Frontend.item_reply_button it = true <-> is_Some user /\ Frontend.item_depth it < 5)
  /\ (forall trace final,
        5 <= Frontend.item_depth it ->
        Frontend.run_events (Frontend.item_depth it) false trace = Some final ->
        final = false /\ Frontend.submits trace = false).
Proof.
  intros H. apply item_at_render in H. destruct H as [Hd Hb].
  split; [lia|]. split.
  - rewrite Hb. apply reply_guard_spec.
  - intros trace final H5 Hrun.
    destruct (form_stays_closed _ _ _ H5 Hrun) as [-> ->]. auto.
Qed.

Lemma reply_control_depth_cap_witness :
  let deep :=
    Frontend.CommentJSON 1 [Frontend.CommentJSON 2 [Frontend.CommentJSON 3
      [Frontend.CommentJSON 4 [Frontend.CommentJSON 5 [Frontend.CommentJSON 6 []]]]]] in
  let it := Frontend.Item 6 5 false [] in
  Frontend.item_depth it = Frontend.nesting [0; 0; 0; 0; 0; 0]%nat
  /\ (Frontend.item_reply_button it = true <->
      is_Some (Some {| user_id := 1; username := "alice" |}) /\ Frontend.item_depth it < 5)
  /\ (forall trace final,
        5 <= Frontend.item_depth it ->
        Frontend.run_events (Frontend.item_depth it) false trace = Some final ->
        final = false /\ Frontend.submits trace = false).
Proof.
  intros deep it.
  apply (reply_control_depth_cap (Some {| user_id := 1; username := "alice" |})
           [deep] [0; 0; 0; 0; 0; 0]%nat it).
  reflexivity.
Defined.

(* ================================================================== *)
(** * Like ledger                                                       *)
(* ================================================================== *)

Section LedgerFacts.
Import Ledger.

Lemma records_absent (t : list PostLike) (p u : Z) :
  existsb (same_pair p u) t = false -> records t p u = 0%nat.
Proof.
  unfold records. induction t as [|r t IH]; simpl; [reflexivity|].
  intros H. apply orb_false_iff in H as [Hr Ht].
  rewrite filter_cons. destruct (decide (same_pair p u r = true)) as [E|_].
  - congruence.
  - auto.
Qed.

Lemma same_pair_eq (p u : Z) (r : PostLike) :
  same_pair p u r = true <-> (pl_post r, pl_user r) = (p, u).
Proof.
  unfold same_pair. rewrite andb_true_iff, !bool_decide_eq_true.
  split; [intros [-> ->]; reflexivity | intros [= -> ->]; auto].
Qed.

Lemma existsb_same_pair (t : list PostLike) (p u : Z) :
  existsb (same_pair p u) t = true <->
  (p, u) ∈ map (fun r => (pl_post r, pl_user r)) t.
Proof.
  rewrite existsb_exists, list_elem_of_fmap. split.
  - intros (r & Hin & Hr). apply same_pair_eq in Hr.
    exists r. split; [auto|]. by apply list_elem_of_In.
  - intros (r & Hr & Hin). exists r. split; [by apply list_elem_of_In|].
    by apply same_pair_eq.
Qed.

(** Under the constraint a pair has one row as soon as it has any. *)
Lemma records_present (t : list PostLike) (p u : Z) :
  unique_post_like t -> existsb (same_pair p u) t = true -> records t p u = 1%nat.
Proof.
  unfold unique_post_like, records.
  induction t as [|r t IH]; simpl; [discriminate|].
  intros Hnd H. apply NoDup_cons in Hnd as [Hnotin Hnd].
  rewrite filter_cons. destruct (decide (same_pair p u r = true)) as [E|E].
  - simpl. f_equal. apply records_absent.
    apply not_true_is_false. intros Hex. apply Hnotin.
    apply same_pair_eq in E. rewrite E. by apply existsb_same_pair.
  - apply not_true_is_false in E. rewrite E in H. simpl in H. auto.
Qed.

Lemma create_keeps_constraint (t t' : list PostLike) (r : PostLike) :
  unique_post_like t -> create t r = Inserted t' -> unique_post_like t'.
Proof.
  unfold create, unique_post_like.
  destruct (existsb _ t) eqn:E; [discriminate|]. intros Hnd [= <-].
  rewrite map_app. apply NoDup_app. split; [exact Hnd|]. split.
  - intros x Hx Hx'. apply list_elem_of_singleton in Hx'. subst x.
    apply existsb_same_pair in Hx. congruence.
  - apply NoDup_singleton.
Qed.

(** After [like] the pair is in the table, whatever the answer was. *)
Lemma like_present (t : list PostLike) (p u now : Z) :
  existsb (same_pair p u) (like t p u now).2 = true.
Proof.
  unfold like, create. simpl.
  destruct (existsb (same_pair p u) t) eqn:E; simpl; [exact E|].
  rewrite existsb_app. simpl. unfold same_pair at 2. simpl.
  rewrite !bool_decide_eq_true_2 by reflexivity. by rewrite orb_true_r.
Qed.

Lemma like_keeps_constraint (t : list PostLike) (p u now : Z) :
  unique_post_like t -> unique_post_like (like t p u now).2.
Proof.
  intros Hnd. unfold like.
  destruct (create t _) as [t'|] eqn:E; simpl; [|exact Hnd].
  eapply create_keeps_constraint; eauto.
Qed.

Lemma unlike_absent (t : list PostLike) (p u : Z) :
  existsb (same_pair p u) (unlike t p u).2 = false.
Proof.
  unfold unlike. destruct (existsb (same_pair p u) t) eqn:E; simpl; [|exact E].
  apply not_true_is_false. intros H. apply existsb_exists in H as (r & Hin & Hr).
  apply list_elem_of_In, list_elem_of_filter in Hin as [Hneg _].
  rewrite Hr in Hneg. exact Hneg.
Qed.

End LedgerFacts.

(** C3: on a table that satisfies the uniqueness constraint, for every
    post and user: a [like] that follows a [like] is answered "Already
    liked", leaves the table as it was, and the table holds exactly one
    row for the pair; after [like] and [unlike], a second [unlike]
    answers [NotLiked]. *)
Theorem like_like_unlike_unlike (t : list PostLike) (p u now1 now2 : Z) :
  Ledger.unique_post_like t ->
  let t1 := (Ledger.like t p u now1).2 in
  let second := Ledger.like t1 p u now2 in
  let t2 := (Ledger.unlike t1 p u).2 in
  second.1 = Ledger.AlreadyLiked
  /\ second.2 = t1
  /\ Ledger.records second.2 p u = 1%nat
  /\ (Ledger.unlike t1 p u).1 = Ledger.Unliked
  /\ (Ledger.unlike t2 p u).1 = Ledger.NotLiked
  /\ (Ledger.unlike t2 p u).2 = t2.
Proof.
  intros Hnd t1 second t2.
  assert (H1 : existsb (Ledger.same_pair p u) t1 = true) by apply like_present.
  assert (H2 : existsb (Ledger.same_pair p u) t2 = false) by apply unlike_absent.
  assert (Hs : second = (Ledger.AlreadyLiked, t1)).
  { unfold second, Ledger.like, Ledger.create. simpl. by rewrite H1. }
  rewrite Hs. simpl. repeat split.
  - apply records_present; [|exact H1]. by apply like_keeps_constraint.
  - unfold Ledger.unlike. by rewrite H1.
  - unfold Ledger.unlike. by rewrite H2.
  - unfold Ledger.unlike. by rewrite H2.
Qed.

Lemma like_like_unlike_unlike_witness :
  let t := [{| pl_post := 1; pl_user := 7; pl_created_at := 10 |}] in
  let t1 := (Ledger.like t 1 8 20).2 in
  let second := Ledger.like t1 1 8 30 in
  let t2 := (Ledger.unlike t1 1 8).2 in
  second.1 = Ledger.AlreadyLiked
  /\ second.2 = t1
  /\ Ledger.records second.2 1 8 = 1%nat
  /\ (Ledger.unlike t1 1 8).1 = Ledger.Unliked
  /\ (Ledger.unlike t2 1 8).1 = Ledger.NotLiked
  /\ (Ledger.unlike t2 1 8).2 = t2.
Proof.
  intros t.
  apply (like_like_unlike_unlike t 1 8 20 30).
  unfold Ledger.unique_post_like. simpl. apply NoDup_cons. split.
  - apply not_elem_of_nil.
  - apply NoDup_nil. exact I.
Defined.

(* ================================================================== *)
(** * Dictionaries in insertion order                                   *)
(* ================================================================== *)

Section DictFacts.
Implicit Types (d rows : list (Z * Z)) (k u v : Z).

Lemma dict_get_set d k v u default :
  dict_get (dict_set d k v) u default
  = if decide (k = u) then v else dict_get d u default.
Proof.
  induction d as [|[k' v'] d IH]; simpl.
  - destruct (decide (k = u)); reflexivity.
  - destruct (decide (k' = k)) as [->|Hne]; simpl.
    + destruct (decide (k = u)); reflexivity.
    + destruct (decide (k' = u)) as [->|Hne'].
      * destruct (decide (k = u)); congruence.
      * exact IH.
Qed.

Lemma dict_get_absent d u default : u ∉ d.*1 -> dict_get d u default = default.
Proof.
  induction d as [|[k' v'] d IH]; simpl; [reflexivity|].
  intros H. apply not_elem_of_cons in H as [Hne H].
  destruct (decide (k' = u)); [congruence|auto].
Qed.

(** A key that is set keeps its place when present and goes last
    when new. *)
Lemma dict_set_keys d k v :
  (dict_set d k v).*1 = if decide (k ∈ d.*1) then d.*1 else d.*1 ++ [k].
Proof.
  induction d as [|[k' v'] d IH]; cbn [dict_set].
  - destruct (decide (k ∈ [])) as [H|_]; [by apply elem_of_nil in H|reflexivity].
  - destruct (decide (k' = k)) as [->|Hne]; rewrite !fmap_cons; cbn [fst].
    + rewrite decide_True by apply list_elem_of_here. reflexivity.
    + rewrite IH. destruct (decide (k ∈ d.*1)) as [Hin|Hnin].
      * rewrite decide_True by (by apply list_elem_of_further). reflexivity.
      * rewrite decide_False; [reflexivity|].
        intros H. apply elem_of_cons in H as [->|H]; congruence.
Qed.

Lemma dict_set_NoDup d k v : NoDup d.*1 -> NoDup (dict_set d k v).*1.
Proof.
  intros H. rewrite dict_set_keys. destruct (decide (k ∈ d.*1)); [exact H|].
  apply NoDup_app. split; [exact H|]. split; [|apply NoDup_singleton].
  intros x Hx Hx'. apply list_elem_of_singleton in Hx'. congruence.
Qed.

Lemma dict_get_elem d k v default :
  NoDup d.*1 -> (k, v) ∈ d -> dict_get d k default = v.
Proof.
  induction d as [|[k' v'] d IH]; simpl; intros Hnd Hin.
  - by apply elem_of_nil in Hin.
  - apply NoDup_cons in Hnd as [Hnotin Hnd].
    apply elem_of_cons in Hin as [[= -> ->]|Hin].
    + by rewrite decide_True.
    + rewrite decide_False; [auto|]. intros ->. apply Hnotin.
      apply list_elem_of_fmap. by exists (k, v).
Qed.

Lemma dict_elem_get d k default : k ∈ d.*1 -> (k, dict_get d k default) ∈ d.
Proof.
  induction d as [|[k' v'] d IH]; simpl; intros Hin.
  - by apply elem_of_nil in Hin.
  - destruct (decide (k' = k)) as [->|Hne]; [apply list_elem_of_here|].
    apply list_elem_of_further, IH.
    apply elem_of_cons in Hin as [->|Hin]; [congruence|exact Hin].
Qed.

End DictFacts.

(* ================================================================== *)
(** * Stable sorting                                                    *)
(* ================================================================== *)

Section SortFacts.
Context {A : Type} (precedes : A -> A -> bool).

Lemma insert_by_Permutation (x : A) (l : list A) : insert_by precedes x l ≡ₚ x :: l.
Proof.
  induction l as [|y l IH]; simpl; [reflexivity|].
  destruct (precedes y x); [|reflexivity].
  rewrite IH. apply Permutation_swap.
Qed.

Lemma sort_by_Permutation (l : list A) : sort_by precedes l ≡ₚ l.
Proof.
  induction l as [|x l IH]; simpl; [reflexivity|].
  rewrite insert_by_Permutation. by rewrite IH.
Qed.

(** Elements none of which precedes another keep their order. *)
Section Stable.
Context (P : A -> Prop) `{!forall x, Decision (P x)}.
Hypothesis tie : forall x y, P x -> P y -> precedes y x = false.

Lemma insert_by_stable (x : A) (l : list A) :
  filter P (insert_by precedes x l) = filter P (x :: l).
Proof.
  induction l as [|y l IH]; simpl; [reflexivity|].
  destruct (precedes y x) eqn:E; [|reflexivity].
  rewrite (filter_cons P y), IH, !(filter_cons P x), (filter_cons P y).
  destruct (decide (P x)) as [Hx|Hx]; [|reflexivity].
  destruct (decide (P y)) as [Hy|Hy]; [|reflexivity].
  rewrite (tie x y Hx Hy) in E. discriminate.
Qed.

Lemma sort_by_stable (l : list A) : filter P (sort_by precedes l) = filter P l.
Proof.
  induction l as [|x l IH]; simpl; [reflexivity|].
  rewrite insert_by_stable, !filter_cons, IH. reflexivity.
Qed.
End Stable.

(** With a relation [R] that holds whenever [precedes] does, that is
    total together with it, and transitive, the output is sorted. *)
Section Sorted.
Context (R : A -> A -> Prop).
Hypothesis R_precedes : forall x y, precedes x y = true -> R x y.
Hypothesis R_total : forall x y, precedes y x = false -> R x y.

Lemma insert_by_Sorted (x : A) (l : list A) :
  Transitive R -> StronglySorted R l -> StronglySorted R (insert_by precedes x l).
Proof.
  intros HT. induction l as [|y l IH]; simpl; intros Hs.
  - repeat constructor.
  - apply StronglySorted_inv in Hs as [Hs Hall].
    destruct (precedes y x) eqn:E.
    + constructor; [auto|].
      rewrite insert_by_Permutation. constructor; auto.
    + constructor; [by constructor|]. constructor; [auto|].
      eapply Forall_impl; [exact Hall|]. intros z Hz. simpl in Hz.
      etransitivity; [|exact Hz]. auto.
Qed.

Lemma sort_by_Sorted (l : list A) :
  Transitive R -> StronglySorted R (sort_by precedes l).
Proof.
  intros HT. induction l as [|x l IH]; simpl; [constructor|].
  by apply insert_by_Sorted.
Qed.
End Sorted.

End SortFacts.

(* ================================================================== *)
(** * Karma leaderboard                                                 *)
(* ================================================================== *)

Section KarmaFacts.
Import Karma.
Implicit Types (d rows : list (Z * Z)) (keys : list Z) (k u v : Z).

(** Sum of the karma of the rows of user [u]. *)
Let total rows u : Z :=
  foldr (fun r acc => if decide (r.1 = u) then r.2 + acc else acc) 0 rows.

Lemma accumulate_cons d r rows :
  accumulate d (r :: rows)
  = accumulate (dict_set d r.1 (dict_get d r.1 0 + r.2)) rows.
Proof. reflexivity. Qed.

Lemma accumulate_get rows : forall d u,
  dict_get (accumulate d rows) u 0 = dict_get d u 0 + total rows u.
Proof.
  induction rows as [|r rows IH]; intros d u.
  - simpl. lia.
  - rewrite accumulate_cons, IH, dict_get_set. simpl.
    destruct (decide (r.1 = u)) as [->|]; lia.
Qed.

Lemma accumulate_NoDup rows : forall d, NoDup d.*1 -> NoDup (accumulate d rows).*1.
Proof.
  induction rows as [|r rows IH]; intros d Hd; [exact Hd|].
  rewrite accumulate_cons. apply IH, dict_set_NoDup, Hd.
Qed.

Lemma accumulate_elem_of rows : forall d u,
  u ∈ (accumulate d rows).*1 <-> u ∈ d.*1 \/ u ∈ rows.*1.
Proof.
  induction rows as [|r rows IH]; intros d u.
  - simpl. rewrite elem_of_nil. tauto.
  - rewrite accumulate_cons, IH, dict_set_keys, fmap_cons, elem_of_cons.
    destruct (decide (r.1 ∈ d.*1)) as [Hin|Hnin].
    + split; [tauto|]. intros [H|[->|H]]; auto.
    + rewrite elem_of_app, list_elem_of_singleton. tauto.
Qed.

Lemma filter_agree {X} (P Q : X -> Prop)
    `{!forall x, Decision (P x)} `{!forall x, Decision (Q x)} (l : list X) :
  (forall x, x ∈ l -> P x <-> Q x) -> filter P l = filter Q l.
Proof.
  induction l as [|x l IH]; intros Hag; [reflexivity|].
  rewrite !filter_cons, IH by (intros y Hy; apply Hag; by apply list_elem_of_further).
  pose proof (Hag x (list_elem_of_here x l)) as Hx.
  destruct (decide (P x)), (decide (Q x)); tauto.
Qed.

(** New keys are appended in the order of the rows. *)
Lemma accumulate_keys rows : forall d,
  NoDup rows.*1 ->
  (accumulate d rows).*1 = d.*1 ++ filter (fun k => k ∉ d.*1) rows.*1.
Proof.
  induction rows as [|r rows IH]; intros d Hnd.
  - simpl. by rewrite app_nil_r.
  - rewrite fmap_cons in Hnd. apply NoDup_cons in Hnd as [Hr Hnd].
    rewrite accumulate_cons, IH, dict_set_keys, fmap_cons, filter_cons by exact Hnd.
    destruct (decide (r.1 ∈ d.*1)) as [Hin|Hnin].
    + rewrite decide_False by tauto. reflexivity.
    + rewrite decide_True by exact Hnin. rewrite <- app_assoc. simpl.
      do 2 f_equal. apply filter_agree. intros x Hx.
      rewrite elem_of_app, list_elem_of_singleton.
      split; [tauto|]. intros H [H'| ->]; auto.
Qed.

Lemma total_NoDup rows u : NoDup rows.*1 -> total rows u = dict_get rows u 0.
Proof.
  induction rows as [|[k v] rows IH]; intros Hnd; [reflexivity|].
  rewrite fmap_cons in Hnd. apply NoDup_cons in Hnd as [Hk Hnd]. simpl in *.
  destruct (decide (k = u)) as [->|Hne]; [|auto].
  rewrite IH, dict_get_absent by auto. lia.
Qed.

Lemma group_count_accumulate keys :
  group_count keys = accumulate [] ((fun k => (k, 1)) <$> keys).
Proof. unfold group_count, accumulate. by rewrite foldl_fmap. Qed.

Lemma total_ones keys u :
  total ((fun k => (k, 1)) <$> keys) u = Z.of_nat (length (filter (fun k => k = u) keys)).
Proof.
  induction keys as [|k keys IH]; [reflexivity|].
  rewrite fmap_cons, filter_cons. simpl. rewrite IH.
  destruct (decide (k = u)); simpl length; lia.
Qed.

Lemma group_count_NoDup keys : NoDup (group_count keys).*1.
Proof. rewrite group_count_accumulate. apply accumulate_NoDup. constructor. Qed.

Lemma group_count_get keys u :
  dict_get (group_count keys) u 0 = Z.of_nat (length (filter (fun k => k = u) keys)).
Proof.
  rewrite group_count_accumulate, accumulate_get, total_ones. reflexivity.
Qed.

Lemma group_count_elem_of keys u : u ∈ (group_count keys).*1 <-> u ∈ keys.
Proof.
  rewrite group_count_accumulate, accumulate_elem_of, <- list_fmap_compose.
  simpl. rewrite elem_of_nil, list_fmap_id. tauto.
Qed.

Lemma scaled_keys (w : Z) d : ((fun row => (row.1, row.2 * w)) <$> d).*1 = d.*1.
Proof. rewrite <- list_fmap_compose. reflexivity. Qed.

Lemma scaled_get (w : Z) d u :
  dict_get ((fun row => (row.1, row.2 * w)) <$> d) u 0 = dict_get d u 0 * w.
Proof.
  induction d as [|[k v] d IH]; [reflexivity|].
  rewrite fmap_cons. simpl. destruct (decide (k = u)); auto.
Qed.

(** Counting a key among the joined keys of the filtered rows is
    counting the rows that pass the filter and join to that key. *)
Lemma count_joined {L} (P : L -> Prop) `{!forall l, Decision (P l)}
    (f : L -> option Z) (likes : list L) u :
  length (filter (fun k => k = u) (omap f (filter P likes)))
  = length (filter (fun l => P l /\ f l = Some u) likes).
Proof.
  induction likes as [|l likes IH]; [reflexivity|].
  rewrite (filter_cons P), (filter_cons (fun l => P l /\ f l = Some u)).
  destruct (decide (P l)) as [HP|HP].
  - simpl. destruct (f l) as [a|] eqn:E.
    + rewrite filter_cons. destruct (decide (a = u)) as [->|Hne].
      * rewrite decide_True by auto. simpl. f_equal. exact IH.
      * rewrite decide_False; [exact IH|]. intros [_ [= ?]]. congruence.
    + rewrite decide_False; [exact IH|]. intros [_ ?]. congruence.
  - rewrite decide_False by tauto. exact IH.
Qed.

Lemma count_pos keys u :
  u ∈ keys <-> 0 < Z.of_nat (length (filter (fun k => k = u) keys)).
Proof.
  split.
  - intros H. assert (Hin : u ∈ filter (fun k => k = u) keys)
      by (by apply list_elem_of_filter).
    destruct (filter _ keys); [by apply elem_of_nil in Hin|simpl; lia].
  - intros H. destruct (filter (fun k => k = u) keys) as [|x l] eqn:E; [simpl in H; lia|].
    assert (Hx : x ∈ filter (fun k => k = u) keys) by (rewrite E; apply list_elem_of_here).
    apply list_elem_of_filter in Hx as [-> Hx]. exact Hx.
Qed.

Variables (db : Database) (now : Z).

Lemma post_karma_NoDup cutoff : NoDup (post_karma db cutoff).*1.
Proof. unfold post_karma. rewrite scaled_keys. apply group_count_NoDup. Qed.

Lemma comment_karma_NoDup cutoff : NoDup (comment_karma db cutoff).*1.
Proof. apply group_count_NoDup. Qed.

Lemma post_karma_get u :
  dict_get (post_karma db (now - timedelta_hours 24)) u 0
  = post_likes_received db now u * 5.
Proof.
  unfold post_karma, post_likes_received.
  rewrite scaled_get, group_count_get, count_joined. reflexivity.
Qed.

Lemma comment_karma_get u :
  dict_get (comment_karma db (now - timedelta_hours 24)) u 0
  = comment_likes_received db now u.
Proof.
  unfold comment_karma, comment_likes_received.
  rewrite group_count_get, count_joined. reflexivity.
Qed.

Lemma karma_table_NoDup : NoDup (karma_table db now).*1.
Proof.
  unfold karma_table, karma_by_user. apply accumulate_NoDup, accumulate_NoDup.
  constructor.
Qed.

(** The dictionary holds, for each of its users, the weighted sum of
    the two counts. *)
Lemma karma_table_get u : dict_get (karma_table db now) u 0 = karma db now u.
Proof.
  unfold karma_table, karma_by_user, karma.
  rewrite !accumulate_get, !total_NoDup
    by (apply post_karma_NoDup || apply comment_karma_NoDup).
  rewrite post_karma_get, comment_karma_get. simpl. lia.
Qed.

(** Its users are those with positive karma. *)
Lemma karma_table_elem_of u : u ∈ (karma_table db now).*1 <-> 0 < karma db now u.
Proof.
  unfold karma_table, karma_by_user, karma.
  rewrite !accumulate_elem_of, elem_of_nil.
  unfold post_karma at 1. rewrite scaled_keys. unfold comment_karma at 1.
  rewrite !group_count_elem_of, !count_pos, !count_joined.
  fold (post_likes_received db now u). fold (comment_likes_received db now u).
  assert (0 <= post_likes_received db now u) by apply Nat2Z.is_nonneg.
  assert (0 <= comment_likes_received db now u) by apply Nat2Z.is_nonneg.
  lia.
Qed.

Lemma karma_table_entry u k :
  (u, k) ∈ karma_table db now <-> k = karma db now u /\ 0 < k.
Proof.
  split.
  - intros Hin.
    assert (Hk : k = karma db now u).
    { rewrite <- karma_table_get. symmetry.
      apply dict_get_elem; [apply karma_table_NoDup|exact Hin]. }
    split; [exact Hk|]. rewrite Hk. apply karma_table_elem_of.
    apply list_elem_of_fmap. by exists (u, k).
  - intros [-> Hpos]. rewrite <- karma_table_get.
    apply dict_elem_get, karma_table_elem_of. exact Hpos.
Qed.

Lemma sorted_reverse_descending items : descending (sorted_reverse items).
Proof.
  unfold descending, sorted_reverse. apply sort_by_Sorted.
  - intros x y H. apply Z.ltb_lt in H. lia.
  - intros x y H. apply Z.ltb_ge in H. lia.
  - intros x y z. lia.
Qed.

Lemma sorted_reverse_stable (k : Z) items :
  filter (fun x => x.2 = k) (sorted_reverse items) = filter (fun x => x.2 = k) items.
Proof.
  unfold sorted_reverse. apply sort_by_stable.
  intros x y Hx Hy. apply Z.ltb_ge. lia.
Qed.

Lemma get_unfold : get db now = take 5 (sorted_reverse (karma_table db now)).
Proof. reflexivity. Qed.

End KarmaFacts.

Section KarmaWindow.
Import Karma.

Lemma get_with_stale_post_like (db : Database) (now : Z) (l : PostLike) :
  pl_created_at l < now - timedelta_hours 24 ->
  get (with_post_like db l) now = get db now.
Proof.
  intros Hold. unfold get, post_karma, comment_karma, post__author, comment__author.
  simpl. rewrite filter_app, filter_cons_False, filter_nil, app_nil_r by lia.
  reflexivity.
Qed.

Lemma get_with_stale_comment_like (db : Database) (now : Z) (l : CommentLike) :
  cl_created_at l < now - timedelta_hours 24 ->
  get (with_comment_like db l) now = get db now.
Proof.
  intros Hold. unfold get, post_karma, comment_karma, post__author, comment__author.
  simpl. rewrite filter_app, filter_cons_False, filter_nil, app_nil_r by lia.
  reflexivity.
Qed.

Lemma take_descending (n : nat) (items : list (Z * Z)) :
  descending items -> descending (take n items).
Proof.
  unfold descending. intros H. rewrite <- (take_drop n items) in H.
  by apply StronglySorted_app_1_l in H.
Qed.

Lemma filter_take_prefix {X} (P : X -> Prop) `{!forall x, Decision (P x)}
    (n : nat) (l : list X) :
  filter P (take n l) `prefix_of` filter P l.
Proof.
  exists (filter P (drop n l)). by rewrite <- filter_app, take_drop.
Qed.

Lemma filter_all {X} (P : X -> Prop) `{!forall x, Decision (P x)} (l : list X) :
  (forall x, P x) -> filter P l = l.
Proof.
  intros HP. induction l as [|x l IH]; [reflexivity|].
  rewrite filter_cons_True, IH by apply HP. reflexivity.
Qed.

End KarmaWindow.

(** C4: the karma the leaderboard holds for a user is the number of
    post likes of the last 24 hours on that user's posts times 5 plus
    the number of comment likes of the last 24 hours on that user's
    comments times 1, and every entry it returns carries that number;
    three post likes and two comment likes inside the window give 17;
    a like made one second before the window opens changes nothing. *)
Theorem karma_is_weighted_window_count (db : Karma.Database) (now u : Z) :
  dict_get (Karma.karma_table db now) u 0
    = Karma.post_likes_received db now u * 5 + Karma.comment_likes_received db now u * 1
  /\ (forall k, (u, k) ∈ Karma.get db now ->
        k = Karma.post_likes_received db now u * 5
            + Karma.comment_likes_received db now u * 1)
  /\ Karma.post_likes_received Karma.scenario Karma.scenario_now 1 = 3
  /\ Karma.comment_likes_received Karma.scenario Karma.scenario_now 1 = 2
  /\ Karma.get Karma.scenario Karma.scenario_now = [(1, 17)]
  /\ (forall p v,
        Karma.get
          (Karma.with_post_like db
             {| pl_post := p; pl_user := v;
                pl_created_at := now - Karma.timedelta_hours 24 - Karma.one_second |})
          now
        = Karma.get db now)
  /\ (forall c v,
        Karma.get
          (Karma.with_comment_like db
             {| cl_comment := c; cl_user := v;
                cl_created_at := now - Karma.timedelta_hours 24 - Karma.one_second |})
          now
        = Karma.get db now).
Proof.
  split; [apply karma_table_get|].
  split.
  { intros k Hin. apply elem_of_take in Hin as (i & Hi & _).
    apply list_elem_of_lookup_2 in Hi.
    unfold Karma.sorted_reverse in Hi. rewrite sort_by_Permutation in Hi.
    apply karma_table_entry in Hi as [-> _]. reflexivity. }
  split; [reflexivity|]. split; [reflexivity|]. split; [reflexivity|].
  split.
  - intros p v. apply get_with_stale_post_like. simpl. unfold Karma.one_second. lia.
  - intros c v. apply get_with_stale_comment_like. simpl. unfold Karma.one_second. lia.
Qed.

(** C1, as stated, fails: with one like on a post of user 2 and five
    likes on a comment of user 1, both users have karma 5 and the view
    returns user 2 in front of user 1. *)
Lemma leaderboard_ties_not_by_user_id :
  Karma.get Karma.tie 100 = [(2, 5); (1, 5)]
  /\ ~ Karma.ranked_by_karma_then_id (Karma.get Karma.tie 100).
Proof.
  assert (E : Karma.get Karma.tie 100 = [(2, 5); (1, 5)]) by reflexivity.
  split; [exact E|]. rewrite E. unfold Karma.ranked_by_karma_then_id. intros H.
  apply StronglySorted_inv in H as [_ H]. apply Forall_cons in H as [H _].
  simpl in H. lia.
Qed.

(** C1, amended: the returned sequence is in descending order of karma,
    equal karma allowed; users of equal karma come in the order in which
    they entered [karma_by_user]; and that order is the authors of the
    post-karma rows in row order, followed by the authors that only the
    comment-karma rows bring, in row order. *)
Theorem leaderboard_order (db : Karma.Database) (now : Z) :
  Karma.descending (Karma.get db now)
  /\ (forall k,
        filter (fun x => x.2 = k) (Karma.get db now)
        `prefix_of` filter (fun x => x.2 = k) (Karma.karma_table db now))
  /\ (Karma.karma_table db now).*1
     = (Karma.post_karma db (now - Karma.timedelta_hours 24)).*1
       ++ filter (fun u => u ∉ (Karma.post_karma db (now - Karma.timedelta_hours 24)).*1)
            (Karma.comment_karma db (now - Karma.timedelta_hours 24)).*1.
Proof.
  split; [|split].
  - apply take_descending, sorted_reverse_descending.
  - intros k. rewrite <- (sorted_reverse_stable k (Karma.karma_table db now)).
    apply filter_take_prefix.
  - unfold Karma.karma_table, Karma.karma_by_user.
    rewrite (accumulate_keys _ _ (comment_karma_NoDup db _)).
    rewrite (accumulate_keys _ _ (post_karma_NoDup db _)).
    simpl. rewrite (filter_all (fun k => k ∉ [])) by (intros x; apply not_elem_of_nil).
    reflexivity.
Qed.

(** C7: a user whose karma in the window is 0 is not in the result; the
    result is the first five entries of the full ranking; and the full
    ranking lists, in descending order of karma and once each, exactly
    the users with positive karma, each with all of it. *)
Theorem leaderboard_positive_then_truncated (db : Karma.Database) (now : Z) :
  (forall u, Karma.karma db now u = 0 -> u ∉ (Karma.get db now).*1)
  /\ Karma.get db now = take 5 (Karma.ranking db now)
  /\ Karma.descending (Karma.ranking db now)
  /\ NoDup (Karma.ranking db now).*1
  /\ (forall u k, (u, k) ∈ Karma.ranking db now <-> k = Karma.karma db now u /\ 0 < k).
Proof.
  assert (Hperm : Karma.ranking db now ≡ₚ Karma.karma_table db now)
    by apply sort_by_Permutation.
  split; [|split; [reflexivity|split; [apply sorted_reverse_descending|split]]].
  - intros u Hz Hin. apply list_elem_of_fmap in Hin as ([u' k] & -> & Hin).
    apply elem_of_take in Hin as (i & Hi & _). apply list_elem_of_lookup_2 in Hi.
    fold (Karma.ranking db now) in Hi. rewrite Hperm in Hi.
    apply karma_table_entry in Hi as [-> Hpos]. simpl in Hz. lia.
  - rewrite Hperm. apply karma_table_NoDup.
  - intros u k. rewrite Hperm. apply karma_table_entry.
Qed.

(* ================================================================== *)
(** * Order of strings                                                  *)
(* ================================================================== *)

Section StringOrder.
Local Open Scope string_scope.

Lemma ascii_compare_refl (a : ascii) : Ascii.compare a a = Eq.
Proof. unfold Ascii.compare. apply N.compare_refl. Qed.


Lemma string_compare_refl (s : string) : String.compare s s = Eq.
Proof.
  induction s as [|a s IH]; [reflexivity|]. simpl.
  by rewrite ascii_compare_refl.
Qed.






End StringOrder.

(* ================================================================== *)
(** * Stored paths and the allocator                                    *)
(* ================================================================== *)

Section PathFacts.
Import Paths.
Local Open Scope string_scope.
Local Open Scope N_scope.















End PathFacts.

Section AllocatorFacts.
Import Paths.
Local Open Scope N_scope.

Lemma max_segment_ge (used : list N) (k : N) : k ∈ used -> k <= max_segment used.
Proof.
  induction used as [|x used IH]; intros H; [by apply elem_of_nil in H|].
  simpl. apply elem_of_cons in H as [->|H]; [lia|]. specialize (IH H). lia.
Qed.

Lemma max_segment_elem_of (used : list N) : used <> [] -> max_segment used ∈ used.
Proof.
  induction used as [|x used IH]; intros H; [congruence|]. simpl.
  destruct used as [|y used].
  - simpl. rewrite N.max_0_r. apply list_elem_of_here.
  - destruct (N.max_spec x (max_segment (y :: used))) as [[_ ->]|[_ ->]].
    + apply list_elem_of_further, IH. discriminate.
    + apply list_elem_of_here.
Qed.

Lemma child_segment_Some (parent p : list N) (k : N) :
  child_segment parent p = Some k <-> p = parent ++ [k].
Proof.
  unfold child_segment. split.
  - destruct (bool_decide (take (length parent) p = parent)) eqn:E; [|discriminate].
    apply bool_decide_eq_true in E.
    destruct (drop (length parent) p) as [|x [|y r]] eqn:D; try discriminate.
    intros [= ->]. by rewrite <- (take_drop (length parent) p), E, D.
  - intros ->. rewrite take_app_length, bool_decide_eq_true_2 by reflexivity.
    by rewrite drop_app_length.
Qed.

Lemma sibling_segments_root (existing : list (list N)) (k : N) :
  k ∈ sibling_segments None existing <-> exists rest, k :: rest ∈ existing.
Proof.
  simpl. rewrite list_elem_of_omap. split.
  - intros ([|x rest] & Hin & Hhd); [discriminate|]. injection Hhd as ->. eauto.
  - intros [rest Hin]. by exists (k :: rest).
Qed.

Lemma sibling_segments_child (parent : list N) (existing : list (list N)) (k : N) :
  k ∈ sibling_segments (Some parent) existing <-> parent ++ [k] ∈ existing.
Proof.
  simpl. rewrite list_elem_of_omap. split.
  - intros (p & Hin & Hk). apply child_segment_Some in Hk as ->. exact Hin.
  - intros Hin. exists (parent ++ [k]). split; [exact Hin|].
    by apply child_segment_Some.
Qed.

End AllocatorFacts.



(** C8: a new root comment gets the single segment [s] as its path and a
    reply gets its parent's path followed by [s], where [s] is 1 when the
    sibling group (the first segments in use for the post, or the last
    segments of the parent's direct children) is empty and otherwise one
    more than the largest member of the group; the stored depth is the
    length of the path minus 1; and the new path is not among the
    existing ones. *)
Theorem allocate_next_segment (parentPath : option (list N)) (existing : list (list N)) :
  let used := Paths.sibling_segments parentPath existing in
  let new := Paths.createComment parentPath existing in
  (exists s : N,
      new.1 = match parentPath with
              | None => [s]
              | Some parent => parent ++ [s]
              end
      /\ (used = [] -> s = 1%N)
      /\ (used <> [] ->
          exists m : N, m ∈ used /\ (forall k, k ∈ used -> (k <= m)%N) /\ s = (m + 1)%N))
  /\ (forall k : N,
        k ∈ used <->
        match parentPath with
        | None => exists rest, k :: rest ∈ existing
        | Some parent => parent ++ [k] ∈ existing
        end)
  /\ new.2 = Z.of_nat (length new.1) - 1
  /\ new.1 ∉ existing.
Proof.
  intros used new.
  assert (Hused : forall k : N,
             k ∈ used <->
             match parentPath with
             | None => exists rest, k :: rest ∈ existing
             | Some parent => parent ++ [k] ∈ existing
             end).
  { intros k. unfold used. destruct parentPath as [parent|].
    - apply sibling_segments_child.
    - apply sibling_segments_root. }
  split; [|split; [exact Hused|split; [reflexivity|]]].
  - exists (Paths.max_segment used + 1)%N. split; [|split].
    + unfold new, Paths.createComment, Paths.allocate. simpl.
      by destruct parentPath.
    + intros ->. reflexivity.
    + intros Hne. exists (Paths.max_segment used).
      split; [by apply max_segment_elem_of|]. split; [|reflexivity].
      intros k. apply max_segment_ge.
  - intros Hin.
    assert (Hs : (Paths.max_segment used + 1)%N ∈ used).
    { apply Hused. unfold new, Paths.createComment, Paths.allocate in Hin.
      simpl in Hin. fold used in Hin. destruct parentPath as [parent|]; eauto. }
    apply max_segment_ge in Hs. lia.
Qed.

(* ================================================================== *)
(** * Stored paths as strings                                           *)
(* ================================================================== *)

Section PathStrings.
Import Tree.
Local Open Scope string_scope.

Lemma app_String (a : ascii) (s t : string) : String a s ++ t = String a (s ++ t).
Proof. reflexivity. Qed.

Lemma strip_prefix_spec (q : string) : forall x r,
  strip_prefix q x = Some r <-> x = q ++ r.
Proof.
  induction q as [|a q IH]; intros x r.
  - simpl. split; [intros [= ->]; reflexivity|intros ->; reflexivity].
  - rewrite app_String. destruct x as [|b x]; simpl; [split; discriminate|].
    destruct (Ascii.eqb_spec a b) as [->|Hne].
    + rewrite IH. split; [intros ->; reflexivity|intros [= ->]; reflexivity].
    + split; [discriminate|]. intros [= ? ?]. congruence.
Qed.

Lemma extends_spec (q x : string) :
  extends q x = true <-> exists seg, is_segment seg = true /\ x = q ++ String "." seg.
Proof.
  unfold extends. split.
  - destruct (strip_prefix q x) as [[|a seg]|] eqn:E; try discriminate.
    destruct (Ascii.eqb_spec a ".") as [->|Hne].
    + intros Hseg. exists seg. split; [exact Hseg|].
      by apply strip_prefix_spec in E.
    + destruct a as [[] [] [] [] [] [] [] []]; try discriminate. congruence.
  - intros (seg & Hseg & ->).
    rewrite (proj2 (strip_prefix_spec q _ (String "." seg)) eq_refl). exact Hseg.
Qed.

Lemma is_segment_digits (s : string) : is_segment s = true -> all_digits s = true.
Proof. by destruct s. Qed.

Lemma all_digits_app (s t : string) :
  all_digits (s ++ t) = all_digits s && all_digits t.
Proof.
  induction s as [|a s IH]; [reflexivity|].
  rewrite app_String. simpl. rewrite IH. by rewrite andb_assoc.
Qed.

Lemma path_chars_app (s t : string) :
  path_chars (s ++ t) = path_chars s && path_chars t.
Proof.
  induction s as [|a s IH]; [reflexivity|].
  rewrite app_String. simpl. rewrite IH. by rewrite andb_assoc.
Qed.

Lemma all_digits_path_chars (s : string) : all_digits s = true -> path_chars s = true.
Proof.
  induction s as [|a s IH]; [reflexivity|]. simpl.
  intros H. apply andb_true_iff in H as [-> H]. simpl. auto.
Qed.

(** A run of digits has no dot in it. *)
Lemma all_digits_no_dot (s t : string) : all_digits (s ++ String "." t) = false.
Proof. rewrite all_digits_app. simpl. apply andb_false_r. Qed.

Lemma extends_path_chars (q x : string) :
  extends q x = true -> path_chars q = true -> path_chars x = true.
Proof.
  intros (seg & Hseg & ->)%extends_spec Hq.
  rewrite path_chars_app, Hq. simpl.
  by apply all_digits_path_chars, is_segment_digits.
Qed.

Lemma string_compare_prefix (q r : string) :
  r <> "" -> String.compare q (q ++ r) = Lt.
Proof.
  intros Hr. induction q as [|a q IH].
  - destruct r; [congruence|reflexivity].
  - rewrite app_String. simpl. by rewrite ascii_compare_refl.
Qed.

Lemma extends_lt (q x : string) : extends q x = true -> String.ltb q x = true.
Proof.
  intros (seg & _ & ->)%extends_spec. unfold String.ltb.
  rewrite string_compare_prefix; [reflexivity|discriminate].
Qed.

Lemma ltb_irrefl (s : string) : String.ltb s s = false.
Proof. unfold String.ltb. by rewrite string_compare_refl. Qed.

Lemma ltb_asym (s t : string) : String.ltb s t = true -> String.ltb t s = false.
Proof.
  unfold String.ltb. rewrite (String.compare_antisym t s).
  by destruct (String.compare s t).
Qed.

Lemma digit_after_dot (a : ascii) : is_digit a = true -> Ascii.compare a "." = Gt.
Proof.
  unfold is_digit, Ascii.compare. intros H. apply andb_true_iff in H as [H _].
  apply N.leb_le in H. apply N.compare_gt_iff. simpl. lia.
Qed.

(** A path between [q] and an extension of [q] starts with [q] and,
    unless it is [q], goes on with a dot. *)
Lemma between_dotted (q : string) : forall x s,
  path_chars x = true ->
  q = x \/ String.ltb q x = true ->
  String.ltb x (q ++ String "." s) = true ->
  dotted q x.
Proof.
  unfold String.ltb, dotted. induction q as [|b q IH]; intros x s Hx Hqx Hlt.
  - destruct x as [|a x]; [by left|]. right. exists x.
    simpl in Hx. apply andb_true_iff in Hx as [Ha _].
    apply orb_true_iff in Ha as [Ha|Ha].
    + simpl in Hlt. by rewrite (digit_after_dot a Ha) in Hlt.
    + apply Ascii.eqb_eq in Ha as ->. reflexivity.
  - destruct x as [|a x]; [by destruct Hqx|].
    rewrite app_String in Hlt. simpl in Hlt, Hx.
    apply andb_true_iff in Hx as [_ Hx].
    assert (Hab : a = b /\ (q = x \/ match String.compare q x with Lt => true | _ => false end = true)).
    { destruct Hqx as [[= -> ->]|Hqx]; [auto|]. simpl in Hqx.
      rewrite (Ascii.compare_antisym b a) in Hqx.
      destruct (Ascii.compare a b) eqn:E; simpl in Hqx, Hlt; try discriminate.
      apply Ascii.compare_eq_iff in E. auto. }
    destruct Hab as [-> Hqx']. rewrite ascii_compare_refl in Hlt.
    destruct (IH x s Hx Hqx' Hlt) as [->|[r ->]]; [by left|].
    right. exists r. reflexivity.
Qed.

(** Two ways of cutting a string at a dot, the second in front of its
    last segment. *)
Lemma dotted_split (q : string) : forall y r seg,
  all_digits seg = true ->
  q ++ String "." r = y ++ String "." seg ->
  dotted q y.
Proof.
  unfold dotted. induction q as [|a q IH]; intros y r seg Hseg E.
  - destruct y as [|b y]; [by left|].
    rewrite app_String in E. injection E as <- ->. right. by exists y.
  - destruct y as [|b y].
    + rewrite app_String in E. injection E as -> <-.
      by rewrite all_digits_no_dot in Hseg.
    + rewrite !app_String in E. injection E as -> E.
      destruct (IH y r seg Hseg E) as [->|[r' ->]]; [by left|].
      right. by exists r'.
Qed.

Lemma dotted_segment (q x : string) : is_segment x = true -> dotted q x -> x = q.
Proof.
  intros Hseg [->|[r ->]]; [reflexivity|].
  apply is_segment_digits in Hseg. by rewrite all_digits_no_dot in Hseg.
Qed.

(** A path that the deepest path of a chain starts with, up to a dot,
    is on the chain. *)
Lemma path_chain_find (q : string) (l : list string) : forall x,
  path_chain (x :: l) -> dotted q x ->
  exists l1 l2, x :: l = (l1 ++ q :: l2)%list /\ path_chain (q :: l2).
Proof.
  induction l as [|y l IH]; intros x Hch Hd.
  - destruct Hch as [Hseg _]. pose proof (dotted_segment q x Hseg Hd) as ->.
    exists [], []. split; [reflexivity|]. simpl. auto.
  - destruct Hd as [->|[r ->]].
    + exists [], (y :: l). auto.
    + destruct Hch as [Hext Hch].
      apply extends_spec in Hext as (seg & Hseg & E).
      apply is_segment_digits in Hseg.
      destruct (IH y Hch (dotted_split q y r seg Hseg E)) as (l1 & l2 & El & Hq).
      exists ((q ++ String "." r) :: l1), l2. split; [|exact Hq].
      rewrite El. reflexivity.
Qed.

End PathStrings.

(* ================================================================== *)
(** * Tree reconstruction                                               *)
(* ================================================================== *)

Section TreeFacts.
Import Tree.

(** Induction on a node with the hypothesis for all nested nodes. *)
Lemma CommentNode_nested_ind (P : CommentNode -> Prop) :
  (forall a c kids, Forall P kids -> P (Reified a c kids)) -> forall t, P t.
Proof.
  intros Hstep. fix IH 1. intros [a c kids]. apply Hstep.
  induction kids as [|k kids IHk]; constructor; [apply IH|exact IHk].
Qed.

Lemma loop_app (pre suf : list Comment) : forall st,
  loop st (pre ++ suf)
  = match loop st pre with
    | Return st' => loop st' suf
    | KeyError k => KeyError k
    end.
Proof.
  induction pre as [|c pre IH]; intros st; [reflexivity|]. simpl.
  destruct (visit st c); [apply IH|reflexivity].
Qed.

(** ** The orphan case *)

Lemma visit_dict (st st' : State) (c : Comment) :
  visit st c = Return st' ->
  comment_dict st' = <[comment_id c := length (heap st)]> (comment_dict st).
Proof.
  unfold visit. destruct (parent_id c) as [pid|].
  - destruct (_ !! pid); [|discriminate]. by intros [= <-].
  - by intros [= <-].
Qed.

Lemma loop_orphan (cs : list Comment) : forall st c pid,
  c ∈ cs -> parent_id c = Some pid -> pid ∉ map comment_id cs ->
  comment_dict st !! pid = None ->
  exists k, loop st cs = KeyError k.
Proof.
  induction cs as [|x cs IH]; intros st c pid Hin Hp Hpid Hst.
  - by apply elem_of_nil in Hin.
  - rewrite fmap_cons in Hpid. apply not_elem_of_cons in Hpid as [Hne Hpid].
    simpl. destruct (visit st x) as [st'|k] eqn:Ev; [|by exists k].
    assert (Hst' : comment_dict st' !! pid = None).
    { rewrite (visit_dict _ _ _ Ev), lookup_insert_ne by congruence. exact Hst. }
    apply elem_of_cons in Hin as [->|Hin]; [|by eapply IH].
    unfold visit in Ev. rewrite Hp in Ev.
    rewrite lookup_insert_ne, Hst in Ev by congruence. discriminate.
Qed.

(** ** Reading values out of the heap *)

Lemma reify_S (n : nat) (h : list Node) (a : nat) :
  reify (S n) h a
  = match h !! a with
    | None => None
    | Some nd =>
        match mapM (reify n h) (replies nd) with
        | None => None
        | Some kids => Some (Reified a (data nd) kids)
        end
    end.
Proof. reflexivity. Qed.

Lemma mapM_transport {X Y} (f g : X -> option Y) (phi : Y -> Y) (l : list X) (k : list Y) :
  (forall x y, f x = Some y -> g x = Some (phi y)) ->
  mapM f l = Some k -> mapM g l = Some (phi <$> k).
Proof.
  intros Hfg H. apply mapM_Some in H. apply mapM_Some.
  apply Forall2_fmap_r. eapply Forall2_impl; [exact H|]. exact Hfg.
Qed.

Lemma mapM_snoc {X Y} (f : X -> option Y) (l : list X) (x : X) (k : list Y) (y : Y) :
  mapM f l = Some k -> f x = Some y -> mapM f (l ++ [x]) = Some (k ++ [y]).
Proof.
  intros Hl Hx. apply mapM_Some. apply mapM_Some in Hl.
  apply Forall2_app; [exact Hl|]. by constructor.
Qed.

Lemma attach_Reified (p : nat) (new : CommentNode) a c kids :
  attach p new (Reified a c kids)
  = Reified a c ((attach p new <$> kids) ++ (if decide (a = p) then [new] else [])).
Proof. reflexivity. Qed.

(** A new dictionary leaves the values of the old ones as they are. *)
Lemma reify_extend (nd : Node) (h : list Node) (n : nat) : forall x T,
  reify n h x = Some T -> reify (S n) (h ++ [nd]) x = Some T.
Proof.
  induction n as [|n IH]; intros x T H; [discriminate|].
  rewrite reify_S in H. rewrite reify_S.
  destruct (h !! x) as [old|] eqn:Ex; [|discriminate].
  rewrite (lookup_app_l_Some _ _ _ _ Ex).
  destruct (mapM (reify n h) (replies old)) as [kids|] eqn:Ek; [|discriminate].
  injection H as <-.
  rewrite (mapM_transport _ (reify (S n) (h ++ [nd])) (fun y => y) _ _ IH Ek).
  by rewrite list_fmap_id.
Qed.

(** Appending the new dictionary to the replies of dictionary [p]
    attaches its value wherever [p] occurs. *)
Lemma reify_attach (c : Comment) (h : list Node) (p : nat) (n : nat) :
  (p < length h)%nat ->
  forall x T,
    reify n h x = Some T ->
    reify (S n) (alter (append_reply (length h)) p (h ++ [serialize c])) x
    = Some (attach p (Reified (length h) c []) T).
Proof.
  intros Hp. set (h' := alter (append_reply (length h)) p (h ++ [serialize c])).
  assert (Hnew : forall m, reify (S m) h' (length h) = Some (Reified (length h) c [])).
  { intros m. rewrite reify_S. unfold h'.
    rewrite list_lookup_alter_ne, list_lookup_middle by (reflexivity || lia).
    reflexivity. }
  induction n as [|n IH]; intros x T H; [discriminate|].
  rewrite reify_S in H. rewrite reify_S.
  destruct (h !! x) as [old|] eqn:Ex; [|discriminate].
  destruct (mapM (reify n h) (replies old)) as [kids|] eqn:Ek; [|discriminate].
  injection H as <-.
  pose proof (mapM_transport _ (reify (S n) h') _ _ _ IH Ek) as Hkids.
  rewrite attach_Reified. destruct (decide (x = p)) as [->|Hne].
  - unfold h' at 1. rewrite list_lookup_alter_eq, (lookup_app_l_Some _ _ _ _ Ex).
    change (append_reply (length h) <$> Some old)
      with (Some (append_reply (length h) old)).
    cbn [replies data append_reply].
    rewrite (mapM_snoc _ _ _ _ _ Hkids (Hnew n)). reflexivity.
  - unfold h' at 1.
    rewrite list_lookup_alter_ne, (lookup_app_l_Some _ _ _ _ Ex) by congruence.
    rewrite Hkids, app_nil_r. reflexivity.
Qed.

(** ** Values *)

Lemma entries_forest_app (f g : list CommentNode) :
  entries_forest (f ++ g) = entries_forest f ++ entries_forest g.
Proof. unfold entries_forest. by rewrite fmap_app, concat_app. Qed.

Lemma entries_forest_cons (t : CommentNode) (f : list CommentNode) :
  entries_forest (t :: f) = entries t ++ entries_forest f.
Proof. reflexivity. Qed.

Lemma entries_forest_singleton (t : CommentNode) : entries_forest [t] = entries t.
Proof. unfold entries_forest. simpl. apply app_nil_r. Qed.

Lemma entries_Reified a c kids :
  entries (Reified a c kids) = (a, c) :: entries_forest kids.
Proof. reflexivity. Qed.

Lemma flatten_entries (t : CommentNode) : flatten t = (entries t).*2.
Proof.
  induction t as [a c kids IH] using CommentNode_nested_ind.
  simpl. f_equal. induction IH as [|k kids Hk _ IHkids]; [reflexivity|].
  simpl. rewrite fmap_app, Hk. f_equal. exact IHkids.
Qed.

Lemma flatten_forest_entries (f : list CommentNode) :
  flatten_forest f = (entries_forest f).*2.
Proof.
  unfold flatten_forest, entries_forest.
  induction f as [|t f IH]; [reflexivity|]. simpl.
  by rewrite fmap_app, flatten_entries, IH.
Qed.

Lemma attach_absent (p : nat) (new t : CommentNode) :
  p ∉ (entries t).*1 -> attach p new t = t.
Proof.
  induction t as [a c kids IH] using CommentNode_nested_ind.
  rewrite entries_Reified, fmap_cons. intros H.
  apply not_elem_of_cons in H as [Hne H]. rewrite attach_Reified.
  rewrite decide_False, app_nil_r by (intros ->; by apply Hne). f_equal.
  induction IH as [|k kids Hk _ IHkids]; [reflexivity|].
  rewrite entries_forest_cons, fmap_app in H.
  apply not_elem_of_app in H as [H1 H2]. rewrite fmap_cons. f_equal; auto.
Qed.

Lemma attach_absent_forest (p : nat) (new : CommentNode) (f : list CommentNode) :
  p ∉ (entries_forest f).*1 -> attach p new <$> f = f.
Proof.
  induction f as [|t f IH]; [reflexivity|].
  rewrite entries_forest_cons, fmap_app.
  intros H. apply not_elem_of_app in H as [H1 H2].
  rewrite fmap_cons, attach_absent, IH by assumption. reflexivity.
Qed.

Lemma is_spine_entries (f : list CommentNode) (sp : list (nat * Comment)) :
  is_spine f sp -> forall e, e ∈ sp -> e ∈ entries_forest f.
Proof.
  induction 1 as [|f a c kids sp _ IH]; intros e He; [by apply elem_of_nil in He|].
  rewrite entries_forest_app, entries_forest_singleton, entries_Reified.
  apply elem_of_app. right. apply elem_of_cons in He as [->|He].
  - apply list_elem_of_here.
  - apply list_elem_of_further, IH, He.
Qed.

(** Attaching a leaf under a node of the rightmost branch puts it last
    in pre-order and makes it the end of the rightmost branch. *)
Lemma attach_on_spine (k : nat) (c : Comment) (i : nat) (ci : Comment)
    (sp1 : list (nat * Comment)) : forall f sp2,
  is_spine f (sp1 ++ (i, ci) :: sp2) ->
  NoDup (entries_forest f).*1 ->
  entries_forest (attach i (Reified k c []) <$> f) = entries_forest f ++ [(k, c)]
  /\ is_spine (attach i (Reified k c []) <$> f) (sp1 ++ [(i, ci); (k, c)]).
Proof.
  induction sp1 as [|[a ca] sp1 IH]; intros f sp2 Hsp Hnd.
  - inversion Hsp as [|f0 a' c' kids sp' Hkids]; subst. clear Hsp.
    rewrite entries_forest_app, entries_forest_singleton, entries_Reified,
      fmap_app, fmap_cons in Hnd.
    apply NoDup_app in Hnd as (_ & Hf0 & Hnd). apply NoDup_cons in Hnd as [Hi _].
    assert (Hf0' : i ∉ (entries_forest f0).*1).
    { intros H. apply (Hf0 _ H). apply list_elem_of_here. }
    rewrite fmap_app, attach_absent_forest by exact Hf0'.
    change (attach i (Reified k c []) <$> [Reified i ci kids])
      with [attach i (Reified k c []) (Reified i ci kids)].
    rewrite attach_Reified, decide_True, attach_absent_forest
      by (reflexivity || exact Hi).
    split.
    + rewrite !entries_forest_app, !entries_forest_singleton, !entries_Reified.
      rewrite entries_forest_app, entries_forest_singleton, entries_Reified.
      change (entries_forest []) with (@nil (nat * Comment)).
      by rewrite <- app_assoc.
    + apply spine_last. apply (spine_last kids k c [] []). constructor.
  - inversion Hsp as [|f0 a' c' kids sp' Hkids]; subst. clear Hsp.
    pose proof (is_spine_entries _ _ Hkids (i, ci)) as Hin.
    rewrite entries_forest_app, entries_forest_singleton, entries_Reified,
      fmap_app, fmap_cons in Hnd.
    apply NoDup_app in Hnd as (_ & Hf0 & Hnd). apply NoDup_cons in Hnd as [Ha Hnd].
    assert (Hi : i ∈ (entries_forest kids).*1).
    { apply list_elem_of_fmap. exists (i, ci). split; [reflexivity|].
      apply Hin, elem_of_app. right. apply list_elem_of_here. }
    assert (Hf0' : i ∉ (entries_forest f0).*1).
    { intros H. apply (Hf0 _ H). by apply list_elem_of_further. }
    assert (Hne : a <> i) by (intros ->; contradiction).
    destruct (IH kids sp2 Hkids Hnd) as [IHe IHs].
    rewrite fmap_app, attach_absent_forest by exact Hf0'.
    change (attach i (Reified k c []) <$> [Reified a ca kids])
      with [attach i (Reified k c []) (Reified a ca kids)].
    rewrite attach_Reified, decide_False, app_nil_r by exact Hne.
    split.
    + rewrite !entries_forest_app, !entries_forest_singleton, !entries_Reified.
      rewrite IHe. by rewrite <- app_assoc.
    + apply spine_last. exact IHs.
Qed.

End TreeFacts.

Section BuildFacts.
Import Tree.

Lemma path_ordered_lookup (rows : list Comment) :
  path_ordered rows ->
  forall i j x y,
    rows !! i = Some x -> rows !! j = Some y -> (i < j)%nat ->
    String.ltb (path x) (path y) = true.
Proof.
  unfold path_ordered. induction 1 as [|a l _ IH Hall]; intros i j x y Hi Hj Hlt.
  - discriminate.
  - destruct j as [|j]; [lia|]. destruct i as [|i].
    + injection Hi as <-. rewrite Forall_forall in Hall.
      apply Hall. eapply list_elem_of_lookup_2. exact Hj.
    + apply (IH i j); auto. lia.
Qed.

(** Paths are unique in an ordered sequence. *)
Lemma path_ordered_inj (rows : list Comment) (i j : nat) (x y : Comment) :
  path_ordered rows ->
  rows !! i = Some x -> rows !! j = Some y -> path x = path y -> i = j.
Proof.
  intros Hs Hi Hj E.
  destruct (Nat.lt_trichotomy i j) as [Hlt|[->|Hlt]]; [|reflexivity|].
  - pose proof (path_ordered_lookup rows Hs i j x y Hi Hj Hlt) as H.
    rewrite E, ltb_irrefl in H. discriminate.
  - pose proof (path_ordered_lookup rows Hs j i y x Hj Hi Hlt) as H.
    rewrite E, ltb_irrefl in H. discriminate.
Qed.

Lemma materialized_spec (rows : list Comment) (c : Comment) :
  materialized rows = true -> c ∈ rows ->
  match parent_id c with
  | None => is_segment (path c) = true
  | Some pid =>
      exists p, p ∈ rows /\ comment_id p = pid /\ extends (path p) (path c) = true
  end.
Proof.
  unfold materialized. rewrite forallb_forall. intros Hall Hin.
  specialize (Hall c (proj1 (list_elem_of_In _ _) Hin)).
  destruct (parent_id c) as [pid|]; [|exact Hall].
  apply existsb_exists in Hall as (p & Hp & Hb).
  apply andb_true_iff in Hb as [Hid Hext].
  exists p. split; [by apply list_elem_of_In|].
  split; [by apply bool_decide_eq_true in Hid|exact Hext].
Qed.

Lemma entries_lookup (es : list (nat * Comment)) (pre : list Comment) (j : nat) (q : Comment) :
  es.*1 = seq 0 (length pre) -> es.*2 = pre -> (j, q) ∈ es -> pre !! j = Some q.
Proof.
  intros H1 H2 Hin. apply list_elem_of_lookup in Hin as [n Hn].
  assert (Hj : es.*1 !! n = Some j) by (by rewrite list_lookup_fmap, Hn).
  assert (Hq : es.*2 !! n = Some q) by (by rewrite list_lookup_fmap, Hn).
  rewrite H1 in Hj. apply lookup_seq in Hj as [-> _]. by rewrite H2 in Hq.
Qed.

Lemma invariant_initial : invariant [] initial [] [].
Proof. split; try reflexivity; try constructor. discriminate. Qed.

Lemma dict_after_visit (pre : list Comment) (st : State) (c : Comment) :
  length (heap st) = length pre ->
  (forall b cb, pre !! b = Some cb -> comment_dict st !! comment_id cb = Some b) ->
  comment_id c ∉ comment_id <$> pre ->
  forall b cb,
    (pre ++ [c]) !! b = Some cb ->
    <[comment_id c := length (heap st)]> (comment_dict st) !! comment_id cb = Some b.
Proof.
  intros Hlen Hdict Hfresh b cb Hb.
  apply lookup_app_Some in Hb as [Hb|[Hge Hb]].
  - rewrite lookup_insert_ne; [by apply Hdict|].
    intros E. apply Hfresh. rewrite E. apply list_elem_of_fmap.
    exists cb. split; [reflexivity|]. eapply list_elem_of_lookup_2. exact Hb.
  - apply list_lookup_singleton_Some in Hb as [Hb ->].
    rewrite lookup_insert_eq. f_equal. lia.
Qed.

(** A root comment: a new last root. *)
Lemma invariant_root pre st f branch c :
  invariant pre st f branch ->
  parent_id c = None ->
  is_segment (path c) = true ->
  comment_id c ∉ comment_id <$> pre ->
  exists st',
    visit st c = Return st'
    /\ invariant (pre ++ [c]) st' (f ++ [Reified (length pre) c []]) [(length pre, c)].
Proof.
  intros [Hheap Hdict Hforest Hobj Hcom Hsp Hch Hlast Hchars] Hroot Hseg Hfresh.
  unfold visit. rewrite Hroot. eexists. split; [reflexivity|].
  split; cbn [heap comment_dict root_comments].
  - rewrite !length_app. simpl. lia.
  - by apply dict_after_visit.
  - unfold forest in *. cbn [heap root_comments]. rewrite length_app. simpl length.
    rewrite Nat.add_1_r. apply mapM_snoc.
    + rewrite <- (list_fmap_id f). eapply mapM_transport; [|exact Hforest].
      intros x T. apply reify_extend.
    + rewrite reify_S, list_lookup_middle by reflexivity.
      rewrite Hheap. reflexivity.
  - rewrite entries_forest_app, entries_forest_singleton, fmap_app, Hobj, length_app.
    simpl length. rewrite Nat.add_1_r, seq_S. reflexivity.
  - rewrite entries_forest_app, entries_forest_singleton, fmap_app, Hcom. reflexivity.
  - apply (spine_last f (length pre) c [] []). constructor.
  - simpl. auto.
  - by rewrite last_snoc.
  - apply Forall_app. split; [exact Hchars|]. constructor; [|constructor].
    by apply all_digits_path_chars, is_segment_digits.
Qed.

(** A reply: its parent is on the rightmost branch, and the reply
    becomes the end of that branch. *)
Lemma invariant_reply pre st f branch c pid p i :
  invariant pre st f branch ->
  parent_id c = Some pid ->
  pre !! i = Some p ->
  comment_id p = pid ->
  extends (path p) (path c) = true ->
  comment_id c ∉ comment_id <$> pre ->
  path_ordered (pre ++ [c]) ->
  exists st' f' branch',
    visit st c = Return st' /\ invariant (pre ++ [c]) st' f' branch'.
Proof.
  intros [Hheap Hdict Hforest Hobj Hcom Hsp Hch Hlast Hchars]
    Hparent Hi Hid Hext Hfresh Hsorted.
  pose proof (lookup_lt_Some _ _ _ Hi) as Hilt.
  assert (Hpin : p ∈ pre) by (eapply list_elem_of_lookup_2; exact Hi).
  (* the lookup of the parent succeeds *)
  assert (Hlook : <[comment_id c := length (heap st)]> (comment_dict st) !! pid = Some i).
  { rewrite lookup_insert_ne.
    - rewrite <- Hid. by apply Hdict.
    - intros E. apply Hfresh. rewrite E, <- Hid. apply list_elem_of_fmap. by exists p. }
  unfold visit. rewrite Hparent, Hlook.
  (* the last comment visited, and where the parent's path stands *)
  destruct (last pre) as [prev|] eqn:Eprev;
    [|apply last_None in Eprev; rewrite Eprev in Hpin; by apply elem_of_nil in Hpin].
  destruct branch as [|[a0 c0] tl]; [discriminate|].
  injection Hlast as ->.
  assert (Hprev : pre !! pred (length pre) = Some prev) by (by rewrite <- last_lookup).
  assert (Hsorted' : path_ordered pre)
    by (eapply StronglySorted_app_1_l; exact Hsorted).
  assert (Hle : path p = path prev \/ String.ltb (path p) (path prev) = true).
  { destruct (decide (i = pred (length pre))) as [->|Hne].
    - left. congruence.
    - right. apply (path_ordered_lookup pre Hsorted' i (pred (length pre))); auto. lia. }
  assert (Hlt : String.ltb (path prev) (path c) = true).
  { apply (path_ordered_lookup _ Hsorted (pred (length pre)) (length pre)).
    - by apply lookup_app_l_Some.
    - by rewrite list_lookup_middle.
    - lia. }
  pose proof Hext as (seg & Hseg & Epath)%extends_spec.
  assert (Hprevchars : path_chars (path prev) = true).
  { rewrite Forall_forall in Hchars. apply Hchars.
    eapply list_elem_of_lookup_2. exact Hprev. }
  rewrite Epath in Hlt.
  pose proof (between_dotted _ _ _ Hprevchars Hle Hlt) as Hdot.
  rewrite fmap_cons in Hch. cbn [snd] in Hch.
  destruct (path_chain_find _ _ _ Hch Hdot) as (l1 & l2 & El & Hchain).
  change (path prev :: ((fun e : nat * Comment => path e.2) <$> tl))
    with ((fun e : nat * Comment => path e.2) <$> ((a0, prev) :: tl)) in El.
  apply fmap_app_inv in El as (r1 & r2' & -> & El2 & Ebranch).
  symmetry in El2. apply fmap_cons_inv in El2 as ([j q] & r2 & Eq & -> & ->).
  cbn [snd] in Eq.
  (* that node of the branch is the parent *)
  assert (Hjq : pre !! j = Some q).
  { apply (entries_lookup (entries_forest f)); [exact Hobj|exact Hcom|].
    apply (is_spine_entries _ _ Hsp). apply list_elem_of_In.
    rewrite <- in_rev, Ebranch. apply in_app_iff. right. by left. }
  assert (j = i) as -> by (by apply (path_ordered_inj pre j i q p Hsorted')).
  assert (q = p) as -> by congruence.
  rewrite Ebranch, rev_app_distr in Hsp. simpl in Hsp. rewrite <- app_assoc in Hsp.
  assert (Hnd : NoDup (entries_forest f).*1) by (rewrite Hobj; apply NoDup_seq).
  destruct (attach_on_spine (length pre) c i p (rev r2) f (rev r1) Hsp Hnd)
    as [Hentries Hspine].
  eexists _, (attach i (Reified (length pre) c []) <$> f), ((length pre, c) :: (i, p) :: r2).
  split; [reflexivity|].
  split; cbn [heap comment_dict root_comments].
  - rewrite length_alter, !length_app. simpl. lia.
  - by apply dict_after_visit.
  - unfold forest in *. cbn [heap root_comments].
    rewrite length_alter, length_app. simpl length. rewrite Nat.add_1_r.
    eapply mapM_transport; [|exact Hforest].
    intros x T HT. rewrite <- Hheap. apply reify_attach; [lia|exact HT].
  - rewrite Hentries, fmap_app, Hobj, length_app. simpl length.
    rewrite Nat.add_1_r, seq_S. reflexivity.
  - rewrite Hentries, fmap_app, Hcom. reflexivity.
  - simpl. rewrite <- app_assoc. exact Hspine.
  - rewrite !fmap_cons. cbn [snd]. split; [exact Hext|exact Hchain].
  - by rewrite last_snoc.
  - apply Forall_app. split; [exact Hchars|]. constructor; [|constructor].
    apply (extends_path_chars (path p)); [exact Hext|].
    rewrite Forall_forall in Hchars. by apply Hchars.
Qed.

(** The loop runs through a well-formed sequence and keeps the
    invariant. *)
Lemma loop_invariant (cs : list Comment) :
  unique_ids cs -> path_ordered cs -> materialized cs = true ->
  forall pre suf,
    cs = pre ++ suf ->
    exists st f branch, loop initial pre = Return st /\ invariant pre st f branch.
Proof.
  intros Hids Hsorted Hmat pre.
  induction pre as [|c pre IH] using rev_ind; intros suf Ecs.
  - exists initial, [], []. split; [reflexivity|apply invariant_initial].
  - rewrite <- app_assoc in Ecs. simpl in Ecs.
    destruct (IH _ Ecs) as (st & f & branch & Hloop & Hinv).
    assert (Hfresh : comment_id c ∉ comment_id <$> pre).
    { unfold unique_ids in Hids. rewrite Ecs, fmap_app, fmap_cons in Hids.
      apply NoDup_app in Hids as (_ & Hdisj & _). intros Hin.
      apply (Hdisj _ Hin). apply list_elem_of_here. }
    assert (Hsorted1 : path_ordered (pre ++ [c])).
    { unfold path_ordered in *. rewrite Ecs in Hsorted.
      change (c :: suf) with ([c] ++ suf) in Hsorted. rewrite app_assoc in Hsorted.
      eapply StronglySorted_app_1_l. exact Hsorted. }
    assert (Hc : cs !! length pre = Some c) by (by rewrite Ecs, list_lookup_middle).
    pose proof (materialized_spec cs c Hmat (list_elem_of_lookup_2 _ _ _ Hc)) as Hshape.
    rewrite loop_app, Hloop. simpl.
    destruct (parent_id c) as [pid|] eqn:Eparent.
    + destruct Hshape as (p & Hp & Hid & Hext).
      apply list_elem_of_lookup in Hp as [i Hi].
      assert (Hilt : (i < length pre)%nat).
      { destruct (Nat.lt_trichotomy i (length pre)) as [Hlt|[->|Hgt]]; [exact Hlt| |].
        - assert (p = c) as -> by congruence.
          apply extends_lt in Hext. rewrite ltb_irrefl in Hext. discriminate.
        - pose proof (path_ordered_lookup cs Hsorted _ _ _ _ Hc Hi Hgt) as H.
          apply extends_lt, ltb_asym in Hext. congruence. }
      assert (Hi' : pre !! i = Some p).
      { rewrite Ecs, lookup_app_l in Hi by exact Hilt. exact Hi. }
      destruct (invariant_reply pre st f branch c pid p i
                  Hinv Eparent Hi' Hid Hext Hfresh Hsorted1)
        as (st' & f' & branch' & Hvisit & Hinv').
      rewrite Hvisit. eauto.
    + destruct (invariant_root pre st f branch c Hinv Eparent Hshape Hfresh)
        as (st' & Hvisit & Hinv').
      rewrite Hvisit. eauto.
Qed.

End BuildFacts.

(** C2: when the sequence holds a comment whose parent id is the id of
    no comment of the sequence, [build] raises [KeyError] (the lookup
    [comment_dict[comment.parent_id]] fails) and returns no forest, so
    the comment is in no root list. *)
Theorem build_orphan_raises (comments : list Comment) (c : Comment) :
  Tree.orphan comments c ->
  (exists key, Tree.build comments = Tree.KeyError key)
  /\ (forall st, Tree.build comments <> Tree.Return st).
Proof.
  intros [Hin (pid & Hparent & Hpid)].
  destruct (loop_orphan comments Tree.initial c pid Hin Hparent Hpid) as [k Hk];
    [reflexivity|].
  unfold Tree.build. split; [by exists k|]. intros st. rewrite Hk. discriminate.
Qed.

Lemma build_orphan_raises_witness :
  (exists key, Tree.build Tree.broken_thread = Tree.KeyError key)
  /\ (forall st, Tree.build Tree.broken_thread <> Tree.Return st).
Proof.
  apply (build_orphan_raises Tree.broken_thread (Tree.a_comment 11 (Some 99) "0001.0001" 1)).
  split.
  - apply list_elem_of_further, list_elem_of_here.
  - exists 99. split; [reflexivity|]. intros H.
    apply elem_of_cons in H as [H|H]; [discriminate|].
    apply elem_of_cons in H as [H|H]; [discriminate|].
    by apply elem_of_nil in H.
Defined.

(** C5: for the comments of a post in ascending order of path (unique
    ids, every root with a one-segment path, every reply with its parent
    in the sequence and the parent's path plus one segment as its path),
    [build] returns, the forest behind the returned list can be read
    out, and its pre-order traversal is the input sequence; on the empty
    sequence [build] returns the empty forest. *)
Theorem build_preorder (comments : list Comment) :
  Tree.unique_ids comments ->
  Tree.path_ordered comments ->
  Tree.materialized comments = true ->
  (exists st f,
      Tree.build comments = Tree.Return st
      /\ Tree.forest st = Some f
      /\ Tree.flatten_forest f = comments)
  /\ Tree.build [] = Tree.Return Tree.initial
  /\ Tree.forest Tree.initial = Some [].
Proof.
  intros Hids Hsorted Hmat. split; [|split; reflexivity].
  destruct (loop_invariant comments Hids Hsorted Hmat comments [])
    as (st & f & branch & Hloop & Hinv); [by rewrite app_nil_r|].
  exists st, f. split; [exact Hloop|]. split; [apply Hinv|].
  rewrite flatten_forest_entries. apply Hinv.
Qed.

Lemma build_preorder_witness :
  (exists st f,
      Tree.build Tree.thread = Tree.Return st
      /\ Tree.forest st = Some f
      /\ Tree.flatten_forest f = Tree.thread)
  /\ Tree.build [] = Tree.Return Tree.initial
  /\ Tree.forest Tree.initial = Some [].
Proof.
  apply (build_preorder Tree.thread).
  - unfold Tree.unique_ids. apply (bool_decide_unpack _). vm_compute. exact I.
  - unfold Tree.path_ordered. apply (bool_decide_unpack _). vm_compute. exact I.
  - reflexivity.
Defined.

(* ================================================================== *)
(** * More on the leaderboard and the like view                         *)
(* ================================================================== *)

Section LeaderboardMore.
Import Karma.

Lemma filter_length_le {X} (P Q : X -> Prop)
    `{!forall x, Decision (P x)} `{!forall x, Decision (Q x)} (l : list X) :
  (forall x, P x -> Q x) -> (length (filter P l) <= length (filter Q l))%nat.
Proof.
  intros HPQ. induction l as [|x l IH]; [reflexivity|].
  rewrite !filter_cons. destruct (decide (P x)) as [HP|HP].
  - rewrite decide_True by auto. simpl. lia.
  - destruct (decide (Q x)); simpl; lia.
Qed.

Lemma karma_le_later (db : Database) (now now' u : Z) :
  now <= now' -> karma db now' u <= karma db now u.
Proof.
  intros Hle. unfold karma, post_likes_received, comment_likes_received.
  pose proof (filter_length_le
    (fun l => now' - timedelta_hours 24 <= pl_created_at l
              /\ post__author db (pl_post l) = Some u)
    (fun l => now - timedelta_hours 24 <= pl_created_at l
              /\ post__author db (pl_post l) = Some u) (post_likes db)) as Hp.
  pose proof (filter_length_le
    (fun l => now' - timedelta_hours 24 <= cl_created_at l
              /\ comment__author db (cl_comment l) = Some u)
    (fun l => now - timedelta_hours 24 <= cl_created_at l
              /\ comment__author db (cl_comment l) = Some u) (comment_likes db)) as Hc.
  assert (Hp' := Hp ltac:(intros x [? ?]; split; [lia|assumption])).
  assert (Hc' := Hc ltac:(intros x [? ?]; split; [lia|assumption])).
  lia.
Qed.

Lemma ranking_entry (db : Database) (now u k : Z) :
  (u, k) ∈ ranking db now <-> k = karma db now u /\ 0 < k.
Proof.
  unfold ranking, sorted_reverse. rewrite sort_by_Permutation.
  apply karma_table_entry.
Qed.

Lemma ranking_NoDup (db : Database) (now : Z) : NoDup (ranking db now).*1.
Proof.
  unfold ranking, sorted_reverse. rewrite sort_by_Permutation.
  apply karma_table_NoDup.
Qed.

Lemma karma_nonneg (db : Database) (now u : Z) : 0 <= karma db now u.
Proof.
  unfold karma, post_likes_received, comment_likes_received. lia.
Qed.

End LeaderboardMore.

(** X1: with no new likes, the karma the leaderboard holds for a user
    can only go down as time passes: at a later call it is at most what
    it was at an earlier call. *)
Theorem leaderboard_karma_decays (db : Karma.Database) (now now' u : Z) :
  now <= now' ->
  dict_get (Karma.karma_table db now') u 0 <= dict_get (Karma.karma_table db now) u 0.
Proof. intros Hle. rewrite !karma_table_get. by apply karma_le_later. Qed.

Lemma leaderboard_karma_decays_witness :
  dict_get (Karma.karma_table Karma.scenario (Karma.scenario_now + Karma.one_second)) 1 0
  <= dict_get (Karma.karma_table Karma.scenario Karma.scenario_now) 1 0.
Proof.
  apply (leaderboard_karma_decays Karma.scenario Karma.scenario_now
           (Karma.scenario_now + Karma.one_second) 1).
  unfold Karma.one_second. lia.
Defined.

(** X2: the leaderboard returns at most five entries, no user twice,
    each with that user's karma, which is at least 1; every user it
    leaves out has at most the karma of every user it shows; and it is
    empty exactly when no user has karma in the window. *)
Theorem leaderboard_top_five (db : Karma.Database) (now : Z) :
  (length (Karma.get db now) <= 5)%nat
  /\ NoDup (Karma.get db now).*1
  /\ (forall u k, (u, k) ∈ Karma.get db now -> k = Karma.karma db now u /\ 1 <= k)
  /\ (forall u k v,
        (u, k) ∈ Karma.get db now -> v ∉ (Karma.get db now).*1 ->
        Karma.karma db now v <= k)
  /\ (Karma.get db now = [] <-> forall u, Karma.karma db now u = 0).
Proof.
  assert (Hget : Karma.get db now = take 5 (Karma.ranking db now)) by reflexivity.
  assert (Hsplit : Karma.ranking db now
                   = Karma.get db now ++ drop 5 (Karma.ranking db now))
    by (by rewrite Hget, take_drop).
  assert (Hin : forall u k, (u, k) ∈ Karma.get db now -> k = Karma.karma db now u /\ 1 <= k).
  { intros u k H. assert (H' : (u, k) ∈ Karma.ranking db now)
      by (rewrite Hsplit; apply elem_of_app; by left).
    apply ranking_entry in H' as [-> Hpos]. split; [reflexivity|lia]. }
  split; [rewrite Hget, length_take; lia|].
  split.
  { pose proof (ranking_NoDup db now) as Hnd. rewrite Hsplit, fmap_app in Hnd.
    by apply NoDup_app in Hnd as [Hnd _]. }
  split; [exact Hin|]. split.
  - intros u k v Huk Hv. destruct (Hin u k Huk) as [_ Hk].
    destruct (decide (0 < Karma.karma db now v)) as [Hpos|Hzero].
    + assert (Hv' : (v, Karma.karma db now v) ∈ Karma.ranking db now)
        by (by apply ranking_entry).
      pose proof (sorted_reverse_descending (Karma.karma_table db now)) as Hs.
      fold (Karma.ranking db now) in Hs. unfold Karma.descending in Hs.
      rewrite Hsplit in Hs, Hv'. apply elem_of_app in Hv' as [Hv'|Hv'].
      * exfalso. apply Hv. apply list_elem_of_fmap. by exists (v, Karma.karma db now v).
      * apply (StronglySorted_app_1_elem_of _ _ _ _ _ Hs Huk Hv').
    + lia.
  - split.
    + intros Hempty u.
      destruct (decide (0 < Karma.karma db now u)) as [Hpos|Hzero].
      * assert (Hu : (u, Karma.karma db now u) ∈ Karma.ranking db now)
          by (by apply ranking_entry).
        rewrite Hget in Hempty. destruct (Karma.ranking db now) as [|x l];
          [by apply elem_of_nil in Hu|discriminate].
      * pose proof (karma_nonneg db now u). lia.
    + intros Hzero. destruct (Karma.get db now) as [|[u k] l] eqn:E; [reflexivity|].
      destruct (Hin u k (list_elem_of_here _ _)) as [-> Hk].
      rewrite Hzero in Hk. lia.
Qed.

Section LikeViewMore.
Import Ledger.

Lemma records_app (t1 t2 : list PostLike) (p u : Z) :
  records (t1 ++ t2) p u = (records t1 p u + records t2 p u)%nat.
Proof. unfold records. by rewrite filter_app, length_app. Qed.

Lemma like_inv (t : list PostLike) (p u now : Z) :
  (existsb (same_pair p u) t = true /\ like t p u now = (AlreadyLiked, t))
  \/ (existsb (same_pair p u) t = false
      /\ like t p u now
         = (liked, t ++ [{| pl_post := p; pl_user := u; pl_created_at := now |}])).
Proof.
  unfold like, create. simpl. destruct (existsb (same_pair p u) t); auto.
Qed.

End LikeViewMore.

(** X3: the [like] action keeps the uniqueness constraint, never
    removes or changes a row (the old table is a prefix of the new one),
    adds at most one row, and leaves the number of rows of every other
    (post, user) pair as it was. *)
Theorem like_keeps_rows (t : list PostLike) (p u now : Z) :
  Ledger.unique_post_like t ->
  Ledger.unique_post_like (Ledger.like t p u now).2
  /\ t `prefix_of` (Ledger.like t p u now).2
  /\ (length (Ledger.like t p u now).2 <= S (length t))%nat
  /\ (forall p' u', (p', u') <> (p, u) ->
        Ledger.records (Ledger.like t p u now).2 p' u' = Ledger.records t p' u').
Proof.
  intros Hnd. split; [by apply like_keeps_constraint|].
  destruct (like_inv t p u now) as [[_ ->]|[_ ->]]; simpl.
  - split; [reflexivity|]. split; [lia|]. reflexivity.
  - split; [by apply prefix_app_r|]. split; [rewrite length_app; simpl; lia|].
    intros p' u' Hne. rewrite records_app. unfold Ledger.records at 2.
    rewrite filter_cons_False, filter_nil; [simpl; lia|].
    intros H. apply same_pair_eq in H. simpl in H. congruence.
Qed.

Lemma like_keeps_rows_witness :
  let t := [{| pl_post := 1; pl_user := 7; pl_created_at := 10 |}] in
  Ledger.unique_post_like (Ledger.like t 1 8 20).2
  /\ t `prefix_of` (Ledger.like t 1 8 20).2
  /\ (length (Ledger.like t 1 8 20).2 <= S (length t))%nat
  /\ (forall p' u', (p', u') <> (1, 8) ->
        Ledger.records (Ledger.like t 1 8 20).2 p' u' = Ledger.records t p' u').
Proof.
  intros t. apply (like_keeps_rows t 1 8 20).
  unfold Ledger.unique_post_like. simpl. apply NoDup_cons. split.
  - apply not_elem_of_nil.
  - apply NoDup_nil. exact I.
Defined.

Section LikeKarma.
Import Karma.

Lemma post_likes_received_snoc (db : Database) (l : PostLike) (now u : Z) :
  post_likes_received (with_post_like db l) now u
  = post_likes_received db now u
    + (if decide (now - timedelta_hours 24 <= pl_created_at l
                  /\ post__author db (pl_post l) = Some u) then 1 else 0).
Proof.
  unfold post_likes_received, with_post_like, post__author. simpl.
  rewrite filter_app, length_app, filter_cons, filter_nil.
  destruct (decide _); simpl; lia.
Qed.

End LikeKarma.

(** X4: when a user likes an existing post through the [like] action
    and the view answers "liked", then at every leaderboard call whose
    window contains the time of the like the karma of the post's author
    is 5 more than it would be without the like, and the karma of every
    other user is the same; the liking user may be the author.  When the
    view answers "Already liked", the database is unchanged. *)
Theorem like_post_adds_five (db : Karma.Database) (p v t now author : Z) :
  Karma.post__author db p = Some author ->
  now - Karma.timedelta_hours 24 <= t ->
  ((Views.like_post db p v t).1 = Ledger.liked ->
     dict_get (Karma.karma_table (Views.like_post db p v t).2 now) author 0
     = dict_get (Karma.karma_table db now) author 0 + 5
     /\ forall u, u <> author ->
          dict_get (Karma.karma_table (Views.like_post db p v t).2 now) u 0
          = dict_get (Karma.karma_table db now) u 0)
  /\ ((Views.like_post db p v t).1 = Ledger.AlreadyLiked ->
        Karma.post_likes (Views.like_post db p v t).2 = Karma.post_likes db).
Proof.
  intros Hauthor Hwindow. unfold Views.like_post.
  destruct (like_inv (Karma.post_likes db) p v t) as [[_ ->]|[_ ->]]; simpl.
  - split; [discriminate|reflexivity].
  - split; [|discriminate]. intros _.
    change {| Karma.posts := Karma.posts db; Karma.comments := Karma.comments db;
              Karma.post_likes := Karma.post_likes db
                ++ [{| pl_post := p; pl_user := v; pl_created_at := t |}];
              Karma.comment_likes := Karma.comment_likes db |}
      with (Karma.with_post_like db {| pl_post := p; pl_user := v; pl_created_at := t |}).
    split.
    + rewrite !karma_table_get. unfold Karma.karma.
      rewrite post_likes_received_snoc. simpl.
      rewrite decide_True by auto.
      replace (Karma.comment_likes_received (Karma.with_post_like db _) now author)
        with (Karma.comment_likes_received db now author) by reflexivity.
      lia.
    + intros u Hu. rewrite !karma_table_get. unfold Karma.karma.
      rewrite post_likes_received_snoc. simpl.
      rewrite decide_False by (intros [_ ?]; congruence).
      replace (Karma.comment_likes_received (Karma.with_post_like db _) now u)
        with (Karma.comment_likes_received db now u) by reflexivity.
      lia.
Qed.

Lemma like_post_adds_five_witness :
  ((Views.like_post Views.two_posts 11 2 100).1 = Ledger.liked ->
     dict_get (Karma.karma_table (Views.like_post Views.two_posts 11 2 100).2 100) 2 0
     = dict_get (Karma.karma_table Views.two_posts 100) 2 0 + 5
     /\ forall u, u <> 2 ->
          dict_get (Karma.karma_table (Views.like_post Views.two_posts 11 2 100).2 100) u 0
          = dict_get (Karma.karma_table Views.two_posts 100) u 0)
  /\ ((Views.like_post Views.two_posts 11 2 100).1 = Ledger.AlreadyLiked ->
        Karma.post_likes (Views.like_post Views.two_posts 11 2 100).2
        = Karma.post_likes Views.two_posts).
Proof.
  apply (like_post_adds_five Views.two_posts 11 2 100 100 2).
  - reflexivity.
  - unfold Karma.timedelta_hours. lia.
Defined.

(* ================================================================== *)
(** * More on get_comments                                              *)
(* ================================================================== *)

Section ThreadRaises.
Import Tree Threads.

Lemma visit_raises (st : State) (c : Comment) (k : Z) :
  visit st c = KeyError k <->
  parent_id c = Some k /\ k <> comment_id c /\ comment_dict st !! k = None.
Proof.
  unfold visit. destruct (parent_id c) as [pid|].
  - destruct (decide (comment_id c = pid)) as [E|Hne].
    + rewrite E, lookup_insert_eq. split; [discriminate|].
      intros ([= ->] & H & _). congruence.
    + rewrite lookup_insert_ne by exact Hne.
      destruct (comment_dict st !! pid) as [i|] eqn:El.
      * split; [discriminate|]. intros ([= ->] & _ & H). congruence.
      * split.
        -- intros [= <-]. auto.
        -- intros ([= ->] & _ & _). reflexivity.
  - split; [discriminate|]. intros (H & _). discriminate.
Qed.

Lemma loop_raises_inv (cs : list Comment) : forall st k,
  loop st cs = KeyError k ->
  exists i c,
    cs !! i = Some c /\ parent_id c = Some k /\ k <> comment_id c
    /\ (k ∉ (comment_id <$> take i cs)) /\ comment_dict st !! k = None.
Proof.
  induction cs as [|x cs IH]; intros st k H; [discriminate|].
  simpl in H. destruct (visit st x) as [st'|k'] eqn:Ev.
  - destruct (IH st' k H) as (i & c & Hi & Hp & Hne & Hnin & Hd).
    rewrite (visit_dict _ _ _ Ev) in Hd.
    apply lookup_insert_None in Hd as [Hd Hx].
    exists (S i), c. repeat split; auto.
    rewrite firstn_cons, fmap_cons. apply not_elem_of_cons. split; [congruence|exact Hnin].
  - injection H as ->. apply visit_raises in Ev as (Hp & Hne & Hd).
    exists 0%nat, x. repeat split; auto. apply not_elem_of_nil.
Qed.

Lemma loop_raises (cs : list Comment) : forall st i c pid,
  cs !! i = Some c -> parent_id c = Some pid -> pid <> comment_id c ->
  pid ∉ (comment_id <$> take i cs) -> comment_dict st !! pid = None ->
  exists k, loop st cs = KeyError k.
Proof.
  induction cs as [|x cs IH]; intros st i c pid Hi Hp Hne Hnin Hd; [discriminate|].
  simpl. destruct (visit st x) as [st'|k'] eqn:Ev; [|by exists k'].
  destruct i as [|i].
  - injection Hi as ->.
    assert (Hr : visit st c = KeyError pid) by (by apply visit_raises).
    congruence.
  - rewrite firstn_cons, fmap_cons in Hnin. apply not_elem_of_cons in Hnin as [Hx Hnin].
    apply (IH st' i c pid); auto.
    rewrite (visit_dict _ _ _ Ev), lookup_insert_ne by congruence. exact Hd.
Qed.

End ThreadRaises.

(** X5: [build] raises [KeyError] exactly when some comment of the
    sequence names a parent that is neither the comment itself nor a
    comment in front of it, be the parent missing or only later in the
    sequence; the key raised is such a parent id. *)
Theorem build_raises_iff (comments : list Comment) :
  ((exists key, Tree.build comments = Tree.KeyError key)
   <-> exists i, Threads.unresolved_at comments i)
  /\ (forall key,
        Tree.build comments = Tree.KeyError key ->
        exists i c,
          comments !! i = Some c /\ parent_id c = Some key
          /\ key <> comment_id c /\ key ∉ (comment_id <$> take i comments)).
Proof.
  assert (Hinv : forall key,
             Tree.build comments = Tree.KeyError key ->
             exists i c,
               comments !! i = Some c /\ parent_id c = Some key
               /\ key <> comment_id c /\ key ∉ (comment_id <$> take i comments)).
  { intros key H. destruct (loop_raises_inv comments Tree.initial key H)
      as (i & c & ? & ? & ? & ? & _). eauto 10. }
  split; [|exact Hinv]. split.
  - intros [key H]. destruct (Hinv key H) as (i & c & ? & ? & ? & ?).
    exists i, c, key. auto.
  - intros (i & c & pid & Hi & Hp & Hne & Hnin).
    apply (loop_raises comments Tree.initial i c pid); auto.
Qed.

Section ThreadForest.
Import Tree Threads.

(** A heap that agrees with [h] on the dictionaries of [h] gives them
    the same values. *)
Lemma reify_agree (h h' : list Node) (n : nat) :
  (forall x nd, h !! x = Some nd -> h' !! x = Some nd) ->
  forall x T, reify n h x = Some T -> reify (S n) h' x = Some T.
Proof.
  intros Hag. induction n as [|n IH]; intros x T H; [discriminate|].
  rewrite reify_S in H. rewrite reify_S.
  destruct (h !! x) as [old|] eqn:Ex; [|discriminate].
  rewrite (Hag _ _ Ex).
  destruct (mapM (reify n h) (replies old)) as [kids|] eqn:Ek; [|discriminate].
  injection H as <-.
  rewrite (mapM_transport _ (reify (S n) h') (fun y => y) _ _ IH Ek).
  by rewrite list_fmap_id.
Qed.

Lemma forest_root (st : State) (f : list CommentNode) (c : Comment) (d : gmap Z nat) :
  forest st = Some f ->
  forest {| heap := heap st ++ [serialize c]; comment_dict := d;
            root_comments := root_comments st ++ [length (heap st)] |}
  = Some (f ++ [Reified (length (heap st)) c []]).
Proof.
  unfold forest. cbn [heap root_comments]. intros Hf.
  rewrite length_app. simpl length. rewrite Nat.add_1_r. apply mapM_snoc.
  - rewrite <- (list_fmap_id f). eapply mapM_transport; [|exact Hf].
    intros x T. apply reify_extend.
  - rewrite reify_S, list_lookup_middle by reflexivity. reflexivity.
Qed.

Lemma forest_reply (st : State) (f : list CommentNode) (c : Comment) (d : gmap Z nat)
    (i : nat) :
  (i < length (heap st))%nat ->
  forest st = Some f ->
  forest {| heap := alter (append_reply (length (heap st))) i (heap st ++ [serialize c]);
            comment_dict := d; root_comments := root_comments st |}
  = Some (attach i (Reified (length (heap st)) c []) <$> f).
Proof.
  unfold forest. cbn [heap root_comments]. intros Hi Hf.
  rewrite length_alter, length_app. simpl length. rewrite Nat.add_1_r.
  eapply mapM_transport; [|exact Hf].
  intros x T HT. by apply reify_attach.
Qed.

Lemma forest_own_parent (st : State) (f : list CommentNode) (c : Comment) (d : gmap Z nat) :
  forest st = Some f ->
  forest {| heap := alter (append_reply (length (heap st))) (length (heap st))
                      (heap st ++ [serialize c]);
            comment_dict := d; root_comments := root_comments st |}
  = Some f.
Proof.
  unfold forest. cbn [heap root_comments]. intros Hf.
  rewrite length_alter, length_app. simpl length. rewrite Nat.add_1_r.
  rewrite <- (list_fmap_id f). eapply mapM_transport; [|exact Hf].
  intros x T. apply reify_agree. intros y nd Hy.
  pose proof (lookup_lt_Some _ _ _ Hy).
  rewrite list_lookup_alter_ne by lia. by apply lookup_app_l_Some.
Qed.

(** Attaching under a dictionary that occurs once adds the new value
    once. *)
Lemma attach_entries (i : nat) (new t : CommentNode) :
  NoDup (entries t).*1 -> i ∈ (entries t).*1 ->
  entries (attach i new t) ≡ₚ entries t ++ entries new.
Proof.
  induction t as [a c kids IH] using CommentNode_nested_ind.
  rewrite entries_Reified, fmap_cons. cbn [fst]. intros Hnd Hin.
  apply NoDup_cons in Hnd as [Ha Hnd]. rewrite attach_Reified.
  destruct (decide (a = i)) as [->|Hne].
  - rewrite attach_absent_forest by exact Ha.
    rewrite !entries_Reified, entries_forest_app, entries_forest_singleton.
    reflexivity.
  - apply elem_of_cons in Hin as [->|Hin]; [congruence|].
    rewrite app_nil_r, !entries_Reified. simpl. constructor.
    clear Ha. induction IH as [|k kids Hk _ IHkids].
    + by apply elem_of_nil in Hin.
    + rewrite entries_forest_cons, fmap_app in Hin, Hnd.
      apply NoDup_app in Hnd as (Hndk & Hdisj & Hndkids).
      rewrite fmap_cons, !entries_forest_cons.
      apply elem_of_app in Hin as [Hin|Hin].
      * rewrite (Hk Hndk Hin), attach_absent_forest.
        -- rewrite <- !app_assoc. apply Permutation_app_head, Permutation_app_comm.
        -- intros H. by apply (Hdisj _ Hin).
      * rewrite attach_absent, (IHkids Hndkids Hin).
        -- by rewrite app_assoc.
        -- intros H. by apply (Hdisj _ H).
Qed.

Lemma attach_entries_forest (i : nat) (new : CommentNode) (f : list CommentNode) :
  NoDup (entries_forest f).*1 -> i ∈ (entries_forest f).*1 ->
  entries_forest (attach i new <$> f) ≡ₚ entries_forest f ++ entries new.
Proof.
  induction f as [|t f IH]; intros Hnd Hin; [by apply elem_of_nil in Hin|].
  rewrite entries_forest_cons, fmap_app in Hin, Hnd.
  apply NoDup_app in Hnd as (Hndt & Hdisj & Hndf).
  rewrite fmap_cons, !entries_forest_cons.
  apply elem_of_app in Hin as [Hin|Hin].
  - rewrite (attach_entries _ _ _ Hndt Hin), attach_absent_forest.
    + rewrite <- !app_assoc. apply Permutation_app_head, Permutation_app_comm.
    + intros H. by apply (Hdisj _ Hin).
  - rewrite attach_absent, (IH Hndf Hin).
    + by rewrite app_assoc.
    + intros H. by apply (Hdisj _ H).
Qed.

Lemma well_nested_Reified parent a c kids :
  well_nested parent (Reified a c kids)
  = bool_decide (parent_id c = parent)
    && forallb (well_nested (Some (comment_id c))) kids.
Proof. reflexivity. Qed.

(** A leaf attached under the dictionary of its parent keeps the
    nesting right. *)
Lemma well_nested_attach (i k : nat) (c : Comment) (t : CommentNode) : forall parent,
  (forall ci, (i, ci) ∈ entries t -> parent_id c = Some (comment_id ci)) ->
  well_nested parent t = true ->
  well_nested parent (attach i (Reified k c []) t) = true.
Proof.
  induction t as [a ca kids IH] using CommentNode_nested_ind.
  intros parent Hi. rewrite attach_Reified, !well_nested_Reified, forallb_app.
  intros H. apply andb_true_iff in H as [Hpar Hkids].
  rewrite Hpar. cbn [andb]. apply andb_true_iff. split.
  - rewrite entries_Reified in Hi.
    assert (Hi' : forall ci, (i, ci) ∈ entries_forest kids ->
                    parent_id c = Some (comment_id ci))
      by (intros ci H; apply Hi; by apply list_elem_of_further).
    clear Hi Hpar. induction IH as [|x kids Hx _ IHkids]; [reflexivity|].
    simpl in Hkids. apply andb_true_iff in Hkids as [Hx' Hkids].
    rewrite fmap_cons. simpl. apply andb_true_iff. split.
    + apply Hx; [|exact Hx']. intros ci H. apply Hi'.
      rewrite entries_forest_cons. apply elem_of_app. by left.
    + apply IHkids; [exact Hkids|]. intros ci H. apply Hi'.
      rewrite entries_forest_cons. apply elem_of_app. by right.
  - destruct (decide (a = i)) as [->|_]; [|reflexivity].
    simpl. rewrite !andb_true_r. apply bool_decide_eq_true.
    apply Hi. rewrite entries_Reified. apply list_elem_of_here.
Qed.

Lemma well_nested_forest_attach (i k : nat) (c : Comment) (f : list CommentNode) :
  (forall ci, (i, ci) ∈ entries_forest f -> parent_id c = Some (comment_id ci)) ->
  well_nested_forest f = true ->
  well_nested_forest (attach i (Reified k c []) <$> f) = true.
Proof.
  unfold well_nested_forest. induction f as [|t f IH]; intros Hi H; [reflexivity|].
  simpl in H. apply andb_true_iff in H as [Ht Hf].
  rewrite fmap_cons. simpl. apply andb_true_iff. split.
  - apply well_nested_attach; [|exact Ht]. intros ci Hci. apply Hi.
    rewrite entries_forest_cons. apply elem_of_app. by left.
  - apply IH; [|exact Hf]. intros ci Hci. apply Hi.
    rewrite entries_forest_cons. apply elem_of_app. by right.
Qed.

Lemma returned_initial : returned [] initial [].
Proof.
  split; try reflexivity.
  - intros k i H. cbn in H. by rewrite lookup_empty in H.
  - constructor.
  - intros a c H. by apply elem_of_nil in H.
  - intros _. split; reflexivity.
Qed.

Lemma dict_sound_after_visit (pre : list Comment) (st : State) (c : Comment) :
  length (heap st) = length pre ->
  (forall k i, comment_dict st !! k = Some i ->
     exists c, pre !! i = Some c /\ comment_id c = k) ->
  forall k i,
    <[comment_id c := length (heap st)]> (comment_dict st) !! k = Some i ->
    exists c', (pre ++ [c]) !! i = Some c' /\ comment_id c' = k.
Proof.
  intros Hlen Hd k i H. apply lookup_insert_Some in H as [[<- <-]|[_ H]].
  - exists c. split; [|reflexivity]. rewrite Hlen. by apply list_lookup_middle.
  - destruct (Hd k i H) as (c' & Hc' & Hid). exists c'.
    split; [by apply lookup_app_l_Some|exact Hid].
Qed.

(** One turn of the loop that returns keeps [returned]. *)
Lemma returned_visit (pre : list Comment) (st st' : State) (f : list CommentNode)
    (c : Comment) :
  returned pre st f -> visit st c = Return st' ->
  exists f', returned (pre ++ [c]) st' f'.
Proof.
  intros [Hheap Hdict Hforest Hobj Hent Hnest Hcomp] Hvisit.
  assert (Hfresh : length pre ∉ (entries_forest f).*1).
  { intros H. apply list_elem_of_fmap in H as ([a ca] & E & H). simpl in E.
    apply Hent, lookup_lt_Some in H. lia. }
  assert (Hold : forall a ca, (a, ca) ∈ entries_forest f -> (pre ++ [c]) !! a = Some ca)
    by (intros a ca H; by apply lookup_app_l_Some, Hent).
  unfold visit in Hvisit. destruct (parent_id c) as [pid|] eqn:Eparent.
  - destruct (_ !! pid) as [i|] eqn:Elook; [|discriminate]. injection Hvisit as <-.
    apply lookup_insert_Some in Elook as [[Eid <-]|[Hne Elook]].
    + (* the comment names itself *)
      exists f. split; cbn [heap comment_dict root_comments]; auto.
      * rewrite length_alter, !length_app. simpl. lia.
      * by apply dict_sound_after_visit.
      * by apply forest_own_parent.
      * intros Hall. apply Forall_app in Hall as [_ Hc].
        apply Forall_cons in Hc as [Hc _]. exfalso. apply Hc.
        unfold own_parent. congruence.
    + destruct (Hdict pid i Elook) as (p & Hp & Hid).
      pose proof (lookup_lt_Some _ _ _ Hp) as Hilt.
      destruct (decide (i ∈ (entries_forest f).*1)) as [Hin|Hnin].
      * (* the parent is in the forest *)
        pose proof (attach_entries_forest i (Reified (length (heap st)) c []) f Hobj Hin)
          as Hperm.
        rewrite Hheap in Hperm. change (entries (Reified (length pre) c [])) with [(length pre, c)] in Hperm.
        exists (attach i (Reified (length (heap st)) c []) <$> f).
        split; cbn [heap comment_dict root_comments].
        -- rewrite length_alter, !length_app. simpl. lia.
        -- by apply dict_sound_after_visit.
        -- apply forest_reply; [lia|exact Hforest].
        -- rewrite Hheap, Hperm, fmap_app. apply NoDup_app. split; [exact Hobj|].
           split; [|apply NoDup_singleton]. intros x Hx Hx'.
           apply list_elem_of_singleton in Hx'. simpl in Hx'. congruence.
        -- intros a ca H. rewrite Hheap, Hperm in H.
           apply elem_of_app in H as [H|H]; [by apply Hold|].
           apply list_elem_of_singleton in H. injection H as -> ->.
           by apply list_lookup_middle.
        -- apply well_nested_forest_attach; [|exact Hnest].
           intros ci Hci. apply Hent in Hci. rewrite Hp in Hci.
           injection Hci as <-. congruence.
        -- intros Hall. apply Forall_app in Hall as [Hall _].
           destruct (Hcomp Hall) as [H1 H2].
           rewrite Hheap, Hperm, !fmap_app, H1, H2, length_app. simpl length.
           rewrite Nat.add_1_r, seq_S. split; reflexivity.
      * (* the parent is out of the forest *)
        exists f. split; cbn [heap comment_dict root_comments]; auto.
        -- rewrite length_alter, !length_app. simpl. lia.
        -- by apply dict_sound_after_visit.
        -- rewrite <- (attach_absent_forest i (Reified (length (heap st)) c []) f Hnin).
           apply forest_reply; [lia|exact Hforest].
        -- intros Hall. apply Forall_app in Hall as [Hall _].
           destruct (Hcomp Hall) as [H1 _]. exfalso. apply Hnin.
           rewrite H1. apply elem_of_seq. lia.
  - injection Hvisit as <-.
    exists (f ++ [Reified (length (heap st)) c []]).
    assert (Hentries : entries_forest (f ++ [Reified (length (heap st)) c []])
                       = entries_forest f ++ [(length pre, c)]).
    { by rewrite entries_forest_app, entries_forest_singleton, Hheap. }
    split; cbn [heap comment_dict root_comments].
    + rewrite !length_app. simpl. lia.
    + by apply dict_sound_after_visit.
    + by apply forest_root.
    + rewrite Hentries, fmap_app. apply NoDup_app. split; [exact Hobj|].
      split; [|apply NoDup_singleton]. intros x Hx Hx'.
      apply list_elem_of_singleton in Hx'. simpl in Hx'. congruence.
    + intros a ca H. rewrite Hentries in H.
      apply elem_of_app in H as [H|H]; [by apply Hold|].
      apply list_elem_of_singleton in H. injection H as -> ->.
      by apply list_lookup_middle.
    + unfold well_nested_forest in *. rewrite forallb_app, Hnest. simpl.
      rewrite Eparent. reflexivity.
    + intros Hall. apply Forall_app in Hall as [Hall _].
      destruct (Hcomp Hall) as [H1 H2].
      rewrite Hentries, !fmap_app, H1, H2, length_app. simpl length.
      rewrite Nat.add_1_r, seq_S. split; reflexivity.
Qed.

Lemma returned_loop (cs : list Comment) : forall st,
  loop initial cs = Return st -> exists f, returned cs st f.
Proof.
  induction cs as [|c pre IH] using rev_ind; intros st H.
  - injection H as <-. exists []. apply returned_initial.
  - rewrite loop_app in H. destruct (loop initial pre) as [st0|k] eqn:E; [|discriminate].
    destruct (IH st0 eq_refl) as [f0 Hret]. simpl in H.
    destruct (visit st0 c) as [st1|k] eqn:Ev; [|discriminate]. injection H as <-.
    by apply (returned_visit pre st0 st1 f0 c).
Qed.

End ThreadForest.

Section ThreadShape.
Import Tree Threads.

(** Entries with distinct indices that all point into [l] select
    elements of [l], each at most once. *)
Lemma indexed_submseteq {X} (es : list (nat * X)) (l : list X) :
  NoDup es.*1 -> (forall a x, (a, x) ∈ es -> l !! a = Some x) -> es.*2 ⊆+ l.
Proof.
  intros Hnd Hlook.
  assert (Hsub : es ⊆+ imap pair l).
  { apply NoDup_submseteq; [by apply NoDup_fmap_1 in Hnd|].
    intros [a x] H. apply (elem_of_lookup_imap_2 pair l x a). by apply Hlook. }
  assert (Hl : (imap pair l).*2 = l).
  { rewrite fmap_imap. rewrite <- (list_fmap_id l) at 2. apply (imap_const id). }
  rewrite <- Hl. by apply fmap_submseteq.
Qed.

Lemma unique_ids_inj (cs : list Comment) (a b : nat) (x y : Comment) :
  unique_ids cs -> cs !! a = Some x -> cs !! b = Some y ->
  comment_id x = comment_id y -> a = b.
Proof.
  unfold unique_ids. intros Hnd Ha Hb E.
  apply (NoDup_lookup (comment_id <$> cs) a b (comment_id x) Hnd).
  - by rewrite list_lookup_fmap, Ha.
  - by rewrite list_lookup_fmap, Hb, E.
Qed.

(** With unique ids, a well-nested tree whose root is not under a
    comment of the tree holds no comment that names itself. *)
Lemma well_nested_no_own_parent (cs : list Comment) (t : CommentNode) :
  unique_ids cs ->
  forall parent,
    well_nested parent t = true ->
    NoDup (entries t).*1 ->
    (forall a c, (a, c) ∈ entries t -> cs !! a = Some c) ->
    (forall a c, (a, c) ∈ entries t -> parent <> Some (comment_id c)) ->
    Forall (fun c => ~ own_parent c) (entries t).*2.
Proof.
  intros Hids. induction t as [a c kids IH] using CommentNode_nested_ind.
  intros parent Hnest Hnd Hlook Hpar.
  rewrite well_nested_Reified in Hnest. apply andb_true_iff in Hnest as [Hp Hkids].
  apply bool_decide_eq_true in Hp.
  rewrite entries_Reified, fmap_cons in Hnd. apply NoDup_cons in Hnd as [Ha Hnd].
  rewrite entries_Reified, fmap_cons. constructor.
  - cbn [snd]. unfold own_parent. rewrite Hp. apply (Hpar a c).
    rewrite entries_Reified. apply list_elem_of_here.
  - assert (Hlook' : forall a' c', (a', c') ∈ entries_forest kids -> cs !! a' = Some c')
      by (intros a' c' H; apply Hlook; rewrite entries_Reified; by apply list_elem_of_further).
    assert (Hc : cs !! a = Some c)
      by (apply Hlook; rewrite entries_Reified; apply list_elem_of_here).
    assert (Hdiff : forall a' c', (a', c') ∈ entries_forest kids ->
                      Some (comment_id c) <> Some (comment_id c')).
    { intros a' c' H [= E]. apply Ha.
      rewrite (unique_ids_inj cs a a' c c' Hids Hc (Hlook' _ _ H) E).
      apply list_elem_of_fmap. by exists (a', c'). }
    clear Hlook Hpar Ha Hc Hp.
    induction IH as [|k kids Hk _ IHkids]; [constructor|].
    simpl in Hkids. apply andb_true_iff in Hkids as [Hk' Hkids].
    rewrite entries_forest_cons, fmap_app in Hnd.
    apply NoDup_app in Hnd as (Hndk & _ & Hndkids).
    rewrite entries_forest_cons, fmap_app. apply Forall_app. split.
    + apply (Hk (Some (comment_id c))); auto.
      * intros a' c' H. apply Hlook'. rewrite entries_forest_cons.
        apply elem_of_app. by left.
      * intros a' c' H. apply (Hdiff a'). rewrite entries_forest_cons.
        apply elem_of_app. by left.
    + apply IHkids; auto.
      * intros a' c' H. apply Hlook'. rewrite entries_forest_cons.
        apply elem_of_app. by right.
      * intros a' c' H. apply (Hdiff a'). rewrite entries_forest_cons.
        apply elem_of_app. by right.
Qed.

Lemma visit_own_parent (st : State) (c : Comment) :
  own_parent c ->
  visit st c
  = Return {| heap := alter (append_reply (length (heap st))) (length (heap st))
                        (heap st ++ [serialize c]);
              comment_dict := <[comment_id c := length (heap st)]> (comment_dict st);
              root_comments := root_comments st |}.
Proof.
  unfold own_parent, visit. intros ->. by rewrite lookup_insert_eq.
Qed.

End ThreadShape.

(** X6: whenever [build] returns, the forest behind the returned list
    can be read out in full (no reference dangles and no cycle is
    reachable), every node at the top has no parent and every nested
    node names the node directly above it as its parent, and the forest
    holds comments of the input, each at most once; when no comment
    names itself as parent it holds every comment exactly once. *)
Theorem build_returns_forest (comments : list Comment) (st : Tree.State) :
  Tree.build comments = Tree.Return st ->
  exists f,
    Tree.forest st = Some f
    /\ Threads.well_nested_forest f = true
    /\ Tree.flatten_forest f ⊆+ comments
    /\ (Forall (fun c => ~ Threads.own_parent c) comments ->
        Tree.flatten_forest f ≡ₚ comments).
Proof.
  intros H. destruct (returned_loop comments st H) as [f Hret].
  exists f. split; [apply Hret|]. split; [apply Hret|].
  rewrite flatten_forest_entries. split.
  - apply indexed_submseteq; apply Hret.
  - intros Hall. by apply (Threads.ret_complete _ _ _ Hret).
Qed.

Lemma build_returns_forest_witness :
  exists f,
    Tree.forest (Threads.built Threads.shuffled) = Some f
    /\ Threads.well_nested_forest f = true
    /\ Tree.flatten_forest f ⊆+ Threads.shuffled
    /\ (Forall (fun c => ~ Threads.own_parent c) Threads.shuffled ->
        Tree.flatten_forest f ≡ₚ Threads.shuffled).
Proof.
  apply (build_returns_forest Threads.shuffled (Threads.built Threads.shuffled)).
  reflexivity.
Defined.

(** X7: a comment that names itself as parent raises no error: the turn
    of the loop returns, leaves the root list and the forest behind it
    as they were, and makes the comment its own reply; and with unique
    ids no such comment is in the forest that [build] returns. *)
Theorem own_parent_is_dropped :
  (forall st c f,
      Threads.own_parent c -> Tree.forest st = Some f ->
      exists st',
        Tree.visit st c = Tree.Return st'
        /\ Tree.root_comments st' = Tree.root_comments st
        /\ Tree.forest st' = Some f
        /\ Tree.replies <$> Tree.heap st' !! length (Tree.heap st)
           = Some [length (Tree.heap st)])
  /\ (forall comments st f,
        Tree.unique_ids comments ->
        Tree.build comments = Tree.Return st ->
        Tree.forest st = Some f ->
        Forall (fun c => ~ Threads.own_parent c) (Tree.flatten_forest f)).
Proof.
  split.
  - intros st c f Hown Hf. eexists. split; [by apply visit_own_parent|].
    split; [reflexivity|]. split; [by apply forest_own_parent|].
    cbn [Tree.heap]. rewrite list_lookup_alter_eq, list_lookup_middle by reflexivity.
    reflexivity.
  - intros comments st f Hids Hbuild Hf.
    destruct (returned_loop comments st Hbuild) as [f' Hret].
    assert (f' = f) as -> by (pose proof (Threads.ret_forest _ _ _ Hret); congruence).
    destruct Hret as [_ _ _ Hobj Hent Hnest _].
    rewrite flatten_forest_entries. unfold Threads.well_nested_forest in Hnest.
    clear Hbuild Hf. induction f as [|t f IH]; [constructor|].
    simpl in Hnest. apply andb_true_iff in Hnest as [Ht Hnest].
    rewrite entries_forest_cons, fmap_app in Hobj.
    apply NoDup_app in Hobj as (Hndt & _ & Hndf).
    rewrite entries_forest_cons, fmap_app. apply Forall_app. split.
    + apply (well_nested_no_own_parent comments t Hids None); auto.
      intros a c H. apply Hent. rewrite entries_forest_cons. apply elem_of_app. by left.
    + apply IH; auto.
      intros a c H. apply Hent. rewrite entries_forest_cons. apply elem_of_app. by right.
Qed.

(* ================================================================== *)
(** * services/api.js: the CSRF cookie, the request, the error message  *)
(* ================================================================== *)

Section ApiFacts.

Import Api.
Local Open Scope string_scope.

Lemma free_of_weaken (bad bad' : ascii -> bool) (s : string) :
  (forall a, bad' a = true -> bad a = true) ->
  free_of bad s = true -> free_of bad' s = true.
Proof.
  intros Hsub. induction s as [|a s IH]; [reflexivity|].
  cbn [free_of]. rewrite !andb_true_iff, !negb_true_iff.
  intros [Ha Hs]. split; [|auto].
  destruct (bad' a) eqn:E; [|reflexivity].
  apply Hsub in E. congruence.
Qed.

Lemma free_of_app (bad : ascii -> bool) (s t : string) :
  free_of bad (s ++ t) = free_of bad s && free_of bad t.
Proof.
  induction s as [|a s IH]; [reflexivity|].
  rewrite app_String. cbn [free_of]. rewrite IH. by rewrite andb_assoc.
Qed.

Lemma split_free (sep : ascii) (p : string) :
  free_of (fun a => Ascii.eqb a sep) p = true -> split sep p = [p].
Proof.
  induction p as [|a p IH]; [reflexivity|].
  cbn [free_of split]. rewrite andb_true_iff, negb_true_iff.
  intros [-> Hp]. by rewrite (IH Hp).
Qed.

Lemma split_app (sep : ascii) (p r : string) :
  free_of (fun a => Ascii.eqb a sep) p = true ->
  split sep (p ++ String sep r) = p :: split sep r.
Proof.
  induction p as [|a p IH].
  - intros _. change ("" ++ String sep r) with (String sep r).
    cbn [split]. by rewrite Ascii.eqb_refl.
  - cbn [free_of]. rewrite andb_true_iff, negb_true_iff.
    intros [Ha Hp]. rewrite app_String. cbn [split].
    rewrite Ha. by rewrite (IH Hp).
Qed.

Lemma app_assoc_string (s t u : string) : (s ++ t) ++ u = s ++ t ++ u.
Proof.
  induction s as [|a s IH]; [reflexivity|].
  rewrite !app_String. by rewrite IH.
Qed.

(** The pieces [split] finds in a joined list: the first piece as it
    is, every later one with the space of the separator in front. *)
Lemma split_concat (ps : list string) (p w : string) :
  free_of (fun a => Ascii.eqb a ";") w = true ->
  Forall (fun q => free_of (fun a => Ascii.eqb a ";") q = true) (p :: ps) ->
  split ";" (w ++ String.concat "; " (p :: ps)) = (w ++ p) :: map (String " ") ps.
Proof.
  revert p w. induction ps as [|q ps IH]; intros p w Hw Hall.
  - cbn [String.concat map]. apply split_free.
    rewrite free_of_app, Hw. by inversion Hall.
  - inversion Hall as [|? ? Hp Hrest]; subst.
    change (String.concat "; " (p :: q :: ps))
      with (p ++ String ";" (" " ++ String.concat "; " (q :: ps))).
    rewrite <- app_assoc_string.
    rewrite split_app by (by rewrite free_of_app, Hw, Hp).
    rewrite (IH q " " eq_refl Hrest). reflexivity.
Qed.

Lemma trimStart_free (s : string) :
  free_of is_whitespace s = true -> trimStart s = s.
Proof.
  destruct s as [|a s]; [reflexivity|].
  cbn [free_of trimStart]. rewrite andb_true_iff, negb_true_iff.
  by intros [-> _].
Qed.

Lemma trimEnd_free (s : string) :
  free_of is_whitespace s = true -> trimEnd s = s.
Proof.
  induction s as [|a s IH]; [reflexivity|].
  cbn [free_of trimEnd]. rewrite andb_true_iff, negb_true_iff.
  intros [Ha Hs]. rewrite (IH Hs). destruct s; [by rewrite Ha|reflexivity].
Qed.

Lemma trim_free (s : string) : free_of is_whitespace s = true -> trim s = s.
Proof.
  intros H. unfold trim. rewrite (trimStart_free s H). by apply trimEnd_free.
Qed.

Lemma trim_space (s : string) : trim (String " " s) = trim s.
Proof. reflexivity. Qed.

(** A name followed by the equals sign is a prefix of [n=v] exactly when
    it is [n], and what is left is then [v]. *)
Lemma strip_prefix_pair (name n v : string) :
  free_of (fun a => Ascii.eqb a "=") name = true ->
  free_of (fun a => Ascii.eqb a "=") n = true ->
  Tree.strip_prefix (name ++ "=") (n ++ "=" ++ v)
  = if String.eqb n name then Some v else None.
Proof.
  revert n. induction name as [|b name IH]; intros n Hname Hn.
  - destruct n as [|a n]; [reflexivity|].
    cbn [free_of] in Hn. rewrite andb_true_iff, negb_true_iff in Hn.
    destruct Hn as [Ha _].
    change ("" ++ "=") with (String "=" ""). rewrite app_String.
    cbn [Tree.strip_prefix String.eqb].
    rewrite Ascii.eqb_sym in Ha. by rewrite Ha.
  - cbn [free_of] in Hname. rewrite andb_true_iff, negb_true_iff in Hname.
    destruct Hname as [Hb Hname].
    rewrite app_String.
    destruct n as [|a n].
    + change ("" ++ "=" ++ v) with (String "=" v).
      cbn [Tree.strip_prefix String.eqb]. by rewrite Hb.
    + cbn [free_of] in Hn. rewrite andb_true_iff in Hn.
      destruct Hn as [_ Hn].
      rewrite app_String. cbn [Tree.strip_prefix String.eqb].
      rewrite (Ascii.eqb_sym a b).
      destruct (Ascii.eqb b a); [by apply IH|reflexivity].
Qed.

Lemma cookie_pair_free (n v : string) :
  cookie_name n = true -> cookie_value v = true ->
  free_of (fun a => Ascii.eqb a ";") (n ++ "=" ++ v) = true
  /\ free_of is_whitespace (n ++ "=" ++ v) = true
  /\ free_of (fun a => Ascii.eqb a "=") n = true.
Proof.
  unfold cookie_name, cookie_value. intros Hn Hv.
  assert (Hn1 : free_of (fun a => Ascii.eqb a ";") n = true).
  { revert Hn. apply free_of_weaken. intros a H. cbn beta. by rewrite H. }
  assert (Hn2 : free_of is_whitespace n = true).
  { revert Hn. apply free_of_weaken. intros a H. cbn beta.
    by rewrite H, orb_true_r. }
  assert (Hn3 : free_of (fun a => Ascii.eqb a "=") n = true).
  { revert Hn. apply free_of_weaken. intros a H. cbn beta.
    by rewrite H, orb_true_r. }
  assert (Hv1 : free_of (fun a => Ascii.eqb a ";") v = true).
  { revert Hv. apply free_of_weaken. intros a H. cbn beta. by rewrite H. }
  assert (Hv2 : free_of is_whitespace v = true).
  { revert Hv. apply free_of_weaken. intros a H. cbn beta.
    by rewrite H, orb_true_r. }
  rewrite !free_of_app, Hn1, Hn2, Hv1, Hv2. done.
Qed.

Lemma first_cookie_jar (name : string) (jar : list (string * string)) :
  free_of (fun a => Ascii.eqb a "=") name = true ->
  cookie_jar jar = true ->
  first_cookie name (map (String " ") (map (fun nv => nv.1 ++ "=" ++ nv.2) jar))
  = jar_lookup name jar.
Proof.
  intros Hname. induction jar as [|[n v] jar IH]; [reflexivity|].
  cbn [cookie_jar forallb fst snd]. rewrite !andb_true_iff.
  intros [[Hn Hv] Hjar].
  destruct (cookie_pair_free n v Hn Hv) as (_ & Hws & Heq).
  cbn [map first_cookie jar_lookup fst snd].
  rewrite trim_space, (trim_free _ Hws), (strip_prefix_pair name n v Hname Heq).
  destruct (String.eqb n name); [reflexivity|]. by apply IH.
Qed.

Lemma jar_pieces_free (jar : list (string * string)) :
  cookie_jar jar = true ->
  Forall (fun q => free_of (fun a => Ascii.eqb a ";") q = true)
    (map (fun nv => nv.1 ++ "=" ++ nv.2) jar).
Proof.
  induction jar as [|[n v] jar IH]; [constructor|].
  cbn [cookie_jar forallb fst snd]. rewrite !andb_true_iff.
  intros [[Hn Hv] Hjar]. constructor; [|by apply IH].
  by destruct (cookie_pair_free n v Hn Hv) as (? & _ & _).
Qed.

(** [getCSRFToken] on any name: reading a written jar. *)
Lemma first_cookie_document (name : string) (jar : list (string * string)) :
  free_of (fun a => Ascii.eqb a "=") name = true ->
  cookie_jar jar = true ->
  first_cookie name (split ";" (document_cookie jar)) = jar_lookup name jar.
Proof.
  intros Hname Hjar. unfold document_cookie.
  destruct jar as [|[n v] jar]; [by destruct name|].
  pose proof (jar_pieces_free _ Hjar) as Hfree.
  cbn [map fst snd] in *.
  change (String.concat "; " ?l) with ("" ++ String.concat "; " l).
  rewrite (split_concat _ _ "" eq_refl Hfree).
  change ("" ++ ?s) with s.
  revert Hjar. cbn [cookie_jar forallb fst snd]. rewrite !andb_true_iff.
  intros [[Hn Hv] Hjar].
  destruct (cookie_pair_free n v Hn Hv) as (_ & Hws & Heq).
  cbn [first_cookie jar_lookup].
  rewrite (trim_free _ Hws), (strip_prefix_pair name n v Hname Heq).
  destruct (String.eqb n name); [reflexivity|].
  by apply first_cookie_jar.
Qed.




End ApiFacts.

(** X8: [getCSRFToken] reads back what the browser wrote.  For every
    cookie jar whose names and values are free of semicolons and white
    space (names also of equals signs), written into [document.cookie]
    as [name=value] pairs joined by a semicolon and a space,
    [getCSRFToken] returns the value of the first cookie named
    [csrftoken], and [null] when the jar has none. *)
Theorem getCSRFToken_reads_jar (jar : list (string * string)) :
  Api.cookie_jar jar = true ->
  Api.getCSRFToken (Api.document_cookie jar) = Api.jar_lookup "csrftoken" jar.
Proof.
  intros Hjar. unfold Api.getCSRFToken.
  by apply first_cookie_document.
Qed.

Lemma getCSRFToken_reads_jar_witness :
  Api.cookie_jar [("sessionid", "s3"); ("csrftoken", "tok"); ("csrftoken", "old")]%string
    = true
  /\ Api.getCSRFToken
       (Api.document_cookie
          [("sessionid", "s3"); ("csrftoken", "tok"); ("csrftoken", "old")]%string)
     = Api.jar_lookup "csrftoken"
         [("sessionid", "s3"); ("csrftoken", "tok"); ("csrftoken", "old")]%string.
Proof.
  split; [reflexivity|].
  apply (getCSRFToken_reads_jar
           [("sessionid", "s3"); ("csrftoken", "tok"); ("csrftoken", "old")]%string).
  reflexivity.
Defined.

(** X9: which requests carry the CSRF token.  With a non-empty
    [csrftoken] cookie, every exported function that changes state
    (login, register, logout, createPost, likePost, unlikePost,
    createComment, likeComment, unlikeComment) sends it in the
    [X-CSRFToken] header; the reading functions (initCSRF,
    getCurrentUser, getPosts, getPost, getLeaderboard) name no method
    and send no such header; without the cookie, or with an empty one,
    no request has the header.  Every request goes to a URL under
    [/api/], with credentials included and the JSON content type. *)
Theorem request_csrf_header (cookie : string) (c : Api.Call) :
  Api.init_headers (Api.request cookie c) !! "X-CSRFToken"%string
  = (if Api.changes_state c then
       match Api.getCSRFToken cookie with
       | Some token => if String.eqb token "" then None else Some token
       | None => None
       end
     else None)
  /\ Api.init_method (Api.request cookie c)
     = (if Api.changes_state c then Some "POST"%string else None)
  /\ Api.credentials (Api.request cookie c) = "include"%string
  /\ Api.init_headers (Api.request cookie c) !! "Content-Type"%string
     = Some "application/json"%string
  /\ exists rest, Api.url (Api.request cookie c) = ("/api/" ++ rest)%string.
Proof.
  assert (Hct : forall token : string,
    (<["X-CSRFToken"%string := token]>
       ((∅ : gmap string string) ∪ {["Content-Type"%string := "application/json"%string]}))
       !! "Content-Type"%string = Some "application/json"%string).
  { intros token. rewrite lookup_insert_ne by done.
    rewrite (left_id_L ∅ (∪)). by rewrite lookup_singleton_eq. }
  assert (Hx : forall token : string,
    (<["X-CSRFToken"%string := token]>
       ((∅ : gmap string string) ∪ {["Content-Type"%string := "application/json"%string]}))
       !! "X-CSRFToken"%string = Some token).
  { intros token. by rewrite lookup_insert_eq. }
  assert (H0 : ((∅ : gmap string string) ∪ {["Content-Type"%string := "application/json"%string]})
       !! "X-CSRFToken"%string = None).
  { rewrite (left_id_L ∅ (∪)). by rewrite lookup_singleton_ne. }
  assert (H1 : ((∅ : gmap string string) ∪ {["Content-Type"%string := "application/json"%string]})
       !! "Content-Type"%string = Some "application/json"%string).
  { rewrite (left_id_L ∅ (∪)). by rewrite lookup_singleton_eq. }
  destruct c; unfold Api.request, Api.fetch_init;
    cbn [Api.arguments Api.changes_state fst snd Api.post Api.no_options
         Api.method Api.headers Api.body Api.mutating Api.init_headers
         Api.init_method Api.credentials Api.url String.eqb Ascii.eqb
         Bool.eqb negb andb];
    (split; [|split; [|split; [|split]]];
     [ first [ exact H0
             | destruct (Api.getCSRFToken cookie) as [token|]; [|exact H0];
               destruct (String.eqb token "") eqn:E; [exact H0|apply Hx] ]
     | reflexivity
     | reflexivity
     | first [ exact H1
             | destruct (Api.getCSRFToken cookie) as [token|]; [|exact H1];
               destruct (String.eqb token "") eqn:E; [exact H1|apply Hct] ]
     | unfold Api.API_BASE; eexists; reflexivity ]).
Qed.


(* ================================================================== *)
(** * Components: time labels, the feed, a like click                   *)
(* ================================================================== *)

Lemma ago_rounds_down (date now : Z) :
  match Ui.ago date now with
  | Ui.JustNow => now - date < 60000
  | Ui.Minutes n => 1 <= n <= 59 /\ n * 60000 <= now - date < (n + 1) * 60000
  | Ui.Hours n => 1 <= n <= 23 /\ n * 3600000 <= now - date < (n + 1) * 3600000
  | Ui.Days n => 1 <= n /\ n * 86400000 <= now - date < (n + 1) * 86400000
  end.
Proof.
  unfold Ui.ago. cbv zeta.
  repeat match goal with
  | |- context [(?a <? ?b)] => destruct (Z.ltb_spec a b)
  end.
  all: rewrite ?Z.div_div by lia; cbn [Z.mul Pos.mul Pos.add].
  all: Z.div_mod_to_equations; lia.
Qed.

(** X11: what [timeAgo] shows is the elapsed time rounded down to
    whole minutes, hours or days.  The label is [just now] for less
    than a minute (also for a date in the future), and otherwise a
    number with [m ago], [h ago] or [d ago]: 1 to 59 minutes, 1 to 23
    hours, or at least 1 day, and the elapsed time lies between the
    shown amount and one unit more. *)
Theorem timeAgo_rounds_down (date now : Z) :
  (Ui.timeAgo date now = "just now"%string /\ now - date < 60000)
  \/ (exists n, Ui.timeAgo date now = (Api.show n ++ "m ago")%string
       /\ 1 <= n <= 59 /\ n * 60000 <= now - date < (n + 1) * 60000)
  \/ (exists n, Ui.timeAgo date now = (Api.show n ++ "h ago")%string
       /\ 1 <= n <= 23 /\ n * 3600000 <= now - date < (n + 1) * 3600000)
  \/ (exists n, Ui.timeAgo date now = (Api.show n ++ "d ago")%string
       /\ 1 <= n /\ n * 86400000 <= now - date < (n + 1) * 86400000).
Proof.
  pose proof (ago_rounds_down date now) as H. unfold Ui.timeAgo.
  destruct (Ui.ago date now) as [|n|n|n]; cbn [Ui.label].
  - left. by split.
  - right. left. exists n. by split.
  - right. right. left. exists n. by split.
  - right. right. right. exists n. by split.
Qed.

Section FeedFacts.

Import Ui.

Lemma handleCreatePost_posts (createPost : string -> Api.Outcome PostData) (st : Feed) :
  loading (handleCreatePost createPost st) = loading st
  /\ page (handleCreatePost createPost st) = page st
  /\ (posts (handleCreatePost createPost st) = posts st
      \/ exists p, posts (handleCreatePost createPost st) = not_liked p :: posts st).
Proof.
  unfold handleCreatePost.
  destruct (_ || _); [auto|].
  destruct (createPost _) as [p|m]; cbn; eauto.
Qed.

Lemma loadMore_posts (getPosts : Z -> Api.Outcome Page) (st st' : Feed) :
  loadMore getPosts st = Some st' ->
  loading st' = loading st
  /\ page st <= page st' <= page st + 1
  /\ exists older, posts st' = (posts st ++ older)%list.
Proof.
  unfold loadMore, fetchPosts.
  destruct (hasMore st) eqn:Hm, (loading st) eqn:Hl; cbn [andb negb].
  2: { destruct (getPosts _) as [data|m]; cbn [setPage posts loading page].
       - destruct (results data) as [more|]; cbn; [|discriminate].
         intros [= <-]. cbn. split; [done|]. split; [lia|]. by exists more.
       - intros [= <-]. cbn. split; [done|]. split; [lia|].
         exists []. by rewrite app_nil_r. }
  all: intros [= <-]; (split; [done|]); (split; [lia|]);
    exists []; by rewrite app_nil_r.
Qed.

Lemma received_snoc (getPosts : Z -> Api.Outcome Page) (ks : list Z) (k : Z) :
  received getPosts (ks ++ [k])
  = received getPosts ks ++ received getPosts [k].
Proof. unfold received. by rewrite map_app, concat_app. Qed.

Lemma seqZ_ascending (n : nat) : forall m, StronglySorted Z.lt (seqZ m (Z.of_nat n)).
Proof.
  induction n as [|n IH]; intros m.
  - rewrite seqZ_nil by lia. constructor.
  - rewrite seqZ_cons by lia.
    replace (Z.pred (Z.of_nat (S n))) with (Z.of_nat n) by lia.
    constructor; [apply IH|]. apply Forall_forall. intros x Hx.
    apply elem_of_seqZ in Hx. lia.
Qed.

(** A press whose answer arrives before anything else is [loadMore]. *)
Lemma loadMore_press_settle (getPosts : Z -> Api.Outcome Page) (st : Feed)
    (done : list Z) :
  hasMore st = true -> loading st = false ->
  settle getPosts 0 (press {| cells := st; pending := []; answered := done |})
  = (fun st' => {| cells := st'; pending := [];
                   answered := done ++ [page st + 1] |})
      <$> loadMore getPosts st.
Proof.
  intros Hm Hl. unfold press, settle, loadMore. cbn [cells pending answered].
  rewrite Hm, Hl. reflexivity.
Qed.

Lemma scrolling_press (getPosts : Z -> Api.Outcome Page) (s : Scrolling) :
  scrolling getPosts s -> scrolling getPosts (press s).
Proof.
  intros [H1 H2 H3 H4 H5]. unfold press.
  destruct (hasMore (cells s) && negb (loading (cells s))); [|by split].
  split; cbn [cells pending answered setPage posts page loading hasMore];
    try done; try lia.
  rewrite app_assoc, H2.
  assert (E : seqZ 2 (page (cells s) + 1 - 1)
              = seqZ 2 (page (cells s) - 1) ++ [page (cells s) + 1]).
  { replace (page (cells s) + 1 - 1) with ((page (cells s) - 1) + 1) by lia.
    rewrite seqZ_app by lia. f_equal.
    rewrite seqZ_cons by lia. rewrite seqZ_nil by lia. f_equal. lia. }
  by rewrite E.
Qed.

Lemma scrolling_settle (getPosts : Z -> Api.Outcome Page) (i : nat)
    (s s' : Scrolling) :
  scrolling getPosts s -> settle getPosts i s = Some s' -> scrolling getPosts s'.
Proof.
  intros [H1 H2 H3 H4 H5]. unfold settle.
  destruct (pending s !! i) as [k|] eqn:Ek; [|discriminate].
  assert (Hperm : (answered s ++ [k]) ++ delete i (pending s)
                  ≡ₚ answered s ++ pending s).
  { rewrite <- app_assoc. apply Permutation_app_head. cbn [app].
    symmetry. by apply delete_Permutation. }
  unfold fetchPosts. destruct (getPosts k) as [data|message] eqn:Eg.
  - destruct (results data) as [more|] eqn:Er; [|discriminate].
    cbn [fmap option_fmap option_map]. intros [= <-].
    split; cbn [cells pending answered posts page loading hasMore]; try done.
    + rewrite H1, app_comm_cons, received_snoc. f_equal.
      unfold received. cbn [map concat]. rewrite Eg, Er. cbn [default].
      by rewrite app_nil_r.
    + by rewrite Hperm.
    + intros k' data'. rewrite last_snoc. intros [= <-]. rewrite Eg.
      by intros [= <-].
  - cbn [fmap option_fmap option_map]. intros [= <-].
    split; cbn [cells pending answered posts page loading hasMore]; try done.
    + rewrite H1, app_comm_cons, received_snoc.
      unfold received at 3. cbn [map concat]. rewrite Eg.
      by rewrite !app_nil_r.
    + by rewrite Hperm.
    + intros k' data'. rewrite last_snoc. intros [= <-]. by rewrite Eg.
Qed.

Lemma scrolling_steps (getPosts : Z -> Api.Outcome Page) (schedule : list Step) :
  forall s s', scrolling getPosts s -> steps getPosts schedule s = Some s' ->
               scrolling getPosts s'.
Proof.
  induction schedule as [|[|i] schedule IH]; intros s s' Hs; cbn [steps].
  - by intros [= <-].
  - apply IH. by apply scrolling_press.
  - destruct (settle getPosts i s) as [s1|] eqn:E; [|discriminate].
    apply IH. by eapply scrolling_settle.
Qed.

Lemma scrolling_mounted (getPosts : Z -> Api.Outcome Page) (st : Feed) :
  fetchPosts getPosts 1 false mounted = Some st ->
  scrolling getPosts {| cells := st; pending := []; answered := [] |}.
Proof.
  unfold fetchPosts. destruct (getPosts 1) as [data|message] eqn:Eg.
  - cbn [fmap option_fmap option_map]. intros [= <-].
    split; cbn [cells pending answered posts page loading hasMore mounted];
      try done.
    unfold received. cbn [map concat]. rewrite Eg. by rewrite app_nil_r.
  - intros [= <-].
    split; cbn [cells pending answered posts page loading hasMore mounted];
      try done.
    unfold received. cbn [map concat]. by rewrite Eg.
Qed.

End FeedFacts.

(** X12: scrolling a feed whose requests overlap.  [loadMore] does
    not wait for its request, so presses and answers interleave.  After
    the fetch of the mount effect and any schedule of presses and
    answers that runs, against a server that answers a request for a
    page the same way whenever it is asked: the feed shows the results
    of page 1 followed by the results of the answered pages in the
    order in which their answers arrived; the pages asked for are 2 up
    to the page number, each once, answered or in flight; [loading] is
    false; [hasMore] is the truth of the [next] link of the answer
    that arrived last; and when nothing is in flight and the answers
    arrived in the order of the pages, the feed shows pages 1 up to the
    page number in order. *)
Theorem feed_pages_concatenate (getPosts : Z -> Api.Outcome Ui.Page)
    (schedule : list Ui.Step) (s : Ui.Scrolling) :
  Ui.scroll getPosts schedule = Some s ->
  Ui.posts (Ui.cells s) = Ui.received getPosts (1 :: Ui.answered s)
  /\ Ui.answered s ++ Ui.pending s ≡ₚ seqZ 2 (Ui.page (Ui.cells s) - 1)
  /\ Ui.loading (Ui.cells s) = false
  /\ (forall k data,
        last (Ui.answered s) = Some k -> getPosts k = Api.Resolved data ->
        Ui.hasMore (Ui.cells s) = Ui.truthy (Ui.next data))
  /\ (Ui.pending s = [] -> StronglySorted Z.lt (Ui.answered s) ->
      Ui.posts (Ui.cells s)
      = Ui.received getPosts (seqZ 1 (Ui.page (Ui.cells s)))).
Proof.
  unfold Ui.scroll.
  destruct (Ui.fetchPosts getPosts 1 false Ui.mounted) as [st|] eqn:E;
    [|discriminate].
  intros Hsteps.
  destruct (scrolling_steps getPosts schedule _ s (scrolling_mounted getPosts st E)
              Hsteps) as [H1 H2 H3 H4 H5].
  split; [exact H1|]. split; [exact H2|]. split; [exact H4|]. split; [exact H5|].
  intros Hp Hsorted. rewrite H1. f_equal.
  rewrite Hp, app_nil_r in H2.
  rewrite (seqZ_cons 1) by lia. f_equal.
  replace (Z.succ 1) with 2 by lia.
  replace (Z.pred (Ui.page (Ui.cells s))) with (Ui.page (Ui.cells s) - 1) by lia.
  eapply (StronglySorted_unique_strong Z.lt); [|exact Hsorted| |exact H2].
  - intros. lia.
  - replace (Ui.page (Ui.cells s) - 1)
      with (Z.of_nat (Z.to_nat (Ui.page (Ui.cells s) - 1))) by lia.
    apply seqZ_ascending.
Qed.

Lemma feed_pages_concatenate_witness :
  exists s,
    Ui.scroll (fun k => Api.Resolved (Ui.three_pages k))
      [Ui.Press; Ui.Press; Ui.Settle 1; Ui.Settle 0] = Some s
    /\ Ui.answered s = [3; 2]
    /\ Ui.pd_id <$> Ui.posts (Ui.cells s) = [1; 2; 5; 6; 3; 4]
    /\ Ui.hasMore (Ui.cells s) = true
    /\ Ui.posts (Ui.cells s)
       = Ui.received (fun k => Api.Resolved (Ui.three_pages k)) (1 :: Ui.answered s)
    /\ Ui.answered s ++ Ui.pending s ≡ₚ seqZ 2 (Ui.page (Ui.cells s) - 1)
    /\ Ui.loading (Ui.cells s) = false
    /\ (forall k data,
          last (Ui.answered s) = Some k ->
          Api.Resolved (Ui.three_pages k) = Api.Resolved data ->
          Ui.hasMore (Ui.cells s) = Ui.truthy (Ui.next data))
    /\ (Ui.pending s = [] -> StronglySorted Z.lt (Ui.answered s) ->
        Ui.posts (Ui.cells s)
        = Ui.received (fun k => Api.Resolved (Ui.three_pages k))
            (seqZ 1 (Ui.page (Ui.cells s)))).
Proof.
  eexists. split; [reflexivity|].
  split; [reflexivity|]. split; [reflexivity|]. split; [reflexivity|].
  apply (feed_pages_concatenate (fun k => Api.Resolved (Ui.three_pages k))
           [Ui.Press; Ui.Press; Ui.Settle 1; Ui.Settle 0]).
  reflexivity.
Defined.

(** X13: a failed Load More loses a page.  [loadMore] advances the
    page number before the request; when the request for page
    [page + 1] is rejected, the posts and [hasMore] stay and the page
    number does not go back, so the next Load More asks for page
    [page + 2], and on its success the feed shows the old posts
    followed by the results of page [page + 2]: the results of page
    [page + 1] are not asked for again. *)
Theorem loadMore_failure_skips_page
    (getPosts1 getPosts2 : Z -> Api.Outcome Ui.Page) (st : Ui.Feed) (message : string) :
  Ui.hasMore st = true ->
  Ui.loading st = false ->
  getPosts1 (Ui.page st + 1) = Api.Thrown message ->
  exists st1,
    Ui.loadMore getPosts1 st = Some st1
    /\ Ui.posts st1 = Ui.posts st
    /\ Ui.hasMore st1 = true
    /\ Ui.page st1 = Ui.page st + 1
    /\ Ui.loadMore getPosts2 st1 = Ui.fetchPosts getPosts2 (Ui.page st + 2) true
                                     (Ui.setPage (Ui.page st + 2) st1)
    /\ forall data more,
         getPosts2 (Ui.page st + 2) = Api.Resolved data ->
         Ui.results data = Some more ->
         exists st2,
           Ui.loadMore getPosts2 st1 = Some st2
           /\ Ui.posts st2 = Ui.posts st ++ more
           /\ Ui.page st2 = Ui.page st + 2.
Proof.
  intros Hmore Hload Hfail.
  unfold Ui.loadMore at 1. rewrite Hmore, Hload. cbn [andb negb].
  unfold Ui.fetchPosts at 1. rewrite Hfail.
  eexists. split; [reflexivity|].
  cbn [Ui.setPage Ui.posts Ui.hasMore Ui.page Ui.loading].
  repeat (split; [done|]).
  unfold Ui.loadMore. cbn [Ui.hasMore Ui.loading Ui.page]. rewrite Hmore.
  cbn [andb negb].
  replace (Ui.page st + 1 + 1) with (Ui.page st + 2) by lia.
  split; [reflexivity|].
  intros data more Hdata Hres. unfold Ui.fetchPosts. rewrite Hdata, Hres.
  cbn. eauto.
Qed.

Lemma loadMore_failure_skips_page_witness :
  exists st1,
    Ui.loadMore (fun _ => Api.Thrown "offline"%string)
      {| Ui.posts := [Ui.a_post 1; Ui.a_post 2]; Ui.loading := false;
         Ui.newPostContent := ""; Ui.isSubmitting := false; Ui.error := None;
         Ui.page := 1; Ui.hasMore := true |} = Some st1
    /\ Ui.posts st1 = [Ui.a_post 1; Ui.a_post 2]
    /\ Ui.hasMore st1 = true
    /\ Ui.page st1 = 1 + 1
    /\ Ui.loadMore (fun k => Api.Resolved (Ui.three_pages k)) st1
       = Ui.fetchPosts (fun k => Api.Resolved (Ui.three_pages k)) (1 + 2) true
           (Ui.setPage (1 + 2) st1)
    /\ forall data more,
         Api.Resolved (Ui.three_pages (1 + 2)) = Api.Resolved data ->
         Ui.results data = Some more ->
         exists st2,
           Ui.loadMore (fun k => Api.Resolved (Ui.three_pages k)) st1 = Some st2
           /\ Ui.posts st2 = [Ui.a_post 1; Ui.a_post 2] ++ more
           /\ Ui.page st2 = 1 + 2.
Proof.
  apply (loadMore_failure_skips_page
           (fun _ => Api.Thrown "offline"%string)
           (fun k => Api.Resolved (Ui.three_pages k))
           {| Ui.posts := [Ui.a_post 1; Ui.a_post 2]; Ui.loading := false;
              Ui.newPostContent := ""; Ui.isSubmitting := false; Ui.error := None;
              Ui.page := 1; Ui.hasMore := true |}
           "offline"%string); reflexivity.
Defined.

(** X14: the feed never loses a post.  Over every sequence of typing,
    submitting and pressing Load More, whatever the server answers, for
    every run that ends: the posts shown before are still shown, in
    the same order and next to each other; what came in front of them
    are created posts, each marked as not liked; the page number has
    not gone down and has grown by at most the number of events; and
    the [loading] flag is as it was. *)
Theorem feed_keeps_posts (events : list Ui.Event) (st st' : Ui.Feed) :
  Ui.run events st = Some st' ->
  Ui.loading st' = Ui.loading st
  /\ Ui.page st <= Ui.page st' <= Ui.page st + Z.of_nat (length events)
  /\ exists newer older,
       Ui.posts st' = newer ++ Ui.posts st ++ older
       /\ Forall (fun p => Ui.pd_is_liked p = Some false) newer.
Proof.
  revert st. induction events as [|e events IH]; intros st.
  - intros [= <-]. split; [done|]. split; [cbn; lia|].
    exists [], []. by rewrite app_nil_r.
  - cbn [Ui.run]. destruct (Ui.on_event st e) as [st1|] eqn:E; [|discriminate].
    intros Hrun. destruct (IH st1 Hrun) as (Hl & Hp & newer & older & Hposts & Hnew).
    assert (Hstep : Ui.loading st1 = Ui.loading st
                    /\ Ui.page st <= Ui.page st1 <= Ui.page st + 1
                    /\ exists newer1 older1,
                         Ui.posts st1 = newer1 ++ Ui.posts st ++ older1
                         /\ Forall (fun p => Ui.pd_is_liked p = Some false) newer1).
    { destruct e as [text|createPost|getPosts]; cbn [Ui.on_event] in E.
      - injection E as <-. cbn. split; [done|]. split; [lia|].
        exists [], []. by rewrite app_nil_r.
      - injection E as <-.
        destruct (handleCreatePost_posts createPost st) as (H1 & H2 & [H3 | [p H3]]).
        + rewrite H1, H2, H3. split; [done|]. split; [lia|].
          exists [], []. by rewrite app_nil_r.
        + rewrite H1, H2, H3. split; [done|]. split; [lia|].
          exists [Ui.not_liked p], []. rewrite app_nil_r. split; [reflexivity|].
          by constructor.
      - destruct (loadMore_posts getPosts st st1 E) as (H1 & H2 & older1 & H3).
        split; [done|]. split; [lia|]. exists [], older1. by split. }
    destruct Hstep as (Hl1 & Hp1 & newer1 & older1 & Hposts1 & Hnew1).
    split; [congruence|]. split; [cbn [length]; lia|].
    exists (newer ++ newer1), (older1 ++ older). split.
    + rewrite Hposts, Hposts1. by rewrite <- !app_assoc.
    + by apply Forall_app.
Qed.

Lemma feed_keeps_posts_witness :
  Ui.loading
    {| Ui.posts := [Ui.not_liked (Ui.a_post 9); Ui.a_post 1; Ui.a_post 2;
                    Ui.a_post 3; Ui.a_post 4];
       Ui.loading := false; Ui.newPostContent := ""; Ui.isSubmitting := false;
       Ui.error := None; Ui.page := 2; Ui.hasMore := true |} = false
  /\ 1 <= 2 <= 1 + 3
  /\ exists newer older,
       [Ui.not_liked (Ui.a_post 9); Ui.a_post 1; Ui.a_post 2; Ui.a_post 3; Ui.a_post 4]
       = newer ++ [Ui.a_post 1; Ui.a_post 2] ++ older
       /\ Forall (fun p => Ui.pd_is_liked p = Some false) newer.
Proof.
  apply (feed_keeps_posts
           [Ui.Typed " hello "%string;
            Ui.Submitted (fun _ => Api.Resolved (Ui.a_post 9));
            Ui.LoadMore (fun k => Api.Resolved (Ui.three_pages k))]
           {| Ui.posts := [Ui.a_post 1; Ui.a_post 2]; Ui.loading := false;
              Ui.newPostContent := ""; Ui.isSubmitting := false; Ui.error := None;
              Ui.page := 1; Ui.hasMore := true |}).
  reflexivity.
Defined.

(** X15: a like click moves the count on the page exactly when the
    table gets a row.  For a click on a post shown as not liked: the
    change of the like count on the page equals the change of the
    number of rows of the table; when the table has no row for the
    user and the post, the row is appended, the count goes up by one
    and the button turns to liked; when it has one (the page is stale),
    the view answers 400, the call is rejected and neither the table
    nor the page changes; and a second click from the same rendering
    (the captured [isLiked] still false) changes nothing, so a double
    click counts once. *)
Theorem like_click_counts_once (t : list PostLike) (user : option User)
    (p now now' : Z) (st : Frontend.LikeState) :
  let after := Ui.like_click t user p now st in
  Frontend.likeCount after.2 - Frontend.likeCount st
    = Z.of_nat (length after.1) - Z.of_nat (length t)
  /\ (forall u, user = Some u ->
        existsb (Ledger.same_pair p (user_id u)) t = false ->
        after = (t ++ [{| pl_post := p; pl_user := user_id u; pl_created_at := now |}],
                 {| Frontend.isLiked := true;
                    Frontend.likeCount := Frontend.likeCount st + 1 |}))
  /\ (forall u, user = Some u ->
        existsb (Ledger.same_pair p (user_id u)) t = true -> after = (t, st))
  /\ (user = None -> after = (t, st))
  /\ Ui.like_click after.1 user p now' after.2 = after.
Proof.
  cbv zeta.
  assert (Hhit : forall t u now st,
    existsb (Ledger.same_pair p (user_id u)) t = true ->
    Ui.like_click t (Some u) p now st = (t, st)).
  { intros t0 u n0 st0 H. unfold Ui.like_click, Ledger.like, Ledger.create.
    cbn [pl_post pl_user]. by rewrite H. }
  assert (Hmiss : forall u,
    existsb (Ledger.same_pair p (user_id u)) t = false ->
    Ui.like_click t (Some u) p now st
    = (t ++ [{| pl_post := p; pl_user := user_id u; pl_created_at := now |}],
       {| Frontend.isLiked := true;
          Frontend.likeCount := Frontend.likeCount st + 1 |})).
  { intros u H. unfold Ui.like_click, Ledger.like, Ledger.create.
    cbn [pl_post pl_user]. by rewrite H. }
  destruct user as [u|].
  2: { cbn. repeat split; try done. lia. }
  destruct (existsb (Ledger.same_pair p (user_id u)) t) eqn:E.
  - rewrite (Hhit t u now st E). cbn [fst snd].
    repeat split; try done; try lia.
    + intros u' [= <-]. congruence.
    + by apply Hhit.
  - rewrite (Hmiss u E). cbn [fst snd Frontend.likeCount].
    repeat split; try done.
    + rewrite length_app. cbn [length]. lia.
    + intros u' [= <-] _. reflexivity.
    + intros u' [= <-]. congruence.
    + apply Hhit. rewrite existsb_app. cbn [existsb].
      unfold Ledger.same_pair at 2. cbn [pl_post pl_user].
      rewrite !bool_decide_eq_true_2 by reflexivity. by rewrite orb_true_r.
Qed.

(* ================================================================== *)
(** * The SQL query against the view                                    *)
(* ================================================================== *)

Section SqlFacts.

Import Sql.

Lemma filter_no_match {B} (kb : B -> Z) (k : Z) (r : list B) :
  k ∉ (kb <$> r) -> filter (fun b => bool_decide (k = kb b) = true) r = [].
Proof.
  induction r as [|b r IH]; [reflexivity|].
  rewrite fmap_cons, not_elem_of_cons. intros [Hne Hnotin].
  rewrite filter_cons. destruct (decide _) as [E|E]; [|by apply IH].
  apply bool_decide_eq_true in E. contradiction.
Qed.

Lemma find_no_match {B} (kb : B -> Z) (k : Z) (r : list B) :
  k ∉ (kb <$> r) -> find (fun b => bool_decide (kb b = k)) r = None.
Proof.
  induction r as [|b r IH]; [reflexivity|].
  rewrite fmap_cons, not_elem_of_cons. intros [Hne Hnotin].
  cbn [find]. rewrite bool_decide_eq_false_2 by congruence. by apply IH.
Qed.

(** On a unique key the matching rows are the one [find] gives. *)
Lemma filter_unique {B} (kb : B -> Z) (k : Z) (r : list B) :
  NoDup (kb <$> r) ->
  filter (fun b => bool_decide (k = kb b) = true) r
  = option_list (find (fun b => bool_decide (kb b = k)) r).
Proof.
  induction r as [|b r IH]; [reflexivity|].
  rewrite fmap_cons, NoDup_cons. intros [Hnotin Hnd].
  rewrite filter_cons. cbn [find].
  destruct (decide (k = kb b)) as [E|E].
  - rewrite !bool_decide_eq_true_2 by congruence.
    destruct (decide _) as [_|H]; [|done].
    change (option_list (Some b)) with [b]. f_equal.
    apply filter_no_match. by rewrite E.
  - rewrite !bool_decide_eq_false_2 by congruence.
    destruct (decide _) as [H|_]; [discriminate|]. by apply IH.
Qed.

Lemma flat_map_step {A B} (f : A -> list B) (a : A) (l : list A) :
  flat_map f (a :: l) = f a ++ flat_map f l.
Proof. reflexivity. Qed.

Lemma JOIN_unique {A B} (ka : A -> Z) (kb : B -> Z) (l : list A) (r : list B) :
  NoDup (kb <$> r) ->
  JOIN l r (fun a b => bool_decide (ka a = kb b))
  = omap (fun a => pair a <$> find (fun b => bool_decide (kb b = ka a)) r) l.
Proof.
  intros Hnd. unfold JOIN. induction l as [|a l IH]; [reflexivity|].
  rewrite flat_map_step, IH, (filter_unique kb (ka a) r Hnd).
  cbn [omap list_omap]. by destruct (find _ r).
Qed.

Lemma LEFT_JOIN_unique {A B} (ka : A -> Z) (kb : B -> Z) (l : list A) (r : list B) :
  NoDup (kb <$> r) ->
  LEFT_JOIN l r (fun a b => bool_decide (ka a = kb b))
  = map (fun a => (a, find (fun b => bool_decide (kb b = ka a)) r)) l.
Proof.
  intros Hnd. unfold LEFT_JOIN. induction l as [|a l IH]; [reflexivity|].
  rewrite flat_map_step, IH, (filter_unique kb (ka a) r Hnd).
  cbn [map]. by destruct (find _ r).
Qed.

Lemma COALESCE_find (rows : list (Z * Z)) (k : Z) :
  COALESCE (snd <$> find (fun b => bool_decide (fst b = k)) rows) 0
  = dict_get rows k 0.
Proof.
  induction rows as [|[k' v] rows IH]; [reflexivity|].
  cbn [find dict_get fst]. destruct (decide (k' = k)) as [E|E].
  - by rewrite bool_decide_eq_true_2.
  - by rewrite bool_decide_eq_false_2.
Qed.

Lemma joined_authors {L P} (kl : L -> Z) (kp : P -> Z) (author : P -> Z)
    (created : L -> Z) (c : Z) (likes : list L) (rows : list P) :
  map (fun row => author (snd row))
    (filter (fun row => c <= created (fst row))
       (omap (fun l => pair l <$> find (fun p => bool_decide (kp p = kl l)) rows) likes))
  = omap (fun l => author <$> find (fun p => bool_decide (kp p = kl l)) rows)
      (filter (fun l => c <= created l) likes).
Proof.
  induction likes as [|l likes IH]; [reflexivity|].
  cbn [omap list_omap]. rewrite (filter_cons _ l).
  destruct (find _ rows) as [p|] eqn:E; cbn [fmap option_fmap option_map].
  - rewrite filter_cons. cbn [fst].
    destruct (decide (c <= created l)) as [H|H].
    + cbn [map omap list_omap snd]. rewrite E. cbn. by rewrite <- IH.
    + exact IH.
  - destruct (decide (c <= created l)) as [H|H]; [|exact IH].
    cbn [omap list_omap]. rewrite E. exact IH.
Qed.

(** With unique post ids the CTE is the row sequence of the view. *)
Lemma post_karma_view (db : Karma.Database) (now : Z) :
  NoDup (post_id <$> Karma.posts db) ->
  post_karma db now = Karma.post_karma db (now - Karma.timedelta_hours 24).
Proof.
  intros Hnd. unfold post_karma, Karma.post_karma, GROUP_BY_COUNT, cutoff.
  rewrite (JOIN_unique pl_post post_id _ _ Hnd).
  rewrite (joined_authors pl_post post_id post_author pl_created_at).
  reflexivity.
Qed.

Lemma times_one (rows : list (Z * Z)) :
  map (fun g => (fst g, snd g * 1)) rows = rows.
Proof.
  induction rows as [|[k v] rows IH]; [reflexivity|].
  cbn [map fst snd]. rewrite IH. f_equal. f_equal. lia.
Qed.

Lemma comment_karma_view (db : Karma.Database) (now : Z) :
  NoDup (comment_id <$> Karma.comments db) ->
  comment_karma db now = Karma.comment_karma db (now - Karma.timedelta_hours 24).
Proof.
  intros Hnd. unfold comment_karma, Karma.comment_karma, GROUP_BY_COUNT, cutoff.
  rewrite times_one.
  rewrite (JOIN_unique cl_comment comment_id _ _ Hnd).
  rewrite (joined_authors cl_comment comment_id comment_author cl_created_at).
  reflexivity.
Qed.

(** The selected rows: the users of positive karma, each with its
    name and its karma. *)
Lemma selected_rows (auth_user : list User) (db : Karma.Database) (now : Z) :
  NoDup (post_id <$> Karma.posts db) ->
  NoDup (comment_id <$> Karma.comments db) ->
  selected auth_user db now
  = map (fun u => {| row_id := user_id u; row_username := username u;
                     total_karma := Karma.karma db now (user_id u) |})
      (filter (fun u => 0 < Karma.karma db now (user_id u)) auth_user).
Proof.
  intros Hp Hc. unfold selected.
  rewrite (post_karma_view db now Hp), (comment_karma_view db now Hc).
  rewrite (LEFT_JOIN_unique user_id (fst : Z * Z -> Z) auth_user _
             (post_karma_NoDup db (now - Karma.timedelta_hours 24))).
  rewrite (LEFT_JOIN_unique (fun r : User * option (Z * Z) => user_id (fst r))
             (fst : Z * Z -> Z) _ _
             (comment_karma_NoDup db (now - Karma.timedelta_hours 24))).
  set (pk := Karma.post_karma db (now - Karma.timedelta_hours 24)).
  set (ck := Karma.comment_karma db (now - Karma.timedelta_hours 24)).
  assert (Htotal : forall u : User,
    total (u, find (fun b : Z * Z => bool_decide (fst b = user_id u)) pk,
           find (fun b : Z * Z => bool_decide (fst b = user_id u)) ck)
    = Karma.karma db now (user_id u)).
  { intros u. unfold total. cbn [fst snd].
    rewrite (COALESCE_find pk (user_id u)), (COALESCE_find ck (user_id u)).
    unfold pk, ck. rewrite post_karma_get, comment_karma_get.
    unfold Karma.karma. lia. }
  induction auth_user as [|u l IH]; [reflexivity|].
  cbn [map]. rewrite !filter_cons. cbn [fst snd]. rewrite (Htotal u).
  destruct (decide (0 < Karma.karma db now (user_id u))) as [H|H]; [|exact IH].
  cbn [map fst snd]. rewrite (Htotal u). f_equal. exact IH.
Qed.

(** Karma comes from a like on a post or a comment of the user, so
    the user is an author. *)
Lemma karma_author (auth_user : list User) (db : Karma.Database) (now u : Z) :
  schema auth_user db -> 0 < Karma.karma db now u -> u ∈ (user_id <$> auth_user).
Proof.
  intros (_ & _ & _ & Hposts & Hcomments) Hk.
  unfold Karma.karma, Karma.post_likes_received, Karma.comment_likes_received in Hk.
  destruct (filter _ (Karma.post_likes db)) as [|l ls] eqn:E.
  - destruct (filter _ (Karma.comment_likes db)) as [|l ls] eqn:E';
      [cbn in Hk; lia|].
    assert (Hin : l ∈ l :: ls) by left. rewrite <- E' in Hin.
    apply list_elem_of_filter in Hin as [[_ Ha] _].
    unfold Karma.comment__author in Ha.
    destruct (find _ (Karma.comments db)) as [c|] eqn:Ef; [|discriminate].
    injection Ha as <-. apply find_some in Ef as [Hc _].
    apply list_elem_of_In in Hc.
    rewrite Forall_forall in Hcomments. by apply Hcomments.
  - assert (Hin : l ∈ l :: ls) by left. rewrite <- E in Hin.
    apply list_elem_of_filter in Hin as [[_ Ha] _].
    unfold Karma.post__author in Ha.
    destruct (find _ (Karma.posts db)) as [p|] eqn:Ef; [|discriminate].
    injection Ha as <-. apply find_some in Ef as [Hp _].
    apply list_elem_of_In in Hp.
    rewrite Forall_forall in Hposts. by apply Hposts.
Qed.

Lemma selected_table (auth_user : list User) (db : Karma.Database) (now : Z) :
  schema auth_user db ->
  (fun r => (row_id r, total_karma r)) <$> selected auth_user db now
  ≡ₚ Karma.karma_table db now.
Proof.
  intros Hs. pose proof Hs as (Hu & Hp & Hc & _).
  rewrite (selected_rows auth_user db now Hp Hc).
  rewrite <- list_fmap_compose.
  apply NoDup_Permutation.
  - apply (NoDup_fmap_1 fst). rewrite <- list_fmap_compose.
    eapply sublist_NoDup; [exact Hu|].
    apply (fmap_sublist user_id), sublist_filter.
  - apply (NoDup_fmap_1 fst), karma_table_NoDup.
  - intros [u k]. rewrite karma_table_entry, list_elem_of_fmap. split.
    + intros (usr & [= -> ->] & Hin). apply list_elem_of_filter in Hin as [H _].
      by split.
    + intros [-> Hk].
      pose proof (karma_author auth_user db now u Hs Hk) as Hin.
      apply list_elem_of_fmap in Hin as (usr & -> & Hin).
      exists usr. split; [reflexivity|]. by apply list_elem_of_filter.
Qed.

Lemma descending_unique (l1 l2 : list Z) :
  StronglySorted (fun a b => b <= a) l1 ->
  StronglySorted (fun a b => b <= a) l2 ->
  l1 ≡ₚ l2 -> l1 = l2.
Proof.
  apply StronglySorted_unique_strong. intros. lia.
Qed.

Lemma query_answers (auth_user : list User) (db : Karma.Database) (now : Z) :
  answers auth_user db now (query auth_user db now).
Proof.
  unfold answers, query. eexists. split; [apply sort_by_Permutation|].
  split; [|reflexivity].
  apply sort_by_Sorted.
  - intros x y H. apply Z.ltb_lt in H. lia.
  - intros x y H. apply Z.ltb_ge in H. lia.
  - intros x y z. lia.
Qed.

End SqlFacts.

(** X16: the SQL query given for reference agrees with the view.  On
    tables that keep the schema (unique primary keys, authors that are
    users): the rows the query selects are, up to their order, the
    items of the view's [karma_by_user]; the query has an answer, and
    every answer, however the store orders rows of equal karma, has
    the karma column of the view's leaderboard and so as many rows;
    each row of an answer is a user of [auth_user] with that user's
    name and karma. *)
Theorem sql_query_matches_view (auth_user : list User) (db : Karma.Database) (now : Z) :
  Sql.schema auth_user db ->
  (fun r => (Sql.row_id r, Sql.total_karma r)) <$> Sql.selected auth_user db now
    ≡ₚ Karma.karma_table db now
  /\ Sql.answers auth_user db now (Sql.query auth_user db now)
  /\ forall out,
       Sql.answers auth_user db now out ->
       Sql.total_karma <$> out = (Karma.get db now).*2
       /\ length out = length (Karma.get db now)
       /\ forall r, r ∈ out ->
            Sql.total_karma r = Karma.karma db now (Sql.row_id r)
            /\ exists u, u ∈ auth_user /\ user_id u = Sql.row_id r
                         /\ username u = Sql.row_username r.
Proof.
  intros Hs. pose proof (selected_table auth_user db now Hs) as Hperm.
  split; [exact Hperm|]. split; [apply query_answers|].
  intros out (ordered & Hord & Hsorted & ->).
  assert (Hcol : Sql.total_karma <$> take 5 ordered = (Karma.get db now).*2).
  { rewrite get_unfold, !fmap_take. f_equal.
    apply descending_unique.
    - revert Hsorted. apply StronglySorted_fmap. auto.
    - generalize (sorted_reverse_descending (Karma.karma_table db now)).
      unfold Karma.descending. apply StronglySorted_fmap. auto.
    - unfold Karma.sorted_reverse. rewrite sort_by_Permutation, <- Hperm, Hord.
      by rewrite <- list_fmap_compose. }
  split; [exact Hcol|]. split.
  { rewrite <- (length_fmap Sql.total_karma), Hcol. by rewrite length_fmap. }
  intros r Hr.
  assert (Hin : r ∈ Sql.selected auth_user db now).
  { rewrite <- Hord. eapply elem_of_sublist; [exact Hr|apply sublist_take]. }
  destruct Hs as (_ & Hp & Hc & _).
  rewrite (selected_rows auth_user db now Hp Hc) in Hin.
  apply list_elem_of_fmap in Hin as (u & -> & Hu).
  apply list_elem_of_filter in Hu as [_ Hu].
  split; [reflexivity|]. by exists u.
Qed.

Lemma sql_query_matches_view_witness :
  Sql.schema Sql.users Karma.scenario
  /\ (fun r => (Sql.row_id r, Sql.total_karma r))
       <$> Sql.selected Sql.users Karma.scenario Karma.scenario_now
     ≡ₚ Karma.karma_table Karma.scenario Karma.scenario_now
  /\ Sql.answers Sql.users Karma.scenario Karma.scenario_now
       (Sql.query Sql.users Karma.scenario Karma.scenario_now)
  /\ forall out,
       Sql.answers Sql.users Karma.scenario Karma.scenario_now out ->
       Sql.total_karma <$> out = (Karma.get Karma.scenario Karma.scenario_now).*2
       /\ length out = length (Karma.get Karma.scenario Karma.scenario_now)
       /\ forall r, r ∈ out ->
            Sql.total_karma r
            = Karma.karma Karma.scenario Karma.scenario_now (Sql.row_id r)
            /\ exists u, u ∈ Sql.users /\ user_id u = Sql.row_id r
                         /\ username u = Sql.row_username r.
Proof.
  assert (H : Sql.schema Sql.users Karma.scenario).
  { unfold Sql.schema. repeat split; apply (bool_decide_unpack _); vm_compute; exact I. }
  split; [exact H|].
  apply (sql_query_matches_view Sql.users Karma.scenario Karma.scenario_now H).
Defined.
